(** * sf1r-lite: ingestion core

  A shallow embedding of the ingestion core of sf1r-lite:

  - [JobScheduler]      core/common/JobScheduler.cpp: the worker loop
  - [DirectoryBackup]   [backupDataFiles] and [IndexWorker::backup_]
  - [Recommend]         bundles/recommend/RecommendTaskService.cpp: order
                        saving, the order map, bundle scan and backup, the
                        bulk build and the cron callback
  - [IndexWorker]       the index worker: R-type classification, document
                        preparation, update and delete
  - [JobSchedulerFacts] shutdown of the worker and the order of effects
  - [BackupPolicy]      [requireBackup_] and the end of the index build
  - [RecommendFacts]    more of the recommend service: rejected orders,
                        order and user bundle files, backup of bundle files,
                        the bulk build, visits, carts, events and ratings
  - [IndexWorkerFacts]  more of the index worker: docids for inserts, the
                        writes of a bundle, the classifier's record, dates,
                        single documents through the API, rebuilds
  - [IndexRecovery]     [IndexWorker::recoverSCD_]
  - [DistributeFileSys] core/node-manager/DistributeFileSys.cpp

  Collaborators whose code is outside the sources (id manager, document
  store, index, recommend sub-stores) are represented by the sequence of
  calls they have received, each with the answer it got; what a
  collaborator answers is a parameter that may depend on that whole
  sequence, so every deterministic collaborator is an instance.

  The bundle loops of the recommend service and of the index worker pass
  their [boost::this_thread::interruption_point()] with no interruption
  pending; the job scheduler, whose loop ends by an interruption, models
  it.  Logging, profiling, progress reporting and the search-side cache
  resets have no counterpart here. *)

From Stdlib Require Import ZArith NArith String Ascii List Bool Lia.
From stdpp Require Import base option list gmap strings sorting.

Local Open Scope string_scope.
Local Open Scope list_scope.
Local Open Scope nat_scope.

(* ===================================================================== *)
(** ** core/common/JobScheduler.cpp *)
(* ===================================================================== *)

Module JobScheduler.

Section Worker.
(** Whatever the opaque callables act upon. *)
Context {World : Type}.

(** How a call [task()] can end: it returns, it lets an exception other
    than [boost::thread_interrupted] escape, or it reaches one of its own
    interruption points while an interruption is pending. *)
Inductive TaskResult :=
| Returns (w : World)
| Throws (w : World)
| ThrowsInterrupted (w : World).

Definition task_type := World → TaskResult.

(** How the worker thread function ends for a finite supply of tasks:
    blocked in [pop] on the empty queue, returned from the
    [catch (boost::thread_interrupted&)] handler, or left by an exception
    that no handler of [runAsynchronousTasks_] catches. *)
Inductive WorkerEnd :=
| BlockedInPop
| ReturnedOnInterrupt
| EscapedException.

Record WorkerRun := {
  started : list task_type;   (* the tasks called, in call order *)
  world_after : World;
  worker_end : WorkerEnd
}.

(** [interruptPending k]: has [close()] interrupted the worker by the
    time it reaches the interruption point that follows its [k]-th task? *)
Variable interruptPending : nat → bool.

(** [asynchronousTasks_] is a FIFO: [addTask] pushes at the back and
    [pop] takes the front, so the queue is the list of tasks in enqueue
    order.

<<
  try {
      task_type task;
      while (true) {
          asynchronousTasks_.pop(task);
          task();
          boost::this_thread::interruption_point();
      }
  } catch (boost::thread_interrupted&) { return; }
>> *)
Fixpoint runLoop (k : nat) (queue : list task_type) (w : World) : WorkerRun :=
  match queue with
  | [] => {| started := []; world_after := w; worker_end := BlockedInPop |}
  | task :: queue' =>
      match task w with
      | Returns w' =>
          if interruptPending k
          then {| started := [task]; world_after := w';
                  worker_end := ReturnedOnInterrupt |}
          else
            let r := runLoop (S k) queue' w' in
            {| started := task :: started r;
               world_after := world_after r;
               worker_end := worker_end r |}
      | ThrowsInterrupted w' =>
          {| started := [task]; world_after := w';
             worker_end := ReturnedOnInterrupt |}
      | Throws w' =>
          {| started := [task]; world_after := w';
             worker_end := EscapedException |}
      end
  end.

Definition runAsynchronousTasks_ (queue : list task_type) (w : World) : WorkerRun :=
  runLoop 0 queue w.

Definition alwaysReturns (t : task_type) : Prop := ∀ w, ∃ w', t w = Returns w'.



End Worker.

Arguments TaskResult : clear implicits.
Arguments task_type : clear implicits.
Arguments WorkerRun : clear implicits.

(** Two concrete callables on a counter. *)
Definition bump : task_type nat := λ n, Returns (S n).
Definition never : nat → bool := λ _, false.


Example run_two_bumps :
  runAsynchronousTasks_ never [bump; bump] 0
  = {| started := [bump; bump]; world_after := 2; worker_end := BlockedInPop |}.
Proof. reflexivity. Qed.




End JobScheduler.

(* ===================================================================== *)
(** ** The directory pair and the two backup routines *)
(* ===================================================================== *)

Module DirectoryBackup.

(** What the code reads of a [directory::Directory]: [name()],
    [parentName()], [valid()], and the data held under it. *)
Record Directory := {
  name : string;
  parentName : string;
  valid : bool;
  content : list string
}.

(** [directoryRotator.currentDirectory()] is dereferenced unchecked;
    [nextDirectory()] is tested against the null pointer. *)
Record DirectoryRotator := {
  currentDirectory : Directory;
  nextDirectory : option Directory
}.

(** Modelled from the spec: [Directory::copyFrom] (directory-manager is not
    among the sources).  A directory carries the name of the sibling it was
    copied from and a validity flag; a copy that succeeds leaves the target
    with the source's data, the source's name as parent and valid; a copy
    that meets a filesystem error throws and the state is not mutated.
    [fsOk] says whether the filesystem lets this copy through. *)
Definition copyFrom (fsOk : bool) (this other : Directory) : option Directory :=
  if fsOk
  then Some {| name := name this; parentName := name other;
               valid := true; content := content other |}
  else None.

Record BackupRun := {
  result : bool;
  rotator_after : DirectoryRotator;
  copyFromCalls : nat
}.

Definition withNext (r : DirectoryRotator) (d : Directory) : DirectoryRotator :=
  {| currentDirectory := currentDirectory r; nextDirectory := Some d |}.

(** The third conjunct of the guard in [backupDataFiles]:
    [next->valid() && next->parentName() == current->name()]. *)
Definition copiedSuccessfully (current next : Directory) : bool :=
  valid next && String.eqb (parentName next) (name current).

(** [backupDataFiles] (RecommendTaskService.cpp, lines 123-152). *)
Definition backupDataFiles (fsOk : bool) (r : DirectoryRotator) : BackupRun :=
  let current := currentDirectory r in
  match nextDirectory r with
  | Some next =>
      if negb (String.eqb (name current) (name next))
         && negb (copiedSuccessfully current next)
      then
        match copyFrom fsOk next current with
        | Some next' =>
            {| result := true; rotator_after := withNext r next'; copyFromCalls := 1 |}
        | None =>
            (* try copying but failed *)
            {| result := false; rotator_after := r; copyFromCalls := 1 |}
        end
      else {| result := true; rotator_after := r; copyFromCalls := 0 |}
  | None => {| result := true; rotator_after := r; copyFromCalls := 0 |}
  end.

(** [IndexWorker::backup_] (lines 2734-2766): the same routine with the
    third conjunct commented out,
    [//&& ! (next->valid() && next->parentName() == current->name()))]. *)
Definition backup_ (fsOk : bool) (r : DirectoryRotator) : BackupRun :=
  let current := currentDirectory r in
  match nextDirectory r with
  | Some next =>
      if negb (String.eqb (name current) (name next))
      then
        match copyFrom fsOk next current with
        | Some next' =>
            {| result := true; rotator_after := withNext r next'; copyFromCalls := 1 |}
        | None =>
            {| result := false; rotator_after := r; copyFromCalls := 1 |}
        end
      else {| result := true; rotator_after := r; copyFromCalls := 0 |}
  | None => {| result := true; rotator_after := r; copyFromCalls := 0 |}
  end.

(** A pair in which [next] already is a valid copy of [current]. *)
Definition dirA : Directory :=
  {| name := "collection-data/a"; parentName := ""; valid := true;
     content := ["docs.sdb"; "index.dat"] |}.
Definition dirB_copied : Directory :=
  {| name := "collection-data/b"; parentName := "collection-data/a"; valid := true;
     content := ["docs.sdb"; "index.dat"] |}.
Definition dirB_stale : Directory :=
  {| name := "collection-data/b"; parentName := ""; valid := false; content := [] |}.
Definition rotatorCopied : DirectoryRotator :=
  {| currentDirectory := dirA; nextDirectory := Some dirB_copied |}.
Definition rotatorStale : DirectoryRotator :=
  {| currentDirectory := dirA; nextDirectory := Some dirB_stale |}.

Example backupDataFiles_copies_stale :
  backupDataFiles true rotatorStale
  = {| result := true; rotator_after := rotatorCopied; copyFromCalls := 1 |}.
Proof. reflexivity. Qed.

Lemma copiedSuccessfully_after_copy current next next' :
  copyFrom true next current = Some next' →
  copiedSuccessfully current next' = true.
Proof.
  unfold copyFrom, copiedSuccessfully. intros [= <-]. simpl.
  apply String.eqb_refl.
Qed.

(** C4, as stated, fails for the index worker: on a pair whose [next]
    already is a valid copy of [current], [IndexWorker::backup_] still calls
    [copyFrom]. *)
Lemma index_backup_copies_valid_copy :
  copiedSuccessfully (currentDirectory rotatorCopied) dirB_copied = true
  ∧ nextDirectory rotatorCopied = Some dirB_copied
  ∧ copyFromCalls (backup_ true rotatorCopied) = 1
  ∧ copyFromCalls (backup_ true (rotator_after (backup_ true rotatorCopied))) = 1.
Proof. repeat split. Qed.

(** C4 (amended): the backup copy of the recommend service,
    [backupDataFiles], is idempotent: when [next] already is a valid copy of
    [current] it calls no [copyFrom], returns success and leaves the pair as
    it is; hence a backup that follows a successful one, with nothing
    written in between, copies nothing, and the two together call [copyFrom]
    at most once.  [IndexWorker::backup_] makes no such test: it calls
    [copyFrom] whenever [next] exists under another name. *)
Theorem backupDataFiles_idempotent (fsOk1 fsOk2 : bool) (r : DirectoryRotator) :
  (∀ next, nextDirectory r = Some next →
     copiedSuccessfully (currentDirectory r) next = true →
     backupDataFiles fsOk1 r
     = {| result := true; rotator_after := r; copyFromCalls := 0 |})
  ∧ (let b1 := backupDataFiles fsOk1 r in
     let b2 := backupDataFiles fsOk2 (rotator_after b1) in
     result b1 = true →
     result b2 = true ∧ copyFromCalls b2 = 0
     ∧ rotator_after b2 = rotator_after b1
     ∧ copyFromCalls b1 + copyFromCalls b2 ≤ 1)
  ∧ (∀ next, nextDirectory r = Some next →
     name (currentDirectory r) ≠ name next →
     copyFromCalls (backup_ fsOk1 r) = 1).
Proof.
  split; [|split].
  - intros next Hn Hc. unfold backupDataFiles. rewrite Hn, Hc.
    by rewrite andb_false_r.
  - unfold backupDataFiles.
    destruct r as [cur [next|]]; simpl; [|intros _; repeat split; lia].
    destruct (negb (name cur =? name next)%string) eqn:Hname; simpl.
    + destruct (copiedSuccessfully cur next) eqn:Hc; simpl.
      * intros _. rewrite Hname, Hc. simpl. repeat split; lia.
      * destruct fsOk1; simpl; [|discriminate].
        intros _. rewrite Hname.
        unfold copiedSuccessfully. simpl. rewrite String.eqb_refl. simpl.
        repeat split; lia.
    + intros _. rewrite Hname. simpl. repeat split; lia.
  - intros next Hn Hne. unfold backup_. rewrite Hn.
    apply String.eqb_neq in Hne. rewrite Hne. simpl.
    by destruct fsOk1.
Qed.

End DirectoryBackup.

(* ===================================================================== *)
(** ** bundles/recommend/RecommendTaskService.cpp *)
(* ===================================================================== *)

Module Recommend.
Import DirectoryBackup.

Abbreviation itemid_t := N (only parsing).

(** An [SCDDoc] is a vector of (property name, value) pairs.  The service
    converts every value with the one [DEFAULT_ENCODING], so values are
    kept as the converted strings. *)
Definition SCDDoc := list (string * string).

Inductive SCD_TYPE := NOT_SCD | INSERT_SCD | UPDATE_SCD | DELETE_SCD.

(** A file path, kept as (directory, file name):
    [bfs::path(p).filename()] is the second component. *)
Abbreviation Path := (string * string)%type (only parsing).
Definition pathString (p : Path) : string := p.1 ++ "/" ++ p.2.

Definition PROP_USERID := "USERID".
Definition PROP_ITEMID := "ITEMID".
Definition PROP_ORDERID := "ORDERID".
Definition PROP_DATE := "DATE".
Definition PROP_QUANTITY := "quantity".
Definition PROP_PRICE := "price".
Definition SCD_BACKUP_DIR := "backup".

(** the max number of orders to collect before adding them into
    [purchaseManager_] *)
Definition MAX_ORDER_NUM : nat := 1000.

(** [RecommendTaskService::OrderItem].  [price_] is a [double] on which no
    arithmetic is done: the model keeps the text [lexical_cast] accepted. *)
Record OrderItem := {
  itemIdStr_ : string;
  quantity_ : Z;
  price_ : string;
  dateStr_ : string;
  query_ : string
}.
Abbreviation OrderItemVec := (list OrderItem) (only parsing).

Record User := {
  idStr_ : string;
  propValueMap_ : gmap string string
}.

(** The three [RecommendMatrix] channels of the service. *)
Inductive RecommendMatrix := visitMatrix_ | purchaseMatrix_ | purchaseCoVisitMatrix_.

(** A [PurchaseCounter] as the service sees it: what [get] handed out,
    followed by the items clicked on it. *)
Definition PurchaseCounter := list itemid_t.
Definition click (pc : PurchaseCounter) (i : itemid_t) : PurchaseCounter := pc ++ [i].

Inductive Store :=
| userManager_ | visitManager_ | purchaseManager_ | cartManager_
| orderManager_ | eventManager_ | rateManager_ | queryPurchaseCounter_.

(** The calls the service makes on its sub-stores, with their answers. *)
Inductive Call :=
| AddUser (u : User) (ok : bool)
| UpdateUser (u : User) (ok : bool)
| RemoveUser (userIdStr : string) (ok : bool)
| AddOrder (items : list itemid_t)
| AddPurchaseItem (userIdStr : string) (items : list itemid_t)
                  (matrix : RecommendMatrix) (ok : bool)
| CounterGet (query : string) (found : bool)
| CounterUpdate (query : string) (pc : PurchaseCounter) (ok : bool)
| Flush (s : Store)
| BuildFreqItemsets
| BuildPurchaseSimMatrix
| FlushRecommendMatrix.

(** The filesystem as the service uses it: which directories exist and
    which regular files they hold. *)
Record FS := {
  directories : gset string;
  regularFiles : gset Path
}.

(** Configuration, parser, filesystem behaviour and collaborator answers. *)
Record Env := {
  userSCDPath : string;
  orderSCDPath : string;
  freqItemSetEnable_ : bool;
  getUserProperty : string → bool;
  (* ScdParser *)
  checkSCDFormat : string → bool;
  compareSCD : string → string → bool;
  checkSCDType : Path → SCD_TYPE;
  load : Path → option (list SCDDoc);
  (* boost::lexical_cast and boost::filesystem *)
  castInt : string → option Z;
  castDouble : string → bool;
  renameThrows : Path → bool;
  copyFromOk : bool;
  (* collaborators *)
  strIdToItemId : string → option itemid_t;
  addUser_answer : list Call → User → bool;
  updateUser_answer : list Call → User → bool;
  removeUser_answer : list Call → string → bool;
  addPurchaseItem_answer :
    list Call → string → list itemid_t → RecommendMatrix → bool;
  counterGet_answer : list Call → string → option PurchaseCounter;
  counterUpdate_answer : list Call → string → PurchaseCounter → bool;
  needRebuildPurchaseSimMatrix : list Call → bool
}.

(** The state the service works on.  [saveOrderLog] is a ghost record of
    the arguments of every [saveOrder_] call; nothing reads it. *)
Record World := {
  calls : list Call;
  saveOrderLog : list (string * string * OrderItemVec);
  fs : FS;
  rotator : DirectoryRotator;
  buildCollectionMutex_ : bool
}.

Definition call (c : Call) (w : World) : World :=
  {| calls := calls w ++ [c]; saveOrderLog := saveOrderLog w; fs := fs w;
     rotator := rotator w; buildCollectionMutex_ := buildCollectionMutex_ w |}.

Definition noteSaveOrder (e : string * string * OrderItemVec) (w : World) : World :=
  {| calls := calls w; saveOrderLog := saveOrderLog w ++ [e]; fs := fs w;
     rotator := rotator w; buildCollectionMutex_ := buildCollectionMutex_ w |}.

Definition withFs (f : FS) (w : World) : World :=
  {| calls := calls w; saveOrderLog := saveOrderLog w; fs := f;
     rotator := rotator w; buildCollectionMutex_ := buildCollectionMutex_ w |}.

Definition withRotator (r : DirectoryRotator) (w : World) : World :=
  {| calls := calls w; saveOrderLog := saveOrderLog w; fs := fs w;
     rotator := r; buildCollectionMutex_ := buildCollectionMutex_ w |}.

Definition withMutex (locked : bool) (w : World) : World :=
  {| calls := calls w; saveOrderLog := saveOrderLog w; fs := fs w;
     rotator := rotator w; buildCollectionMutex_ := locked |}.

Definition emptyString (s : string) : bool := String.eqb s "".

Section Service.
Variable E : Env.

(** *** Order saving *)

(** [convertOrderItemVec_]: the first item string that does not resolve
    makes the conversion fail. *)
Fixpoint convertOrderItemVec_ (orderItemVec : OrderItemVec) : option (list itemid_t) :=
  match orderItemVec with
  | [] => Some []
  | it :: rest =>
      match strIdToItemId E (itemIdStr_ it) with
      | None => None
      | Some itemId =>
          match convertOrderItemVec_ rest with
          | None => None
          | Some ids => Some (itemId :: ids)
          end
      end
  end.

(** [insertPurchaseCounter_]: the loop over index [i], as a walk over the
    two vectors side by side; [result] is the flag of the source. *)
Fixpoint insertPurchaseCounter_loop
    (orderItemVec : OrderItemVec) (itemIdVec : list itemid_t)
    (result : bool) (w : World) : bool * World :=
  match orderItemVec, itemIdVec with
  | it :: items, itemId :: ids =>
      let query := query_ it in
      if emptyString query
      then insertPurchaseCounter_loop items ids result w
      else
        match counterGet_answer E (calls w) query with
        | None =>
            insertPurchaseCounter_loop items ids false
              (call (CounterGet query false) w)
        | Some purchaseCounter =>
            let w1 := call (CounterGet query true) w in
            let pc := click purchaseCounter itemId in
            let ok := counterUpdate_answer E (calls w1) query pc in
            insertPurchaseCounter_loop items ids (result && ok)
              (call (CounterUpdate query pc ok) w1)
        end
  | _, _ => (result, w)
  end.

Definition insertPurchaseCounter_
    (orderItemVec : OrderItemVec) (itemIdVec : list itemid_t) (w : World)
  : bool * World :=
  insertPurchaseCounter_loop orderItemVec itemIdVec true w.

(** [saveOrder_] (lines 658-687). *)
Definition saveOrder_
    (userIdStr orderIdStr : string) (orderItemVec : OrderItemVec)
    (matrix : RecommendMatrix) (w : World) : bool * World :=
  let w := noteSaveOrder (userIdStr, orderIdStr, orderItemVec) w in
  match orderItemVec with
  | [] => (false, w)
  | _ :: _ =>
      match convertOrderItemVec_ orderItemVec with
      | None => (false, w)
      | Some itemIdVec =>
          let w1 := call (AddOrder itemIdVec) w in
          let okP := addPurchaseItem_answer E (calls w1) userIdStr itemIdVec matrix in
          let w2 := call (AddPurchaseItem userIdStr itemIdVec matrix okP) w1 in
          if okP
          then insertPurchaseCounter_ orderItemVec itemIdVec w2
          else (false, w2)
      end
  end.

(** *** Staging of orders: the [OrderMap] *)

Abbreviation OrderKey := (string * string)%type (only parsing).

(** [std::map<OrderKey, OrderItemVec>] iterates in ascending key order:
    pairs compare lexicographically, strings byte-wise. *)
Definition orderKey_leb (a b : OrderKey) : bool :=
  match String.compare a.1 b.1 with
  | Lt => true
  | Eq => String.leb a.2 b.2
  | Gt => false
  end.

Definition inKeyOrder (orderMap : gmap OrderKey OrderItemVec)
  : list (OrderKey * OrderItemVec) :=
  merge_sort (λ x y, orderKey_leb x.1 y.1) (map_to_list orderMap).

(** [saveOrderMap_] (lines 650-656). *)
Definition saveOrderMap_ (orderMap : gmap OrderKey OrderItemVec) (w : World) : World :=
  foldl (λ w e, (saveOrder_ e.1.1 e.1.2 e.2 purchaseCoVisitMatrix_ w).2)
        w (inKeyOrder orderMap).

(** [loadOrderItem_] (lines 614-648), on the pair of the world and the
    [orderMap] passed by reference. *)
Definition loadOrderItem_
    (userIdStr orderIdStr : string) (orderItem : OrderItem)
    (st : World * gmap OrderKey OrderItemVec) : World * gmap OrderKey OrderItemVec :=
  let '(w, orderMap) := st in
  if emptyString orderIdStr
  then ((saveOrder_ userIdStr orderIdStr [orderItem] purchaseCoVisitMatrix_ w).2,
        orderMap)
  else
    let orderKey := (userIdStr, orderIdStr) in
    match orderMap !! orderKey with
    | Some items => (w, <[orderKey := items ++ [orderItem]]> orderMap)
    | None =>
        if MAX_ORDER_NUM <=? size orderMap
        then (saveOrderMap_ orderMap w, <[orderKey := [orderItem]]> ∅)
        else (w, <[orderKey := [orderItem]]> orderMap)
    end.

(** *** Reading order and user records *)

Definition docMapOf (doc : SCDDoc) : gmap string string :=
  foldl (λ m kv, <[kv.1 := kv.2]> m) ∅ doc.

(** [docMap[key]]: a key that is absent reads as the empty string. *)
Definition docMapAt (docMap : gmap string string) (key : string) : string :=
  default "" (docMap !! key).

(** RecommendTaskService.h is not among the sources: a default-constructed
    [OrderItem] is taken to hold empty strings and zero for both numbers. *)
Definition OrderItem_default : OrderItem :=
  {| itemIdStr_ := ""; quantity_ := 0%Z; price_ := "0"; dateStr_ := ""; query_ := "" |}.

(** [doc2Order] (lines 189-245): [None] is [return false]. *)
Definition doc2Order (doc : SCDDoc) : option (string * string * OrderItem) :=
  let docMap := docMapOf doc in
  let userIdStr := docMapAt docMap PROP_USERID in
  if emptyString userIdStr then None
  else
    let itemIdStr := docMapAt docMap PROP_ITEMID in
    if emptyString itemIdStr then None
    else
      let quantityStr := docMapAt docMap PROP_QUANTITY in
      let priceStr := docMapAt docMap PROP_PRICE in
      Some (userIdStr, docMapAt docMap PROP_ORDERID,
            {| itemIdStr_ := itemIdStr;
               quantity_ :=
                 if emptyString quantityStr then quantity_ OrderItem_default
                 else default (quantity_ OrderItem_default) (castInt E quantityStr);
               price_ :=
                 if emptyString priceStr then price_ OrderItem_default
                 else if castDouble E priceStr then priceStr
                      else price_ OrderItem_default;
               dateStr_ := docMapAt docMap PROP_DATE;
               query_ := query_ OrderItem_default |}).

(** One turn of the record loop of [parseOrderSCD_]. *)
Definition orderRecord (st : World * gmap OrderKey OrderItemVec) (doc : SCDDoc)
  : World * gmap OrderKey OrderItemVec :=
  match doc2Order doc with
  | None => st
  | Some (userIdStr, orderIdStr, orderItem) =>
      loadOrderItem_ userIdStr orderIdStr orderItem st
  end.

(** [parseOrderSCD_] (lines 555-612). *)
Definition parseOrderSCD_ (scdPath : Path) (w : World) : bool * World :=
  match load E scdPath with
  | None => (false, w)
  | Some docs =>
      match checkSCDType E scdPath with
      | INSERT_SCD =>
          let st := foldl orderRecord (w, ∅) docs in
          (true, saveOrderMap_ st.2 st.1)
      | _ => (false, w)
      end
  end.

Fixpoint doc2User_loop (doc : SCDDoc) (user : User) : option User :=
  match doc with
  | [] => Some user
  | (propName, propValueU) :: rest =>
      if String.eqb propName PROP_USERID
      then doc2User_loop rest
             {| idStr_ := propValueU; propValueMap_ := propValueMap_ user |}
      else if getUserProperty E propName
      then doc2User_loop rest
             {| idStr_ := idStr_ user;
                propValueMap_ := <[propName := propValueU]> (propValueMap_ user) |}
      else None
  end.

(** [doc2User] (lines 154-187). *)
Definition doc2User (doc : SCDDoc) : option User :=
  match doc2User_loop doc {| idStr_ := ""; propValueMap_ := ∅ |} with
  | Some user => if emptyString (idStr_ user) then None else Some user
  | None => None
  end.

Definition addUser (user : User) (w : World) : bool * World :=
  let ok := addUser_answer E (calls w) user in (ok, call (AddUser user ok) w).
Definition updateUser (user : User) (w : World) : bool * World :=
  let ok := updateUser_answer E (calls w) user in (ok, call (UpdateUser user ok) w).
Definition removeUser (userIdStr : string) (w : World) : bool * World :=
  let ok := removeUser_answer E (calls w) userIdStr in
  (ok, call (RemoveUser userIdStr ok) w).

Definition userRecord (scdType : SCD_TYPE) (w : World) (doc : SCDDoc) : World :=
  match doc2User doc with
  | None => w
  | Some user =>
      match scdType with
      | INSERT_SCD => (addUser user w).2
      | UPDATE_SCD => (updateUser user w).2
      | DELETE_SCD => (removeUser (idStr_ user) w).2
      | NOT_SCD => w
      end
  end.

(** [parseUserSCD_] (lines 450-522). *)
Definition parseUserSCD_ (scdPath : Path) (w : World) : bool * World :=
  match load E scdPath with
  | None => (false, w)
  | Some docs =>
      match checkSCDType E scdPath with
      | NOT_SCD => (false, w)
      | scdType => (true, foldl (userRecord scdType) w docs)
      end
  end.

(** *** Scanning and backing up bundle files *)

(** [bfs::is_directory]; the call throwing is caught by [scanSCDFiles] and
    answered like [false]. *)
Definition is_directory (f : FS) (d : string) : bool :=
  bool_decide (d ∈ directories f).

(** [scanSCDFiles] (lines 56-101): [None] is [return false]; the files
    found are appended to a list the callers pass empty. *)
Definition scanSCDFiles (scdDir : string) (f : FS) : option (list Path) :=
  if is_directory f scdDir
  then Some (merge_sort (λ a b, compareSCD E (pathString a) (pathString b))
               (elements (filter (λ p : Path, p.1 = scdDir ∧ checkSCDFormat E p.2)
                                 (regularFiles f))))
  else None.

Definition create_directory (d : string) (f : FS) : FS :=
  {| directories := {[d]} ∪ directories f; regularFiles := regularFiles f |}.

(** [bfs::rename]: [None] is a thrown [filesystem_error]. *)
Definition rename (src dst : Path) (f : FS) : option FS :=
  if renameThrows E src || negb (bool_decide (src ∈ regularFiles f))
  then None
  else Some {| directories := directories f;
               regularFiles := {[dst]} ∪ (regularFiles f ∖ {[src]}) |}.

Definition bkDirOf (scdDir : string) : string := scdDir ++ "/" ++ SCD_BACKUP_DIR.

(** [backupSCDFiles] (lines 103-121). *)
Definition backupSCDFiles (scdDir : string) (scdList : list Path) (f : FS) : FS :=
  let bkDir := bkDirOf scdDir in
  foldl (λ f scd, default f (rename scd (bkDir, scd.2) f))
        (create_directory bkDir f) scdList.

(** *** Bulk build and cron *)

(** [buildFreqItemSet_] (lines 742-752). *)
Definition buildFreqItemSet_ (w : World) : World :=
  if freqItemSetEnable_ E then call BuildFreqItemsets w else w.

(** [loadUserSCD_] (lines 426-448). *)
Definition loadUserSCD_ (w : World) : bool * World :=
  let scdDir := userSCDPath E in
  match scanSCDFiles scdDir (fs w) with
  | None => (false, w)
  | Some [] => (true, w)
  | Some scdList =>
      let w := foldl (λ w scd, (parseUserSCD_ scd w).2) w scdList in
      let w := call (Flush userManager_) w in
      (true, withFs (backupSCDFiles scdDir scdList (fs w)) w)
  end.

(** [loadOrderSCD_] (lines 524-553). *)
Definition loadOrderSCD_ (w : World) : bool * World :=
  let scdDir := orderSCDPath E in
  match scanSCDFiles scdDir (fs w) with
  | None => (false, w)
  | Some [] => (true, w)
  | Some scdList =>
      let w := foldl (λ w scd, (parseOrderSCD_ scd w).2) w scdList in
      let w := call (Flush orderManager_) w in
      let w := call (Flush purchaseManager_) w in
      let w := buildFreqItemSet_ w in
      let w := call BuildPurchaseSimMatrix w in
      let w := call FlushRecommendMatrix w in
      (true, withFs (backupSCDFiles scdDir scdList (fs w)) w)
  end.

(** [flush_] (lines 772-794). *)
Definition flush_ (w : World) : World :=
  let w := call (Flush userManager_) w in
  let w := call (Flush visitManager_) w in
  let w := call (Flush purchaseManager_) w in
  let w := call (Flush cartManager_) w in
  let w := call (Flush orderManager_) w in
  let w := call (Flush eventManager_) w in
  let w := call (Flush rateManager_) w in
  let w := call (Flush queryPurchaseCounter_) w in
  let w := if needRebuildPurchaseSimMatrix E (calls w)
           then call BuildPurchaseSimMatrix w else w in
  call FlushRecommendMatrix w.

(** [cronJob_] (lines 754-770).  [matches_now] is the answer of
    [cronExpression_.matches_now()]; [scoped_try_lock] owns the lock exactly
    when the mutex was free, and gives it back when the scope is left. *)
Definition cronJob_ (matches_now : bool) (w : World) : World :=
  if matches_now
  then
    if buildCollectionMutex_ w
    then w
    else withMutex false (buildFreqItemSet_ (flush_ (withMutex true w)))
  else w.

(** Modelled from the spec: [DirectoryGuard] (directory-manager is not
    among the sources).  A guard acquired on [current] fails immediately if
    the directory is marked dirty; on drop it releases without altering
    validity. *)
Definition dirGuard (d : Directory) : bool := valid d.

(** [buildCollection] (lines 396-424).  [None]: the caller waits in
    [scoped_lock] because a cron tick holds the mutex. *)
Definition buildCollection (w : World) : option (bool * World) :=
  let b := backupDataFiles (copyFromOk E) (rotator w) in
  let w := withRotator (rotator_after b) w in
  if negb (result b) then Some (false, w)
  else if negb (dirGuard (currentDirectory (rotator w))) then Some (false, w)
  else if buildCollectionMutex_ w then None
  else
    let w := withMutex true w in
    let '(okUser, w) := loadUserSCD_ w in
    if okUser
    then let '(okOrder, w) := loadOrderSCD_ w in Some (okOrder, withMutex false w)
    else Some (false, withMutex false w).

(** *** Facts about order saving *)

(** The outcome recorded with a call; calls without an answer count as
    done. *)
Definition callOk (c : Call) : bool :=
  match c with
  | AddUser _ ok | UpdateUser _ ok | RemoveUser _ ok => ok
  | AddPurchaseItem _ _ _ ok => ok
  | CounterGet _ found => found
  | CounterUpdate _ _ ok => ok
  | _ => true
  end.

(** The queries under which the counter store was approached. *)
Definition counterQueries (cs : list Call) : list string :=
  omap (λ c, match c with CounterGet q _ => Some q | _ => None end) cs.

Definition queriesOf (orderItemVec : OrderItemVec) : list string :=
  filter (λ q, emptyString q = false) (map query_ orderItemVec).

Lemma convertOrderItemVec_length items ids :
  convertOrderItemVec_ items = Some ids → length ids = length items.
Proof.
  revert ids. induction items as [|it items IH]; intros ids; simpl.
  - by intros [= <-].
  - destruct (strIdToItemId E (itemIdStr_ it)); [|done].
    destruct (convertOrderItemVec_ items) as [ids'|]; [|done].
    intros [= <-]. simpl. f_equal. by apply IH.
Qed.

Lemma insertPurchaseCounter_loop_calls items : ∀ ids result w,
  length ids = length items →
  ∃ cs,
    calls (insertPurchaseCounter_loop items ids result w).2 = calls w ++ cs
    ∧ (insertPurchaseCounter_loop items ids result w).1
      = result && forallb callOk cs
    ∧ counterQueries cs = queriesOf items
    ∧ Forall (λ c, match c with
                   | CounterGet _ _ | CounterUpdate _ _ _ => True
                   | _ => False
                   end) cs.
Proof.
  induction items as [|it items IH]; intros ids result w Hlen.
  - destruct ids; [|done]. exists []. simpl.
    rewrite app_nil_r, andb_true_r. done.
  - destruct ids as [|itemId ids]; [done|]. injection Hlen as Hlen.
    unfold queriesOf. simpl. rewrite filter_cons.
    destruct (emptyString (query_ it)) eqn:Hq.
    + rewrite decide_False by done. by apply IH.
    + rewrite decide_True by done.
      destruct (counterGet_answer E (calls w) (query_ it)) as [pc|].
      * match goal with
        | |- context [insertPurchaseCounter_loop items ids ?r ?w'] =>
            destruct (IH ids r w' Hlen) as (cs & Hc & Hr & Hqs & Hall)
        end.
        eexists (CounterGet (query_ it) true :: CounterUpdate _ _ _ :: cs).
        split; [|split; [|split]].
        -- rewrite Hc. simpl. by rewrite <- !app_assoc.
        -- rewrite Hr. simpl. by rewrite andb_assoc.
        -- simpl. by f_equal.
        -- by repeat constructor.
      * match goal with
        | |- context [insertPurchaseCounter_loop items ids ?r ?w'] =>
            destruct (IH ids r w' Hlen) as (cs & Hc & Hr & Hqs & Hall)
        end.
        exists (CounterGet (query_ it) false :: cs).
        split; [|split; [|split]].
        -- rewrite Hc. simpl. by rewrite <- app_assoc.
        -- rewrite Hr. simpl. by rewrite andb_false_r.
        -- simpl. by f_equal.
        -- by repeat constructor.
Qed.

Lemma insertPurchaseCounter_loop_frame items : ∀ ids result w,
  let w' := (insertPurchaseCounter_loop items ids result w).2 in
  saveOrderLog w' = saveOrderLog w ∧ fs w' = fs w ∧ rotator w' = rotator w
  ∧ buildCollectionMutex_ w' = buildCollectionMutex_ w.
Proof.
  induction items as [|it items IH]; intros ids result w; simpl; [done|].
  destruct ids as [|itemId ids]; [done|].
  destruct (emptyString (query_ it)); [apply IH|].
  destruct (counterGet_answer E (calls w) (query_ it)) as [pc|].
  - edestruct IH as (-> & -> & -> & ->). done.
  - edestruct IH as (-> & -> & -> & ->). done.
Qed.

Lemma saveOrder_frame u o items m w :
  let w' := (saveOrder_ u o items m w).2 in
  saveOrderLog w' = saveOrderLog w ++ [(u, o, items)]
  ∧ fs w' = fs w ∧ rotator w' = rotator w
  ∧ buildCollectionMutex_ w' = buildCollectionMutex_ w.
Proof.
  unfold saveOrder_. destruct items as [|it items]; [done|].
  destruct (convertOrderItemVec_ (it :: items)) as [ids|]; [|done].
  destruct (addPurchaseItem_answer E _ u ids m); [|done].
  unfold insertPurchaseCounter_.
  edestruct insertPurchaseCounter_loop_frame as (H1 & H2 & H3 & H4).
  cbv zeta. rewrite H1, H2, H3, H4. done.
Qed.

(** What the counter store is asked for the order-items [items] with the
    item-ids [ids], after the calls [h]: nothing for an item without a
    query; for an item with a query, [get] under that query and, when a
    counter was found, [update] under the same query with that counter
    clicked with the item-id of the item.  The walk goes on after a [get]
    that found nothing and after an [update] that was refused. *)
Inductive counterTrail
  : list Call → OrderItemVec → list itemid_t → list Call → Prop :=
| trail_done h : counterTrail h [] [] []
| trail_no_query h it items itemId ids cs :
    emptyString (query_ it) = true →
    counterTrail h items ids cs →
    counterTrail h (it :: items) (itemId :: ids) cs
| trail_not_found h it items itemId ids cs :
    emptyString (query_ it) = false →
    counterGet_answer E h (query_ it) = None →
    counterTrail (h ++ [CounterGet (query_ it) false]) items ids cs →
    counterTrail h (it :: items) (itemId :: ids)
      (CounterGet (query_ it) false :: cs)
| trail_click h it items itemId ids cs purchaseCounter ok :
    emptyString (query_ it) = false →
    counterGet_answer E h (query_ it) = Some purchaseCounter →
    ok = counterUpdate_answer E (h ++ [CounterGet (query_ it) true]) (query_ it)
           (click purchaseCounter itemId) →
    counterTrail
      (h ++ [CounterGet (query_ it) true;
             CounterUpdate (query_ it) (click purchaseCounter itemId) ok])
      items ids cs →
    counterTrail h (it :: items) (itemId :: ids)
      (CounterGet (query_ it) true
       :: CounterUpdate (query_ it) (click purchaseCounter itemId) ok :: cs).

Lemma insertPurchaseCounter_loop_trail items : ∀ ids result w,
  length ids = length items →
  ∃ cs,
    calls (insertPurchaseCounter_loop items ids result w).2 = calls w ++ cs
    ∧ counterTrail (calls w) items ids cs.
Proof.
  induction items as [|it items IH]; intros ids result w Hlen.
  - destruct ids; [|done]. exists []. simpl. rewrite app_nil_r.
    split; [done|constructor].
  - destruct ids as [|itemId ids]; [done|]. injection Hlen as Hlen. simpl.
    destruct (emptyString (query_ it)) eqn:Hq.
    + destruct (IH ids result w Hlen) as (cs & Hc & Ht).
      exists cs. split; [done|]. by apply trail_no_query.
    + destruct (counterGet_answer E (calls w) (query_ it)) as [pc|] eqn:Hget.
      * match goal with
        | |- context [insertPurchaseCounter_loop items ids ?r ?w'] =>
            destruct (IH ids r w' Hlen) as (cs & Hc & Ht)
        end.
        eexists (CounterGet (query_ it) true :: CounterUpdate _ _ _ :: cs).
        split.
        -- rewrite Hc. simpl. by rewrite <- !app_assoc.
        -- apply (trail_click _ _ _ _ _ _ pc); [done..|].
           simpl in Ht. by rewrite <- app_assoc in Ht.
      * match goal with
        | |- context [insertPurchaseCounter_loop items ids ?r ?w'] =>
            destruct (IH ids r w' Hlen) as (cs & Hc & Ht)
        end.
        exists (CounterGet (query_ it) false :: cs). split.
        -- rewrite Hc. simpl. by rewrite <- app_assoc.
        -- by apply trail_not_found.
Qed.

(** C5 (amended): for a non-empty order whose item strings all resolve,
    [saveOrder_] always writes the order store and then the purchase store;
    the query-purchase counter is written only when the purchase store
    accepted (the [&&] of the source does not evaluate its right side
    otherwise), and then for every order-item with a non-empty query, in
    the order of the items: the counter is read under the query and, when
    it was found, clicked with the item-id of that item and written back
    under the same query, going on after a failed read or write; the result
    is the AND of the purchase outcome and, when they were made, of the
    counter outcomes.  The order store reports no outcome. *)
Theorem saveOrder_writes
    (u o : string) (items : OrderItemVec) (m : RecommendMatrix) (w : World)
    (ids : list itemid_t) :
  items ≠ [] →
  convertOrderItemVec_ items = Some ids →
  let r := saveOrder_ u o items m w in
  let okP := addPurchaseItem_answer E (calls w ++ [AddOrder ids]) u ids m in
  ∃ counterCalls,
    calls r.2 = calls w ++ [AddOrder ids; AddPurchaseItem u ids m okP] ++ counterCalls
    ∧ r.1 = okP && forallb callOk counterCalls
    ∧ (okP = true → counterQueries counterCalls = queriesOf items)
    ∧ (okP = true →
       counterTrail (calls w ++ [AddOrder ids; AddPurchaseItem u ids m true])
         items ids counterCalls)
    ∧ (okP = false → counterCalls = []).
Proof.
  intros Hne Hconv. unfold saveOrder_.
  destruct items as [|it items]; [done|]. rewrite Hconv. simpl calls.
  destruct (addPurchaseItem_answer E (calls w ++ [AddOrder ids]) u ids m) eqn:HokP.
  - unfold insertPurchaseCounter_.
    edestruct (insertPurchaseCounter_loop_calls (it :: items) ids true)
      as (cs & Hc & Hr & Hqs & _).
    { by apply convertOrderItemVec_length. }
    edestruct (insertPurchaseCounter_loop_trail (it :: items) ids true)
      as (cs' & Hc' & Htrail).
    { by apply convertOrderItemVec_length. }
    rewrite Hc in Hc'. apply app_inv_head in Hc'. subst cs'.
    exists cs. cbv zeta. rewrite Hc, Hr. simpl.
    split; [by rewrite <- !app_assoc|]. split; [done|]. split; [done|].
    split; [|done]. intros _. simpl in Htrail.
    by rewrite <- app_assoc in Htrail.
  - exists []. simpl. split; [by rewrite <- !app_assoc|]. done.
Qed.

(** *** Facts about the [OrderMap] *)

Definition asSaved (e : OrderKey * OrderItemVec) : string * string * OrderItemVec :=
  (e.1.1, e.1.2, e.2).





Lemma inKeyOrder_elem (orderMap : gmap OrderKey OrderItemVec) k v :
  (k, v) ∈ inKeyOrder orderMap ↔ orderMap !! k = Some v.
Proof.
  unfold inKeyOrder. rewrite merge_sort_Permutation. apply elem_of_map_to_list.
Qed.

Lemma saveOrderMap_frame orderMap w :
  let w' := saveOrderMap_ orderMap w in
  saveOrderLog w' = saveOrderLog w ++ map asSaved (inKeyOrder orderMap)
  ∧ fs w' = fs w ∧ rotator w' = rotator w
  ∧ buildCollectionMutex_ w' = buildCollectionMutex_ w.
Proof.
  unfold saveOrderMap_. generalize (inKeyOrder orderMap) as l.
  intros l. revert w. induction l as [|e l IH]; intros w; simpl.
  - by rewrite app_nil_r.
  - destruct (IH (saveOrder_ e.1.1 e.1.2 e.2 purchaseCoVisitMatrix_ w).2)
      as (-> & -> & -> & ->).
    destruct (saveOrder_frame e.1.1 e.1.2 e.2 purchaseCoVisitMatrix_ w)
      as (-> & -> & -> & ->).
    by rewrite <- app_assoc.
Qed.








(** *** Facts about the bulk build *)

(** [w'] differs from [w] in the call records only. *)
Definition storesOnly (w w' : World) : Prop :=
  fs w' = fs w ∧ rotator w' = rotator w
  ∧ buildCollectionMutex_ w' = buildCollectionMutex_ w.

Lemma storesOnly_refl w : storesOnly w w.
Proof. done. Qed.

Lemma storesOnly_trans w1 w2 w3 :
  storesOnly w1 w2 → storesOnly w2 w3 → storesOnly w1 w3.
Proof. unfold storesOnly. intros (?&?&?) (?&?&?). repeat split; congruence. Qed.

Lemma storesOnly_call c w : storesOnly w (call c w).
Proof. done. Qed.

Lemma storesOnly_foldl {A} (f : World → A → World) (l : list A) :
  (∀ w a, storesOnly w (f w a)) → ∀ w, storesOnly w (foldl f w l).
Proof.
  intros Hf. induction l as [|a l IH]; intros w; simpl; [done|].
  eapply storesOnly_trans; [apply Hf|apply IH].
Qed.

Lemma storesOnly_saveOrder u o items m w : storesOnly w (saveOrder_ u o items m w).2.
Proof. by destruct (saveOrder_frame u o items m w) as (_ & ? & ? & ?). Qed.

Lemma storesOnly_saveOrderMap orderMap w : storesOnly w (saveOrderMap_ orderMap w).
Proof. by destruct (saveOrderMap_frame orderMap w) as (_ & ? & ? & ?). Qed.

Lemma storesOnly_orderRecord st doc : storesOnly st.1 (orderRecord st doc).1.
Proof.
  destruct st as [w m]. unfold orderRecord.
  destruct (doc2Order doc) as [[[u o] item]|]; [|done].
  unfold loadOrderItem_. destruct (emptyString o); [apply storesOnly_saveOrder|].
  destruct (m !! (u, o)); [done|].
  destruct (MAX_ORDER_NUM <=? size m); [apply storesOnly_saveOrderMap|done].
Qed.

Lemma storesOnly_orderLoop docs : ∀ st, storesOnly st.1 (foldl orderRecord st docs).1.
Proof.
  induction docs as [|doc docs IH]; intros st; simpl; [done|].
  eapply storesOnly_trans; [apply storesOnly_orderRecord|apply IH].
Qed.

Lemma storesOnly_parseOrderSCD scdPath w : storesOnly w (parseOrderSCD_ scdPath w).2.
Proof.
  unfold parseOrderSCD_. destruct (load E scdPath) as [docs|]; [|done].
  destruct (checkSCDType E scdPath); try done. simpl.
  eapply storesOnly_trans; [|apply storesOnly_saveOrderMap].
  apply (storesOnly_orderLoop docs (w, ∅)).
Qed.

Lemma storesOnly_parseUserSCD scdPath w : storesOnly w (parseUserSCD_ scdPath w).2.
Proof.
  unfold parseUserSCD_. destruct (load E scdPath) as [docs|]; [|done].
  assert (∀ t, storesOnly w (foldl (userRecord t) w docs)) as H.
  { intros t. apply storesOnly_foldl. intros w' doc. unfold userRecord.
    destruct (doc2User doc); [|done]. by destruct t. }
  destruct (checkSCDType E scdPath); [done|apply H..].
Qed.

Lemma storesOnly_buildFreqItemSet w : storesOnly w (buildFreqItemSet_ w).
Proof. unfold buildFreqItemSet_. by destruct (freqItemSetEnable_ E). Qed.

Lemma string_length_app (a b : string) :
  String.length (a ++ b) = String.length a + String.length b.
Proof. induction a as [|c a IH]; simpl; [done|]. by rewrite IH. Qed.

Lemma bkDirOf_ne scdDir : bkDirOf scdDir ≠ scdDir.
Proof.
  unfold bkDirOf. intros H. apply (f_equal String.length) in H.
  rewrite !string_length_app in H. simpl in H. lia.
Qed.

Lemma scanSCDFiles_spec scdDir f scdList :
  scanSCDFiles scdDir f = Some scdList →
  NoDup scdList
  ∧ ∀ p, p ∈ scdList ↔
         p ∈ regularFiles f ∧ p.1 = scdDir ∧ checkSCDFormat E p.2 = true.
Proof.
  unfold scanSCDFiles. destruct (is_directory f scdDir); [|done].
  intros [= <-]. split.
  - rewrite merge_sort_Permutation. apply NoDup_elements.
  - intros p. rewrite merge_sort_Permutation, elem_of_elements, elem_of_filter.
    rewrite Is_true_true. tauto.
Qed.

(** One turn of the loop of [backupSCDFiles]. *)
Definition moveToBackup (scdDir : string) (f : FS) (scd : Path) : FS :=
  default f (rename scd (bkDirOf scdDir, scd.2) f).

Lemma moveToBackup_elem scdDir f scd x :
  x ∈ regularFiles (moveToBackup scdDir f scd) →
  x ∈ regularFiles f ∨ x.1 = bkDirOf scdDir.
Proof.
  unfold moveToBackup, rename.
  destruct (renameThrows E scd || negb (bool_decide (scd ∈ regularFiles f)));
    simpl; [auto|].
  rewrite elem_of_union, elem_of_singleton, elem_of_difference.
  intros [->|[? _]]; auto.
Qed.

Lemma moveToBackup_other scdDir f scd x :
  x ≠ scd → x ∈ regularFiles f → x ∈ regularFiles (moveToBackup scdDir f scd).
Proof.
  intros Hne Hx. unfold moveToBackup, rename.
  destruct (renameThrows E scd || negb (bool_decide (scd ∈ regularFiles f)));
    simpl; [done|].
  apply elem_of_union. right. apply elem_of_difference. split; [done|].
  by rewrite elem_of_singleton.
Qed.

Lemma backupLoop_gone scdDir scdList : ∀ f p,
  p.1 = scdDir → p ∉ regularFiles f →
  p ∉ regularFiles (foldl (moveToBackup scdDir) f scdList).
Proof.
  induction scdList as [|scd l IH]; intros f p Hdir Hp; simpl; [done|].
  apply IH; [done|]. intros Hin.
  apply moveToBackup_elem in Hin as [Hin|Hin]; [done|].
  apply (bkDirOf_ne scdDir). congruence.
Qed.

Lemma backupLoop_stays scdDir scdList : ∀ f x,
  x ∉ scdList → x ∈ regularFiles f →
  x ∈ regularFiles (foldl (moveToBackup scdDir) f scdList).
Proof.
  induction scdList as [|scd l IH]; intros f x Hx Hin; simpl; [done|].
  apply not_elem_of_cons in Hx as [Hne Hx].
  apply IH; [done|]. by apply moveToBackup_other.
Qed.

Lemma backupLoop_moves scdDir scdList : ∀ f p,
  NoDup scdList →
  (∀ q, q ∈ scdList → q ∈ regularFiles f ∧ q.1 = scdDir) →
  p ∈ scdList → renameThrows E p = false →
  (p ∉ regularFiles (foldl (moveToBackup scdDir) f scdList))
  ∧ (bkDirOf scdDir, p.2) ∈ regularFiles (foldl (moveToBackup scdDir) f scdList).
Proof.
  induction scdList as [|scd l IH]; intros f p Hnd Hall Hp Hthrow; simpl.
  { by apply elem_of_nil in Hp. }
  apply NoDup_cons in Hnd as [Hscd Hnd].
  assert (∀ q, q ∈ l → q.1 = scdDir) as Hdirs.
  { intros q Hq. apply Hall. by right. }
  apply elem_of_cons in Hp as [->|Hp].
  - destruct (Hall scd) as [Hin Hdir]; [by left|].
    assert (regularFiles (moveToBackup scdDir f scd)
            = {[(bkDirOf scdDir, scd.2)]} ∪ (regularFiles f ∖ {[scd]})) as Hfs.
    { unfold moveToBackup, rename. rewrite Hthrow.
      by rewrite bool_decide_eq_true_2. }
    split.
    + apply backupLoop_gone; [done|]. rewrite Hfs.
      rewrite elem_of_union, elem_of_singleton, elem_of_difference, elem_of_singleton.
      intros [Heq|[_ ?]]; [|done].
      apply (f_equal fst) in Heq. simpl in Heq. rewrite Hdir in Heq.
      by apply (bkDirOf_ne scdDir).
    + apply backupLoop_stays.
      * intros Hin'. apply (bkDirOf_ne scdDir).
        by apply (Hdirs _ Hin').
      * rewrite Hfs. apply elem_of_union. left. by apply elem_of_singleton.
  - apply IH; [done| |done|done].
    intros q Hq. split; [|by apply Hdirs].
    apply moveToBackup_other; [by intros ->|]. apply Hall. by right.
Qed.

Lemma backupSCDFiles_moves scdDir scdList f p :
  scanSCDFiles scdDir f = Some scdList →
  p ∈ scdList → renameThrows E p = false →
  (p ∉ regularFiles (backupSCDFiles scdDir scdList f))
  ∧ (bkDirOf scdDir, p.2) ∈ regularFiles (backupSCDFiles scdDir scdList f).
Proof.
  intros Hscan Hp Hthrow.
  destruct (scanSCDFiles_spec _ _ _ Hscan) as [Hnd Hel].
  apply (backupLoop_moves scdDir scdList (create_directory (bkDirOf scdDir) f) p);
    [done| |done|done].
  intros q Hq. apply Hel in Hq as (? & ? & _). done.
Qed.

Lemma loadOrderSCD_result w scdList :
  scanSCDFiles (orderSCDPath E) (fs w) = Some scdList →
  (loadOrderSCD_ w).1 = true
  ∧ buildCollectionMutex_ (loadOrderSCD_ w).2 = buildCollectionMutex_ w
  ∧ fs (loadOrderSCD_ w).2
    = match scdList with
      | [] => fs w
      | _ => backupSCDFiles (orderSCDPath E) scdList (fs w)
      end.
Proof.
  intros Hscan. unfold loadOrderSCD_. rewrite Hscan.
  destruct scdList as [|scd l]; [done|].
  set (w1 := foldl (λ w scd, (parseOrderSCD_ scd w).2) w (scd :: l)).
  assert (storesOnly w w1) as (Hfs & _ & Hmx).
  { apply storesOnly_foldl. intros. apply storesOnly_parseOrderSCD. }
  destruct (storesOnly_buildFreqItemSet
              (call (Flush purchaseManager_) (call (Flush orderManager_) w1)))
    as (Hfs' & _ & Hmx').
  simpl. rewrite Hfs', Hmx'. simpl. by rewrite Hfs, Hmx.
Qed.

(** C10: once the order bundle directory has been scanned, [loadOrderSCD_]
    returns [true] whatever happened to the single files (a file that does
    not load and a file whose type is not insert make [parseOrderSCD_]
    return [false], which nobody looks at), and [backupSCDFiles] is run on
    the whole scanned list: every scanned file, the rejected ones too,
    leaves the bundle directory for [backup/] unless its very [rename]
    throws, and is not found by the next scan. *)
Theorem order_file_failures_do_not_fail_build
    (w : World) (scdList : list Path) (p : Path) :
  scanSCDFiles (orderSCDPath E) (fs w) = Some scdList →
  p ∈ scdList →
  renameThrows E p = false →
  let r := loadOrderSCD_ w in
  r.1 = true
  ∧ fs r.2 = backupSCDFiles (orderSCDPath E) scdList (fs w)
  ∧ (p ∉ regularFiles (fs r.2))
  ∧ (bkDirOf (orderSCDPath E), p.2) ∈ regularFiles (fs r.2)
  ∧ (∀ again, scanSCDFiles (orderSCDPath E) (fs r.2) = Some again → p ∉ again).
Proof.
  intros Hscan Hp Hthrow r. subst r.
  destruct (loadOrderSCD_result w scdList Hscan) as (Hres & _ & Hfs).
  assert (fs (loadOrderSCD_ w).2 = backupSCDFiles (orderSCDPath E) scdList (fs w))
    as Hfs'.
  { rewrite Hfs. destruct scdList; [by apply elem_of_nil in Hp|done]. }
  destruct (backupSCDFiles_moves _ _ _ p Hscan Hp Hthrow) as [Hgone Hbk].
  rewrite Hfs'. repeat split; try done.
  intros again Hagain Hin.
  apply (scanSCDFiles_spec _ _ _ Hagain) in Hin as (Hin & _). done.
Qed.

Lemma loadUserSCD_mutex w :
  buildCollectionMutex_ (loadUserSCD_ w).2 = buildCollectionMutex_ w.
Proof.
  unfold loadUserSCD_.
  destruct (scanSCDFiles (userSCDPath E) (fs w)) as [[|scd l]|]; [done| |done].
  cbn [snd withFs call buildCollectionMutex_].
  apply (storesOnly_foldl (λ w scd, (parseUserSCD_ scd w).2)).
  intros. apply storesOnly_parseUserSCD.
Qed.

Lemma loadOrderSCD_mutex w :
  buildCollectionMutex_ (loadOrderSCD_ w).2 = buildCollectionMutex_ w.
Proof.
  destruct (scanSCDFiles (orderSCDPath E) (fs w)) as [scdList|] eqn:Hscan.
  - by destruct (loadOrderSCD_result w scdList Hscan) as (_ & ? & _).
  - unfold loadOrderSCD_. by rewrite Hscan.
Qed.

Lemma loadUserSCD_result w scdList :
  scanSCDFiles (userSCDPath E) (fs w) = Some scdList →
  (loadUserSCD_ w).1 = true
  ∧ fs (loadUserSCD_ w).2
    = match scdList with
      | [] => fs w
      | _ => backupSCDFiles (userSCDPath E) scdList (fs w)
      end.
Proof.
  intros Hscan. unfold loadUserSCD_. rewrite Hscan.
  destruct scdList as [|scd l]; [done|].
  set (w1 := foldl (λ w scd, (parseUserSCD_ scd w).2) w (scd :: l)).
  assert (storesOnly w w1) as (Hfs & _).
  { apply storesOnly_foldl. intros. apply storesOnly_parseUserSCD. }
  simpl. by rewrite Hfs.
Qed.

Lemma is_directory_backupSCDFiles scdDir scdList f d :
  is_directory f d = true → is_directory (backupSCDFiles scdDir scdList f) d = true.
Proof.
  unfold is_directory, backupSCDFiles. rewrite !bool_decide_eq_true.
  intros Hd.
  assert (d ∈ directories (create_directory (bkDirOf scdDir) f)) as H0.
  { simpl. apply elem_of_union. by right. }
  revert H0. generalize (create_directory (bkDirOf scdDir) f).
  induction scdList as [|scd l IH]; intros f0 H0; simpl; [done|].
  apply IH. unfold rename.
  by destruct (renameThrows E scd || negb (bool_decide (scd ∈ regularFiles f0))).
Qed.

(** The bulk build returns [true] once the data backup went through, the
    current directory is not dirty and both bundle directories exist:
    nothing that happens to a single bundle file changes that. *)
Lemma buildCollection_succeeds w :
  result (backupDataFiles (copyFromOk E) (rotator w)) = true →
  dirGuard (currentDirectory (rotator_after
              (backupDataFiles (copyFromOk E) (rotator w)))) = true →
  buildCollectionMutex_ w = false →
  is_directory (fs w) (userSCDPath E) = true →
  is_directory (fs w) (orderSCDPath E) = true →
  ∃ w', buildCollection w = Some (true, w').
Proof.
  intros Hb Hg Hm Hu Ho. unfold buildCollection.
  rewrite Hb. cbn [negb]. cbn [rotator withRotator]. rewrite Hg. cbn [negb].
  cbn [buildCollectionMutex_ withRotator]. rewrite Hm.
  set (w1 := withMutex true (withRotator _ w)).
  assert (fs w1 = fs w) as Hfs1 by done.
  destruct (scanSCDFiles (userSCDPath E) (fs w1)) as [userList|] eqn:HscanU.
  2: { unfold scanSCDFiles in HscanU. by rewrite Hfs1, Hu in HscanU. }
  destruct (loadUserSCD_result w1 userList HscanU) as (HokU & HfsU).
  assert (is_directory (fs (loadUserSCD_ w1).2) (orderSCDPath E) = true) as HdirO.
  { rewrite HfsU. destruct userList; [by rewrite Hfs1|].
    apply is_directory_backupSCDFiles. by rewrite Hfs1. }
  destruct (loadUserSCD_ w1) as [okU w2]. simpl in HokU, HdirO. subst okU.
  assert ((loadOrderSCD_ w2).1 = true) as HokO.
  { unfold loadOrderSCD_, scanSCDFiles. rewrite HdirO.
    by destruct (merge_sort _ _). }
  destruct (loadOrderSCD_ w2) as [okO w3]. simpl in HokO. subst okO.
  by eexists.
Qed.

(** C8: a cron tick that finds [buildCollectionMutex_] held leaves the
    world as it is: no sub-store is flushed and no matrix rebuilt.  The
    mutex stays held through both loads of [buildCollection], so cron ticks
    falling between the order files of a build change nothing of it. *)
Theorem cron_tick_skips_while_building (matches_now : bool) (w : World) :
  buildCollectionMutex_ w = true →
  cronJob_ matches_now w = w
  ∧ buildCollectionMutex_ (loadUserSCD_ w).2 = true
  ∧ buildCollectionMutex_ (loadOrderSCD_ w).2 = true
  ∧ ∀ (ticks : Path → bool) (scdList : list Path),
      foldl (λ w scd, cronJob_ (ticks scd) (parseOrderSCD_ scd w).2) w scdList
      = foldl (λ w scd, (parseOrderSCD_ scd w).2) w scdList.
Proof.
  intros H.
  assert (∀ now w0, buildCollectionMutex_ w0 = true → cronJob_ now w0 = w0) as Htick.
  { intros now w0 H0. unfold cronJob_. rewrite H0. by destruct now. }
  split; [by apply Htick|]. split; [by rewrite loadUserSCD_mutex|].
  split; [by rewrite loadOrderSCD_mutex|].
  intros ticks scdList. revert w H.
  induction scdList as [|scd l IH]; intros w H; simpl; [done|].
  assert (buildCollectionMutex_ (parseOrderSCD_ scd w).2 = true) as H1.
  { destruct (storesOnly_parseOrderSCD scd w) as (_ & _ & ->). done. }
  rewrite (Htick _ _ H1). by apply IH.
Qed.

End Service.

(** *** A concrete service *)

(** The type letter of a bundle file name [B-NN-YYYYMMDDhhmm-ssuuu-T-C.SCD]. *)
Definition typeLetter (p : Path) : SCD_TYPE :=
  match String.get 24 p.2 with
  | Some "I"%char => INSERT_SCD
  | Some "U"%char => UPDATE_SCD
  | Some "D"%char => DELETE_SCD
  | _ => NOT_SCD
  end.

Definition orderInsertFile : Path := ("scd/order", "B-00-201201011200-00000-I-C.SCD").
Definition orderUpdateFile : Path := ("scd/order", "B-00-201201021200-00000-U-C.SCD").
Definition orderBrokenFile : Path := ("scd/order", "B-00-201201031200-00000-I-C.SCD").

Definition orderRecords : list SCDDoc :=
  [ [("USERID", "ann"); ("ITEMID", "book"); ("ORDERID", "o-1")];
    [("USERID", "ann"); ("ITEMID", "pen"); ("ORDERID", "o-1")];
    [("USERID", "bob"); ("ITEMID", "lamp")];
    [("USERID", "bob")] ].

(** [orderBrokenFile] does not load; [orderUpdateFile] loads but has the
    wrong type. *)
Definition demoLoad (p : Path) : option (list SCDDoc) :=
  if String.eqb p.2 orderInsertFile.2 then Some orderRecords
  else if String.eqb p.2 orderUpdateFile.2 then Some orderRecords
  else None.

Definition demoEnv (purchaseOk : bool) : Env :=
  {| userSCDPath := "scd/user";
     orderSCDPath := "scd/order";
     freqItemSetEnable_ := true;
     getUserProperty := λ name, String.eqb name "gender";
     checkSCDFormat := λ name, String.prefix "B-" name;
     compareSCD := String.ltb;
     checkSCDType := typeLetter;
     load := demoLoad;
     castInt := λ _, None;
     castDouble := λ _, false;
     renameThrows := λ _, false;
     copyFromOk := true;
     strIdToItemId := λ str,
       if emptyString str then None else Some (N.of_nat (String.length str));
     addUser_answer := λ _ _, true;
     updateUser_answer := λ _ _, true;
     removeUser_answer := λ _ _, true;
     addPurchaseItem_answer := λ _ _ _ _, purchaseOk;
     counterGet_answer := λ _ _, Some [];
     counterUpdate_answer := λ _ _ _, true;
     needRebuildPurchaseSimMatrix := λ _, false |}.

Definition demoFs : FS :=
  {| directories := {["scd/user"; "scd/order"]};
     regularFiles := {[orderInsertFile; orderUpdateFile; orderBrokenFile]} |}.

Definition world0 : World :=
  {| calls := []; saveOrderLog := []; fs := demoFs;
     rotator := rotatorStale; buildCollectionMutex_ := false |}.

Definition shoes : OrderItem :=
  {| itemIdStr_ := "shoe-42"; quantity_ := 1%Z; price_ := "59.90";
     dateStr_ := "20120101"; query_ := "running shoes" |}.

Example saveOrder_all_well :
  let r := saveOrder_ (demoEnv true) "ann" "o-7" [shoes] purchaseMatrix_ world0 in
  r.1 = true
  ∧ calls r.2 = [ AddOrder [7%N];
                  AddPurchaseItem "ann" [7%N] purchaseMatrix_ true;
                  CounterGet "running shoes" true;
                  CounterUpdate "running shoes" [7%N] true ].
Proof. split; reflexivity. Qed.

Example parse_order_file :
  let r := parseOrderSCD_ (demoEnv true) orderInsertFile world0 in
  r.1 = true
  ∧ saveOrderLog r.2
    = [ ("bob", "", [ {| itemIdStr_ := "lamp"; quantity_ := 0%Z; price_ := "0";
                         dateStr_ := ""; query_ := "" |} ]);
        ("ann", "o-1", [ {| itemIdStr_ := "book"; quantity_ := 0%Z; price_ := "0";
                            dateStr_ := ""; query_ := "" |};
                         {| itemIdStr_ := "pen"; quantity_ := 0%Z; price_ := "0";
                            dateStr_ := ""; query_ := "" |} ]) ].
Proof. split; vm_compute; reflexivity. Qed.

Example parse_rejects_update_file :
  (parseOrderSCD_ (demoEnv true) orderUpdateFile world0).1 = false
  ∧ (parseOrderSCD_ (demoEnv true) orderBrokenFile world0).1 = false.
Proof. split; reflexivity. Qed.

Example scan_order_directory :
  scanSCDFiles (demoEnv true) "scd/order" demoFs
  = Some [orderInsertFile; orderUpdateFile; orderBrokenFile].
Proof. vm_compute. reflexivity. Qed.

(** The counter store was approached under the query. *)
Definition counterApproached (query : string) (cs : list Call) : Prop :=
  ∃ found, CounterGet query found ∈ cs.

(** C5, as stated, fails: when the purchase store refuses the order, the
    counter store is not approached although the order-item carries a query. *)
Lemma refused_purchase_skips_counter :
  let r := saveOrder_ (demoEnv false) "ann" "o-7" [shoes] purchaseMatrix_ world0 in
  convertOrderItemVec_ (demoEnv false) [shoes] = Some [7%N]
  ∧ query_ shoes = "running shoes"
  ∧ r.1 = false
  ∧ calls r.2 = [AddOrder [7%N]; AddPurchaseItem "ann" [7%N] purchaseMatrix_ false]
  ∧ ¬ counterApproached "running shoes" (calls r.2).
Proof.
  repeat split. intros [found H]. simpl in H.
  apply elem_of_cons in H as [H|H]; [discriminate H|].
  apply elem_of_cons in H as [H|H]; [discriminate H|].
  by apply elem_of_nil in H.
Qed.

Lemma saveOrder_writes_witness :
  [shoes] ≠ []
  ∧ convertOrderItemVec_ (demoEnv true) [shoes] = Some [7%N]
  ∧ ∃ counterCalls,
      calls (saveOrder_ (demoEnv true) "ann" "o-7" [shoes] purchaseMatrix_ world0).2
      = calls world0 ++ [AddOrder [7%N]; AddPurchaseItem "ann" [7%N] purchaseMatrix_ true]
        ++ counterCalls.
Proof.
  split; [discriminate|]. split; [reflexivity|].
  destruct (saveOrder_writes (demoEnv true) "ann" "o-7" [shoes] purchaseMatrix_
              world0 [7%N] ltac:(discriminate) eq_refl) as (cs & H & _).
  exists cs. exact H.
Defined.


Lemma order_file_failures_do_not_fail_build_witness :
  scanSCDFiles (demoEnv true) (orderSCDPath (demoEnv true)) (fs world0)
  = Some [orderInsertFile; orderUpdateFile; orderBrokenFile]
  ∧ orderUpdateFile ∈ [orderInsertFile; orderUpdateFile; orderBrokenFile]
  ∧ renameThrows (demoEnv true) orderUpdateFile = false
  ∧ (loadOrderSCD_ (demoEnv true) world0).1 = true
  ∧ (bkDirOf "scd/order", orderUpdateFile.2)
    ∈ regularFiles (fs (loadOrderSCD_ (demoEnv true) world0).2).
Proof.
  assert (scanSCDFiles (demoEnv true) (orderSCDPath (demoEnv true)) (fs world0)
          = Some [orderInsertFile; orderUpdateFile; orderBrokenFile]) as Hscan.
  { vm_compute. reflexivity. }
  assert (orderUpdateFile ∈ [orderInsertFile; orderUpdateFile; orderBrokenFile])
    as Hin.
  { apply list_elem_of_further, list_elem_of_here. }
  split; [exact Hscan|]. split; [exact Hin|]. split; [reflexivity|].
  destruct (order_file_failures_do_not_fail_build (demoEnv true) world0 _
              orderUpdateFile Hscan Hin eq_refl) as (H1 & _ & _ & H4 & _).
  split; [exact H1|exact H4].
Defined.

Lemma cron_tick_skips_while_building_witness :
  buildCollectionMutex_ (withMutex true world0) = true
  ∧ cronJob_ (demoEnv true) true (withMutex true world0) = withMutex true world0.
Proof.
  split; [reflexivity|].
  exact (proj1 (cron_tick_skips_while_building (demoEnv true) true
                  (withMutex true world0) eq_refl)).
Defined.

Example cron_tick_when_free :
  calls (cronJob_ (demoEnv true) true world0)
  = [ Flush userManager_; Flush visitManager_; Flush purchaseManager_;
      Flush cartManager_; Flush orderManager_; Flush eventManager_;
      Flush rateManager_; Flush queryPurchaseCounter_;
      FlushRecommendMatrix; BuildFreqItemsets ].
Proof. reflexivity. Qed.

End Recommend.

(* ===================================================================== *)
(** ** The index worker: document life cycle *)
(* ===================================================================== *)

Module IndexWorker.

Abbreviation docid_t := N (only parsing).
Abbreviation uint128_t := N (only parsing).

(** [izenelib::util::UString]: text, turned into bytes by
    [convertString] under an encoding. *)
Abbreviation UString := string (only parsing).
Abbreviation SCDDoc := (list (string * string)) (only parsing).

Inductive EncodingType := UTF_8 | EUC_KR | GBK | SJIS.

Inductive PropertyDataType :=
| STRING_PROPERTY_TYPE | INT_PROPERTY_TYPE | FLOAT_PROPERTY_TYPE
| NOMINAL_PROPERTY_TYPE | UNKNOWN_DATA_PROPERTY_TYPE.

(** What the worker reads of a [PropertyConfig]. *)
Record PropertyConfig := {
  propertyName_ : string;
  propertyId_ : N;
  propertyType_ : PropertyDataType;
  isIndex : bool;
  isAnalyzed : bool;
  getIsFilter : bool;
  getIsMultiValue : bool;
  getIsStoreDocLen : bool;
  analyzerId_ : string;
  getIsSnippet : bool;
  getIsSummary : bool;
  getSummaryNum : N;
  getDisplayLength : N
}.

(** A [PropertyValue] is a variant; the worker stores texts and lists of
    sentence offsets. *)
Inductive PropertyValue :=
| PV_UString (text : string)
| PV_Offsets (offsets : list (N * N)).

Record Document := {
  getId : docid_t;
  properties : gmap string PropertyValue
}.

Definition setId (id : docid_t) (d : Document) : Document :=
  {| getId := id; properties := properties d |}.
Definition setProperty (name : string) (v : PropertyValue) (d : Document) : Document :=
  {| getId := getId d; properties := <[name := v]> (properties d) |}.
Definition emptyDocument : Document := {| getId := 0%N; properties := ∅ |}.

(** What [prepareIndexDocument_] and [preparePartialDocument_] hand to the
    index besides the two ids: the outcome of tokenization, number parsing
    and multi-value splitting, which the model takes from outside. *)
Abbreviation IndexerProperties := (list (string * string)) (only parsing).

Record IndexerDocument := {
  idoc_getId : docid_t;       (* setId: the docid being replaced *)
  idoc_getDocId : docid_t;    (* setDocId: the docid of the document *)
  idoc_properties : list (string * string)
}.

(** Calls received by the id manager, the document store and the index. *)
Inductive IdCall :=
| IdGetOrCreate (name : uint128_t) (found : bool) (id : docid_t)
| IdUpdate (name : uint128_t) (answer : option (docid_t * docid_t)).

Inductive DmCall :=
| DmInsert (d : Document) (ok : bool)
| DmRemove (id : docid_t) (ok : bool)
| DmUpdatePartial (d : Document) (ok : bool).

Inductive ImCall :=
| ImInsert (d : IndexerDocument)
| ImUpdate (d : IndexerDocument)
| ImUpdateRtype (old new : IndexerDocument)
| ImRemove (collectionId : N) (id : docid_t).

(** [la::MultilangGranularity], as far as the worker tells its levels
    apart. *)
Inductive MultilangGranularity := FIELD_LEVEL | SENTENCE_LEVEL | OTHER_LEVEL.

Record IndexHooker := {
  HookInsert : Document → IndexerDocument → Z → bool;
  HookUpdate : Document → IndexerDocument → Z → bool → bool;
  HookDelete : docid_t → Z → bool
}.

(** Bundle configuration, utilities and collaborator answers. *)
Record Env := {
  (* bundleConfig_ *)
  indexSchema_ : list PropertyConfig;
  encoding_ : EncodingType;
  productSourceField_ : string;
  collectionId_ : N;
  dateProperty_ : PropertyConfig;
  hooker_ : option IndexHooker;
  indexMultilangGranularity_ : MultilangGranularity;
  bIndexUnigramProperty_ : bool;
  propertyAliasMap_ : string → list PropertyConfig;
  (* Document::propertyBegin .. propertyEnd: the order in which the
     properties of a document are visited *)
  propertyOrder : gmap string PropertyValue → list (string * PropertyValue);
  (* laManager_->getTermIdList: the id manager's calls so far, the text, the
     property whose analysis settings are used, the indexing level *)
  getTermIdList : list IdCall → string → PropertyConfig → MultilangGranularity → bool;
  (* Utilities, UString, summarizer_, language analysis *)
  convertString : string → EncodingType → string;
  md5ToUint128 : string → uint128_t;
  createTimeStampInSeconds : string → Z * string;
  isoDateOf : Z → string;
  getOffsetPairs : string → N → N → bool * list (N * N);
  analyze : Z → Document → list (string * string);
  (* what a pass of prepareIndexDocument_ that stopped at a failed forward
     index had inserted until then *)
  analyzeStopped : list IdCall → Z → Document → list (string * string);
  analyzeOld : Document → Document → list (string * string);
  (* IDManager *)
  getDocIdByDocName : list IdCall → uint128_t → option docid_t;
  getDocIdByDocName_insert : list IdCall → uint128_t → bool * docid_t;
  updateDocIdByDocName : list IdCall → uint128_t → option (docid_t * docid_t);
  (* DocumentManager *)
  getDocument : list DmCall → docid_t → option Document;
  getPropertyValue : list DmCall → docid_t → string → option PropertyValue;
  getMaxDocId : list DmCall → docid_t;
  isDeleted : list DmCall → docid_t → bool;
  insertDocument_answer : list DmCall → Document → bool;
  removeDocument_answer : list DmCall → docid_t → bool;
  updatePartialDocument_answer : list DmCall → Document → bool
}.

Record World := {
  idManager_ : list IdCall;
  documentManager_ : list DmCall;
  indexManager_ : list ImCall;
  productSourceCount_ : gmap string N;
  numUpdatedDocs_ : N;
  numDeletedDocs_ : N
}.

Definition idCall (c : IdCall) (w : World) : World :=
  {| idManager_ := idManager_ w ++ [c]; documentManager_ := documentManager_ w;
     indexManager_ := indexManager_ w; productSourceCount_ := productSourceCount_ w;
     numUpdatedDocs_ := numUpdatedDocs_ w; numDeletedDocs_ := numDeletedDocs_ w |}.
Definition dmCall (c : DmCall) (w : World) : World :=
  {| idManager_ := idManager_ w; documentManager_ := documentManager_ w ++ [c];
     indexManager_ := indexManager_ w; productSourceCount_ := productSourceCount_ w;
     numUpdatedDocs_ := numUpdatedDocs_ w; numDeletedDocs_ := numDeletedDocs_ w |}.
Definition imCall (c : ImCall) (w : World) : World :=
  {| idManager_ := idManager_ w; documentManager_ := documentManager_ w;
     indexManager_ := indexManager_ w ++ [c]; productSourceCount_ := productSourceCount_ w;
     numUpdatedDocs_ := numUpdatedDocs_ w; numDeletedDocs_ := numDeletedDocs_ w |}.
Definition countSource (source : string) (w : World) : World :=
  {| idManager_ := idManager_ w; documentManager_ := documentManager_ w;
     indexManager_ := indexManager_ w;
     productSourceCount_ :=
       <[source := (default 0 (productSourceCount_ w !! source) + 1)%N]>
         (productSourceCount_ w);
     numUpdatedDocs_ := numUpdatedDocs_ w; numDeletedDocs_ := numDeletedDocs_ w |}.
Definition countUpdated (w : World) : World :=
  {| idManager_ := idManager_ w; documentManager_ := documentManager_ w;
     indexManager_ := indexManager_ w; productSourceCount_ := productSourceCount_ w;
     numUpdatedDocs_ := (numUpdatedDocs_ w + 1)%N; numDeletedDocs_ := numDeletedDocs_ w |}.
Definition countDeleted (w : World) : World :=
  {| idManager_ := idManager_ w; documentManager_ := documentManager_ w;
     indexManager_ := indexManager_ w; productSourceCount_ := productSourceCount_ w;
     numUpdatedDocs_ := numUpdatedDocs_ w; numDeletedDocs_ := (numDeletedDocs_ w + 1)%N |}.

Definition DOCID := "DOCID".
Definition DATE := "DATE".

(** [boost::iequals]: equality up to the case of ASCII letters. *)
Definition toLower (c : ascii) : ascii :=
  let n := nat_of_ascii c in
  if (65 <=? n) && (n <=? 90) then ascii_of_nat (n + 32) else c.

Fixpoint lower (s : string) : string :=
  match s with
  | EmptyString => EmptyString
  | String c s' => String (toLower c) (lower s')
  end.

Definition iequals (a b : string) : bool := String.eqb (lower a) (lower b).

Definition emptyString (s : string) : bool := String.eqb s "".

Section Worker.
Variable E : Env.

(** [bundleConfig_->indexSchema_.find(temp)]: the schema is a set ordered
    by property name. *)
Definition findProperty (name : string) : option PropertyConfig :=
  List.find (λ c, String.eqb (propertyName_ c) name) (indexSchema_ E).

(** [getPropertyValue_] (lines 1575-1588): [None] is the caught
    [boost::bad_get]. *)
Definition getPropertyValue_ (value : PropertyValue) : option string :=
  match value with
  | PV_UString text => Some (convertString E text UTF_8)
  | PV_Offsets _ => None
  end.

(** *** R-type classification *)


Record RtypeState := {
  rs_docId : docid_t;
  rs_fieldValue : gmap string (PropertyDataType * string);
  rs_isUpdate : bool
}.

(** How one turn of the loop of [checkRtype_] ends. *)
Inductive Turn :=
| Next (st : RtypeState)       (* continue, or the end of the body *)
| Break (st : RtypeState)
| ReturnFalse (st : RtypeState).

(** The value [checkRtype_] compares with the stored one. *)
Definition newValueOf (fieldName propertyValueU : string) : string :=
  if iequals fieldName DATE
  then (createTimeStampInSeconds E propertyValueU).2
  else propertyValueU.

Definition checkRtype_field (w : World) (st : RtypeState) (field : string * string)
  : Turn :=
  let fieldName := field.1 in
  let propertyValueU := field.2 in
  match findProperty fieldName with
  | None => Break st
  | Some iter =>
      if iequals fieldName DOCID
      then
        match getDocIdByDocName E (idManager_ w)
                (md5ToUint128 E (convertString E propertyValueU UTF_8)) with
        | None => Break st
        | Some docId =>
            Next {| rs_docId := docId; rs_fieldValue := rs_fieldValue st;
                    rs_isUpdate := rs_isUpdate st |}
        end
      else
        let newPropertyValue := newValueOf fieldName propertyValueU in
        let newValueStr := convertString E newPropertyValue UTF_8 in
        match getPropertyValue E (documentManager_ w) (rs_docId st)
                (propertyName_ iter) with
        | None => Break st
        | Some value =>
            match getPropertyValue_ value with
            | None => ReturnFalse st
            | Some oldValueStr =>
                if String.eqb newValueStr oldValueStr then Next st
                else if isIndex iter && getIsFilter iter && negb (isAnalyzed iter)
                then Next {| rs_docId := rs_docId st;
                             rs_fieldValue :=
                               <[propertyName_ iter :=
                                   (propertyType_ iter, newPropertyValue)]>
                                 (rs_fieldValue st);
                             rs_isUpdate := true |}
                else if negb (isIndex iter)
                then Next {| rs_docId := rs_docId st;
                             rs_fieldValue := rs_fieldValue st;
                             rs_isUpdate := true |}
                else Break st
            end
        end
  end.

Fixpoint checkRtype_loop (w : World) (doc : SCDDoc) (st : RtypeState) : Turn :=
  match doc with
  | [] => Next st
  | field :: rest =>
      match checkRtype_field w st field with
      | Next st' => checkRtype_loop w rest st'
      | stop => stop
      end
  end.

(** [checkRtype_] (lines 2560-2641): the result, and the two arguments
    passed by reference. *)
Definition checkRtype_
    (w : World) (doc : SCDDoc)
    (rTypeFieldValue : gmap string (PropertyDataType * string)) (isUpdate : bool)
  : bool * gmap string (PropertyDataType * string) * bool :=
  match checkRtype_loop w doc
          {| rs_docId := 0%N; rs_fieldValue := rTypeFieldValue;
             rs_isUpdate := isUpdate |} with
  | Next st => (true, rs_fieldValue st, rs_isUpdate st)
  | Break st => (false, ∅, rs_isUpdate st)
  | ReturnFalse st => (false, rs_fieldValue st, rs_isUpdate st)
  end.

(** *** Docid creation *)

Record DocIds := { ids_ok : bool; ids_old : docid_t; ids_new : docid_t }.

(** [createUpdateDocId_] (lines 1728-1749); [oldId] and [newId] come in
    and go out by reference. *)
Definition createUpdateDocId_
    (scdDocId : uint128_t) (rType : bool) (oldId newId : docid_t) (w : World)
  : DocIds * World :=
  if rType
  then
    match getDocIdByDocName E (idManager_ w) scdDocId with
    | Some id => ({| ids_ok := true; ids_old := id; ids_new := id |}, w)
    | None => ({| ids_ok := false; ids_old := oldId; ids_new := newId |}, w)
    end
  else
    let answer := updateDocIdByDocName E (idManager_ w) scdDocId in
    let w' := idCall (IdUpdate scdDocId answer) w in
    match answer with
    | Some (old, new) => ({| ids_ok := true; ids_old := old; ids_new := new |}, w')
    | None => ({| ids_ok := false; ids_old := oldId; ids_new := newId |}, w')
    end.

(** [createInsertDocId_] (lines 1751-1785): [None] is [return false]. *)
Definition createInsertDocId_ (scdDocId : uint128_t) (w : World)
  : option docid_t * World :=
  let '(found, docId) := getDocIdByDocName_insert E (idManager_ w) scdDocId in
  let w1 := idCall (IdGetOrCreate scdDocId found docId) w in
  let checkMax (docId : docid_t) (w : World) :=
    if (docId <=? getMaxDocId E (documentManager_ w))%N
    then (None, w) else (Some docId, w) in
  if found
  then
    if isDeleted E (documentManager_ w1) docId
    then
      let answer := updateDocIdByDocName E (idManager_ w1) scdDocId in
      let w2 := idCall (IdUpdate scdDocId answer) w1 in
      match answer with
      | None => (None, w2)
      | Some (_, docId') => checkMax docId' w2
      end
    else (None, w1)
  else checkMax docId w1.

(** [completePartialDocument_] (lines 1559-1573): the stored properties
    with those of [doc] laid over them, under the id of [doc]. *)
Definition completePartialDocument_ (oldId : docid_t) (doc : Document) (w : World)
  : option Document :=
  match getDocument E (documentManager_ w) oldId with
  | None => None
  | Some oldDoc =>
      Some {| getId := getId doc; properties := properties doc ∪ properties oldDoc |}
  end.

(** *** Document preparation *)

Record PrepState := {
  ps_document : Document;
  ps_docId : docid_t;
  ps_oldId : docid_t;
  ps_rType : bool;
  ps_rTypeFieldValue : gmap string (PropertyDataType * string);
  ps_source : string;
  ps_timestamp : Z;
  ps_insert : bool;
  ps_dateExistInSCD : bool
}.

Definition withSource (source : string) (st : PrepState) : PrepState :=
  {| ps_document := ps_document st; ps_docId := ps_docId st; ps_oldId := ps_oldId st;
     ps_rType := ps_rType st; ps_rTypeFieldValue := ps_rTypeFieldValue st;
     ps_source := source; ps_timestamp := ps_timestamp st;
     ps_insert := ps_insert st; ps_dateExistInSCD := ps_dateExistInSCD st |}.

Definition withDocument (d : Document) (st : PrepState) : PrepState :=
  {| ps_document := d; ps_docId := ps_docId st; ps_oldId := ps_oldId st;
     ps_rType := ps_rType st; ps_rTypeFieldValue := ps_rTypeFieldValue st;
     ps_source := ps_source st; ps_timestamp := ps_timestamp st;
     ps_insert := ps_insert st; ps_dateExistInSCD := ps_dateExistInSCD st |}.

(** The branch of [prepareDocument_] for the DOCID property (lines
    2034-2064); [None] is [return false]. *)
Definition prepareDocId
    (doc : SCDDoc) (fieldStr propertyValueU : string) (st : PrepState) (w : World)
  : option PrepState * World :=
  let fieldValue := convertString E propertyValueU (encoding_ E) in
  let finish (insert rType : bool) (fv : gmap string (PropertyDataType * string))
             (oldId docId : docid_t) (w : World) : option PrepState * World :=
    let store (docId : docid_t) (w : World) :=
      (Some {| ps_document :=
                 setProperty fieldStr (PV_UString propertyValueU)
                   (setId docId (ps_document st));
               ps_docId := docId; ps_oldId := oldId; ps_rType := rType;
               ps_rTypeFieldValue := fv; ps_source := ps_source st;
               ps_timestamp := ps_timestamp st; ps_insert := insert;
               ps_dateExistInSCD := ps_dateExistInSCD st |}, w) in
    if insert
    then
      match createInsertDocId_ (md5ToUint128 E fieldValue) w with
      | (None, w') => (None, w')
      | (Some docId', w') => store docId' w'
      end
    else store docId w in
  if ps_insert st
  then finish true (ps_rType st) (ps_rTypeFieldValue st) (ps_oldId st) (ps_docId st) w
  else
    let '(rType, fv, isUpdate) := checkRtype_ w doc (ps_rTypeFieldValue st) false in
    if rType && negb isUpdate
    then (None, w)
    else
      let '(ids, w') :=
        createUpdateDocId_ (md5ToUint128 E fieldValue) rType
          (ps_oldId st) (ps_docId st) w in
      finish (negb (ids_ok ids)) rType fv (ids_old ids) (ids_new ids) w'.

(** The branch for an indexed property that is neither DOCID nor DATE
    (lines 2074-2115). *)
Definition prepareIndexed (iter : PropertyConfig) (fieldStr propertyValueU : string)
    (d : Document) : Document :=
  match propertyType_ iter with
  | STRING_PROPERTY_TYPE =>
      let d := setProperty fieldStr (PV_UString propertyValueU) d in
      if negb (emptyString (analyzerId_ iter))
         && (getIsSnippet iter || getIsSummary iter)
      then
        let numOfSummary :=
          if getIsSummary iter
          then (if (getSummaryNum iter <=? 0)%N then 1%N else getSummaryNum iter)
          else 0%N in
        let sentenceOffsetList :=
          (getOffsetPairs E propertyValueU (getDisplayLength iter) numOfSummary).2 in
        setProperty (fieldStr ++ ".blocks") (PV_Offsets sentenceOffsetList) d
      else d
  | INT_PROPERTY_TYPE | FLOAT_PROPERTY_TYPE | NOMINAL_PROPERTY_TYPE =>
      setProperty fieldStr (PV_UString propertyValueU) d
  | UNKNOWN_DATA_PROPERTY_TYPE => d
  end.

(** One turn of the property loop of [prepareDocument_]. *)
Definition prepareField (doc : SCDDoc) (field : string * string)
    (st : PrepState) (w : World) : option PrepState * World :=
  let fieldStr := field.1 in
  let propertyValueU := field.2 in
  let iter := findProperty fieldStr in
  let st :=
    if negb (emptyString (productSourceField_ E))
       && iequals fieldStr (productSourceField_ E)
    then withSource (convertString E propertyValueU (encoding_ E)) st
    else st in
  if iequals fieldStr DOCID && bool_decide (is_Some iter)
  then prepareDocId doc fieldStr propertyValueU st w
  else if iequals fieldStr DATE
  then
    (Some {| ps_document :=
               setProperty (propertyName_ (dateProperty_ E))
                 (PV_UString propertyValueU) (ps_document st);
             ps_docId := ps_docId st; ps_oldId := ps_oldId st;
             ps_rType := ps_rType st; ps_rTypeFieldValue := ps_rTypeFieldValue st;
             ps_source := ps_source st;
             ps_timestamp := (createTimeStampInSeconds E propertyValueU).1;
             ps_insert := ps_insert st; ps_dateExistInSCD := true |}, w)
  else
    match iter with
    | Some iter =>
        (Some (withDocument
                 (prepareIndexed iter fieldStr propertyValueU (ps_document st)) st), w)
    | None => (Some st, w)
    end.

Fixpoint prepareLoop (doc : SCDDoc) (fields : SCDDoc) (st : PrepState) (w : World)
  : option PrepState * World :=
  match fields with
  | [] => (Some st, w)
  | field :: rest =>
      match prepareField doc field st w with
      | (None, w') => (None, w')
      | (Some st', w') => prepareLoop doc rest st' w'
      end
  end.

(** What [prepareDocument_] hands back through its reference arguments
    when it returns [true]. *)
Record Prepared := {
  p_document : Document;
  p_oldId : docid_t;
  p_rType : bool;
  p_rTypeFieldValue : gmap string (PropertyDataType * string);
  p_source : string;
  p_timestamp : Z
}.

(** The state in which [prepareDocument_] enters its property loop: all its
    callers pass a cleared document, [oldId = 0], [rType = false], an empty
    [rTypeFieldValue] and an empty [source]. *)
Definition initialState (timestamp : Z) (insert : bool) : PrepState :=
  {| ps_document := emptyDocument; ps_docId := 0%N; ps_oldId := 0%N;
     ps_rType := false; ps_rTypeFieldValue := ∅; ps_source := "";
     ps_timestamp := timestamp; ps_insert := insert;
     ps_dateExistInSCD := false |}.

(** What [prepareDocument_] does after its property loop (lines
    2118-2131). *)
Definition finishDocument (st : PrepState) (w : World) : option Prepared * World :=
  let d :=
    if ps_dateExistInSCD st then ps_document st
    else setProperty (propertyName_ (dateProperty_ E))
           (PV_UString (isoDateOf E (ps_timestamp st))) (ps_document st) in
  let ts := if ps_dateExistInSCD st then (-1)%Z else ps_timestamp st in
  let done (d : Document) :=
    (Some {| p_document := d; p_oldId := ps_oldId st; p_rType := ps_rType st;
             p_rTypeFieldValue := ps_rTypeFieldValue st;
             p_source := ps_source st; p_timestamp := ts |}, w) in
  if negb (ps_insert st) && negb (ps_rType st)
  then
    match completePartialDocument_ (ps_oldId st) d w with
    | None => (None, w)
    | Some d' => done d'
    end
  else done d.

(** [prepareDocument_] (lines 1994-2132); [None] is [return false]. *)
Definition prepareDocument_ (doc : SCDDoc) (timestamp : Z) (insert : bool) (w : World)
  : option Prepared * World :=
  match doc with
  | [] => (None, w)
  | _ :: _ =>
      match prepareLoop doc doc (initialState timestamp insert) w with
      | (None, w') => (None, w')
      | (Some st, w') => finishDocument st w'
      end
  end.

(** *** Writing to the stores *)

(** [makeForwardIndex_] (lines 2660-2689).  [analysis] is the property
    whose analysis settings and input buffer are used: the property itself
    or one of its aliases. *)
Definition makeForwardIndex_ (text propertyName : string) (analysis : PropertyConfig)
    (w : World) : bool :=
  let indexingLevel :=
    match indexMultilangGranularity_ E with
    | SENTENCE_LEVEL =>
        if bIndexUnigramProperty_ E
        then match String.index 0 "_unigram" propertyName with
             | Some _ => FIELD_LEVEL
             | None => SENTENCE_LEVEL
             end
        else SENTENCE_LEVEL
    | level => level
    end in
  getTermIdList E (idManager_ w) text analysis indexingLevel.

(** Where the property loop of [prepareIndexDocument_] returns [false]
    (lines 2223-2227 and 2266-2274): a string property that is not empty, is
    indexed and has an analyzer, when [makeForwardIndex_] fails for it or
    for one of its aliases. *)
Definition forwardIndexFails (iter : PropertyConfig) (fieldStr propertyValueU : string)
    (w : World) : bool :=
  match propertyType_ iter with
  | STRING_PROPERTY_TYPE =>
      negb (emptyString propertyValueU) && isIndex iter
      && negb (emptyString (analyzerId_ iter))
      && (negb (makeForwardIndex_ propertyValueU fieldStr iter w)
          || existsb (λ alias, negb (makeForwardIndex_ propertyValueU fieldStr alias w))
                     (propertyAliasMap_ E (propertyName_ iter)))
  | _ => false
  end.

(** The property loop of [prepareIndexDocument_] (lines 2153-2406), as far
    as its outcome and the two ids go: [ids] is what [setId] and [setDocId]
    have left in the index document.  A property of the schema that holds
    sentence offsets is read by the source through the null pointer
    [boost::get] returns; this has no counterpart here, and such a property
    is passed over. *)
Fixpoint prepareIndexLoop (oldId docId : docid_t) (w : World)
    (props : list (string * PropertyValue)) (ids : docid_t * docid_t)
  : bool * (docid_t * docid_t) :=
  match props with
  | [] => (true, ids)
  | (fieldStr, value) :: rest =>
      match findProperty fieldStr with
      | None => prepareIndexLoop oldId docId w rest ids
      | Some iter =>
          if iequals fieldStr DOCID
          then prepareIndexLoop oldId docId w rest (oldId, docId)
          else if iequals fieldStr DATE
          then prepareIndexLoop oldId docId w rest ids
          else
            match value with
            | PV_UString propertyValueU =>
                if forwardIndexFails iter fieldStr propertyValueU w
                then (false, ids)
                else prepareIndexLoop oldId docId w rest ids
            | PV_Offsets _ => prepareIndexLoop oldId docId w rest ids
            end
      end
  end.

(** [prepareIndexDocument_] (lines 2134-2409): the result, and the index
    document as it is left, also when the result is [false].  The callers
    hand in a cleared [IndexerDocument], taken to hold docid 0 in both
    places; what [insertProperty] has put into it is [analyze]'s after a
    complete pass and [analyzeStopped]'s after one that stopped early. *)
Definition prepareIndexDocument_ (oldId : docid_t) (timestamp : Z) (d : Document)
    (w : World) : bool * IndexerDocument :=
  let r := prepareIndexLoop oldId (getId d) w (propertyOrder E (properties d))
             (0%N, 0%N) in
  (r.1, {| idoc_getId := r.2.1; idoc_getDocId := r.2.2;
           idoc_properties :=
             if r.1 then analyze E timestamp d
             else analyzeStopped E (idManager_ w) timestamp d |}).

(** [preparePartialDocument_] (lines 2426-2558): [None] is [return false];
    the old indexed values are [analyzeOld]'s. *)
Definition preparePartialDocument_ (d : Document) (w : World) : option IndexerDocument :=
  match getDocument E (documentManager_ w) (getId d) with
  | None => None
  | Some oldDoc =>
      Some {| idoc_getId := 0%N; idoc_getDocId := 0%N;
              idoc_properties := analyzeOld E d oldDoc |}
  end.

(** [insertDoc_] (lines 1869-1893). *)
Definition insertDoc_ (d : Document) (idoc : IndexerDocument) (timestamp : Z)
    (w : World) : bool * World :=
  let hooked :=
    match hooker_ E with
    | Some h =>
        HookInsert h d idoc
          (if (timestamp =? -1)%Z then timestamp else (timestamp * 1000000)%Z)
    | None => true
    end in
  if hooked
  then
    let ok := insertDocument_answer E (documentManager_ w) d in
    let w1 := dmCall (DmInsert d ok) w in
    if ok then (true, imCall (ImInsert idoc) w1) else (false, w1)
  else (false, w).

(** [updateDoc_] (lines 1895-1940). *)
Definition updateDoc_ (d : Document) (idoc : IndexerDocument) (timestamp : Z)
    (rType : bool) (w : World) : bool * World :=
  let hooked :=
    match hooker_ E with
    | Some h => HookUpdate h d idoc timestamp rType
    | None => true
    end in
  if hooked
  then
    if rType
    then
      match preparePartialDocument_ d w with
      | None => (false, w)
      | Some oldIndexDocument =>
          let ok := updatePartialDocument_answer E (documentManager_ w) d in
          let w1 := dmCall (DmUpdatePartial d ok) w in
          if ok
          then (true, imCall (ImUpdateRtype oldIndexDocument idoc) w1)
          else (false, w1)
      end
    else
      let oldId := idoc_getId idoc in
      let removed := removeDocument_answer E (documentManager_ w) oldId in
      let w1 := dmCall (DmRemove oldId removed) w in
      let ok := insertDocument_answer E (documentManager_ w1) d in
      let w2 := dmCall (DmInsert d ok) w1 in
      if ok then (true, imCall (ImUpdate idoc) w2) else (false, w2)
  else (false, w).

(** [deleteDoc_] (lines 1942-1958). *)
Definition deleteDoc_ (docid : docid_t) (timestamp : Z) (w : World) : bool * World :=
  let hooked :=
    match hooker_ E with
    | Some h => HookDelete h docid timestamp
    | None => true
    end in
  if hooked
  then
    let removed := removeDocument_answer E (documentManager_ w) docid in
    let w1 := dmCall (DmRemove docid removed) w in
    if removed
    then (true, countDeleted (imCall (ImRemove (collectionId_ E) docid) w1))
    else (false, w1)
  else (false, w).

(** *** The bundle loops *)

(** The body of the document loop of [insertOrUpdateSCD_] (lines
    1682-1718).  The result of [prepareIndexDocument_] is not looked at
    (line 1697). *)
Definition processDocument (isInsert : bool) (timestamp : Z) (doc : SCDDoc)
    (w : World) : World :=
  match prepareDocument_ doc timestamp isInsert w with
  | (None, w') => w'
  | (Some p, w') =>
      let indexDocument :=
        (prepareIndexDocument_ (p_oldId p) (p_timestamp p) (p_document p) w').2 in
      let w1 := if emptyString (p_source p) then w' else countSource (p_source p) w' in
      if isInsert || (p_oldId p =? 0)%N
      then (insertDoc_ (p_document p) indexDocument (p_timestamp p) w1).2
      else
        let '(ok, w2) :=
          updateDoc_ (p_document p) indexDocument (p_timestamp p) (p_rType p) w1 in
        if ok then countUpdated w2 else w2
  end.

(** [insertOrUpdateSCD_] (lines 1644-1726) over the documents the parser
    yields; [None] is a null document pointer. *)
Fixpoint insertOrUpdateLoop (isInsert : bool) (numdoc : N) (timestamp : Z)
    (docs : list (option SCDDoc)) (n : N) (w : World) : bool * World :=
  match docs with
  | [] => (true, w)
  | None :: _ => (false, w)
  | Some doc :: rest =>
      if (0 <? numdoc)%N && (numdoc <=? n)%N
      then (true, w)
      else insertOrUpdateLoop isInsert numdoc timestamp rest (n + 1)%N
             (processDocument isInsert timestamp doc w)
  end.

Definition insertOrUpdateSCD_ (docs : list (option SCDDoc)) (isInsert : bool)
    (numdoc : N) (timestamp : Z) (w : World) : bool * World :=
  insertOrUpdateLoop isInsert numdoc timestamp docs 0%N w.

(** The first loop of [deleteSCD_]: DOCIDs that do not resolve are left
    out. *)
Definition resolveDocIds (w : World) (rawDocIDList : list string) : list docid_t :=
  omap (λ raw, getDocIdByDocName E (idManager_ w)
                 (md5ToUint128 E (convertString E raw UTF_8)))
       rawDocIDList.

(** The second loop of [deleteSCD_] (lines 1821-1858). *)
Fixpoint deleteLoop (timestamp : Z) (docIdList : list docid_t) (w : World)
  : bool * World :=
  match docIdList with
  | [] => (true, w)
  | docId :: rest =>
      let go (w : World) := deleteLoop timestamp rest (deleteDoc_ docId timestamp w).2 in
      if emptyString (productSourceField_ E)
      then go w
      else
        match getPropertyValue E (documentManager_ w) docId (productSourceField_ E) with
        | None => go w
        | Some value =>
            match getPropertyValue_ value with
            | Some source => go (countSource source w)
            | None => (false, w)
            end
        end
  end.

(** [deleteSCD_] (lines 1787-1867); [rawDocIDList] is what
    [parser.getDocIdList] yields, [None] when it fails. *)
Definition deleteSCD_ (rawDocIDList : option (list string)) (timestamp : Z)
    (w : World) : bool * World :=
  match rawDocIDList with
  | None => (false, w)
  | Some raw => deleteLoop timestamp (merge_sort N.le (resolveDocIds w raw)) w
  end.

(** *** Facts about R-type classification *)



(** The text [checkRtype_] compares for a property, and what it means that
    the stored text under [docId] differs from it. *)
Definition comparedText (field : string * string) : string :=
  convertString E (newValueOf field.1 field.2) UTF_8.













(** The same state up to the [source] noted on the way. *)
Definition sameButSource (st st0 : PrepState) : Prop :=
  ps_insert st0 = ps_insert st
  ∧ ps_rTypeFieldValue st0 = ps_rTypeFieldValue st
  ∧ ps_oldId st0 = ps_oldId st ∧ ps_docId st0 = ps_docId st
  ∧ ps_rType st0 = ps_rType st ∧ ps_document st0 = ps_document st
  ∧ ps_dateExistInSCD st0 = ps_dateExistInSCD st
  ∧ ps_timestamp st0 = ps_timestamp st.

Lemma prepareField_docid doc name value st w :
  iequals name DOCID = true →
  is_Some (findProperty name) →
  ∃ st0, prepareField doc (name, value) st w = prepareDocId doc name value st0 w
         ∧ sameButSource st st0.
Proof.
  intros Hname [cfg Hcfg]. unfold prepareField. cbn [fst snd].
  rewrite Hname, Hcfg. simpl bool_decide. cbn [andb].
  destruct (negb (emptyString (productSourceField_ E))
            && iequals name (productSourceField_ E)).
  - eexists. split; [done|]. by repeat split.
  - eexists. split; [done|]. by repeat split.
Qed.

(** The property is not a DOCID and the text the store holds for it under
    [docId] equals the one [checkRtype_] compares. *)
Definition unchanged (w : World) (docId : docid_t) (field : string * string) : Prop :=
  iequals field.1 DOCID = false
  ∧ ∃ cfg old,
      findProperty field.1 = Some cfg
      ∧ getPropertyValue E (documentManager_ w) docId (propertyName_ cfg)
        = Some (PV_UString old)
      ∧ comparedText field = convertString E old UTF_8.

Lemma checkRtype_loop_unchanged w rest st :
  Forall (unchanged w (rs_docId st)) rest →
  checkRtype_loop w rest st = Next st.
Proof.
  induction 1 as [|field rest (Hno & cfg & old & Hcfg & Hold & Heq) _ IH]; [done|].
  simpl. unfold checkRtype_field. rewrite Hcfg, Hno, Hold. simpl.
  unfold comparedText in Heq. rewrite Heq, String.eqb_refl. exact IH.
Qed.

(** C9 (amended): an update document that starts with its DOCID property,
    whose DOCID resolves to a docid and whose every other property is a
    schema property for which the store holds, under that docid, the very
    text the classifier compares (the raw value; for DATE the date string
    [createTimeStampInSeconds] makes of it), makes [prepareDocument_] return
    false before any collaborator is written to, and the document loop goes
    on with all stores as they were. *)
Theorem unchanged_update_is_skipped
    (w : World) (name value : string) (rest : SCDDoc) (id : docid_t) (timestamp : Z) :
  iequals name DOCID = true →
  is_Some (findProperty name) →
  getDocIdByDocName E (idManager_ w) (md5ToUint128 E (convertString E value UTF_8))
  = Some id →
  Forall (unchanged w id) rest →
  let doc := (name, value) :: rest in
  prepareDocument_ doc timestamp false w = (None, w)
  ∧ processDocument false timestamp doc w = w
  ∧ insertOrUpdateSCD_ [Some doc] false 0 timestamp w = (true, w).
Proof.
  intros Hname [cfg Hcfg] Hid Hrest doc.
  assert (checkRtype_ w doc ∅ false = (true, ∅, false)) as Hcheck.
  { unfold checkRtype_, doc. simpl. unfold checkRtype_field at 1. simpl.
    rewrite Hcfg, Hname, Hid.
    by rewrite (checkRtype_loop_unchanged w rest
                  {| rs_docId := id; rs_fieldValue := ∅; rs_isUpdate := false |}). }
  assert (prepareDocument_ doc timestamp false w = (None, w)) as Hprep.
  { unfold prepareDocument_, doc. simpl prepareLoop.
    destruct (prepareField_docid ((name, value) :: rest) name value
                (initialState timestamp false) w Hname (ex_intro _ cfg Hcfg))
      as (st0 & -> & Hins & Hfv & _).
    unfold prepareDocId. rewrite Hins, Hfv. simpl ps_insert.
    simpl ps_rTypeFieldValue. fold doc. by rewrite Hcheck. }
  split; [done|]. split.
  - unfold processDocument. by rewrite Hprep.
  - unfold insertOrUpdateSCD_. simpl. unfold processDocument. by rewrite Hprep.
Qed.

(** *** Facts about updates *)

(** What the properties after the DOCID leave alone. *)
Definition sameIds (st st' : PrepState) : Prop :=
  ps_docId st' = ps_docId st ∧ ps_oldId st' = ps_oldId st
  ∧ ps_rType st' = ps_rType st ∧ ps_insert st' = ps_insert st
  ∧ ps_rTypeFieldValue st' = ps_rTypeFieldValue st
  ∧ getId (ps_document st') = getId (ps_document st)
  ∧ ∀ k, is_Some (properties (ps_document st) !! k) →
         is_Some (properties (ps_document st') !! k).

Lemma sameIds_refl st : sameIds st st.
Proof. by repeat split. Qed.

Lemma sameIds_trans st1 st2 st3 : sameIds st1 st2 → sameIds st2 st3 → sameIds st1 st3.
Proof.
  intros (A1 & A2 & A3 & A4 & A5 & A6 & A7) (B1 & B2 & B3 & B4 & B5 & B6 & B7).
  repeat split; try congruence. intros k Hk. by apply B7, A7.
Qed.

Lemma setProperty_keeps name v d k :
  is_Some (properties d !! k) → is_Some (properties (setProperty name v d) !! k).
Proof. intros Hk. simpl. apply lookup_insert_is_Some'. by right. Qed.

Lemma prepareIndexed_keeps iter fieldStr value d :
  getId (prepareIndexed iter fieldStr value d) = getId d
  ∧ ∀ k, is_Some (properties d !! k) →
         is_Some (properties (prepareIndexed iter fieldStr value d) !! k).
Proof.
  unfold prepareIndexed. destruct (propertyType_ iter); try done;
    try (split; [done|]; intros k Hk; by apply setProperty_keeps).
  destruct (negb (emptyString (analyzerId_ iter))
            && (getIsSnippet iter || getIsSummary iter)).
  - split; [done|]. intros k Hk. by do 2 apply setProperty_keeps.
  - split; [done|]. intros k Hk. by apply setProperty_keeps.
Qed.

Lemma prepareField_other doc field st w :
  iequals field.1 DOCID = false →
  ∃ st', prepareField doc field st w = (Some st', w) ∧ sameIds st st'.
Proof.
  intros Hno. unfold prepareField. rewrite Hno. cbn [andb].
  set (st0 := if negb (emptyString (productSourceField_ E))
                 && iequals field.1 (productSourceField_ E)
              then withSource (convertString E field.2 (encoding_ E)) st else st).
  assert (sameIds st st0) as H0.
  { subst st0. destruct (_ && _); by repeat split. }
  destruct (iequals field.1 DATE).
  - eexists. split; [done|]. eapply sameIds_trans; [exact H0|].
    repeat split; try done. intros k Hk. by apply setProperty_keeps.
  - destruct (findProperty field.1) as [iter|].
    + eexists. split; [done|]. eapply sameIds_trans; [exact H0|].
      destruct (prepareIndexed_keeps iter field.1 field.2 (ps_document st0))
        as [Hid Hk].
      by repeat split.
    + by exists st0.
Qed.

Lemma prepareLoop_others doc fields : ∀ st w,
  forallb (λ f, negb (iequals f.1 DOCID)) fields = true →
  ∃ st', prepareLoop doc fields st w = (Some st', w) ∧ sameIds st st'.
Proof.
  induction fields as [|field fields IH]; intros st w Hall; simpl.
  - exists st. split; [done|apply sameIds_refl].
  - simpl in Hall. apply andb_true_iff in Hall as [Hf Hall].
    apply negb_true_iff in Hf.
    destruct (prepareField_other doc field st w Hf) as (st1 & -> & H1).
    destruct (IH st1 w Hall) as (st2 & -> & H2).
    exists st2. split; [done|]. by eapply sameIds_trans.
Qed.

(** The order in which the properties of a document are visited leaves
    none of them out. *)
Definition visitsEveryProperty : Prop :=
  ∀ (m : gmap string PropertyValue) (k : string) (v : PropertyValue),
    m !! k = Some v → (k, v) ∈ propertyOrder E m.

(** The ids of the index document are the cleared ones it started with or
    the two the DOCID branch has set. *)
Lemma prepareIndexLoop_cases oldId docId w props : ∀ ids,
  (prepareIndexLoop oldId docId w props ids).2 = ids
  ∨ (prepareIndexLoop oldId docId w props ids).2 = (oldId, docId).
Proof.
  induction props as [|[fieldStr value] props IH]; intros ids; simpl; [by left|].
  destruct (findProperty fieldStr) as [iter|]; [|apply IH].
  destruct (iequals fieldStr DOCID).
  { right. by destruct (IH (oldId, docId)). }
  destruct (iequals fieldStr DATE); [apply IH|].
  destruct value as [text|offs]; [|apply IH].
  destruct (forwardIndexFails iter fieldStr text w); [by left|apply IH].
Qed.

(** A loop that reaches its end has passed every property, so also a DOCID
    property of the schema, if there is one. *)
Lemma prepareIndexLoop_ids oldId docId w props : ∀ ids,
  (∃ kv, kv ∈ props ∧ iequals kv.1 DOCID = true ∧ is_Some (findProperty kv.1))
  ∨ ids = (oldId, docId) →
  (prepareIndexLoop oldId docId w props ids).1 = true →
  (prepareIndexLoop oldId docId w props ids).2 = (oldId, docId).
Proof.
  induction props as [|[fieldStr value] props IH]; intros ids Hstart; simpl.
  { destruct Hstart as [(kv & Hin & _) | ->]; [|done]. by apply elem_of_nil in Hin. }
  destruct (findProperty fieldStr) as [iter|] eqn:Hcfg.
  - destruct (iequals fieldStr DOCID) eqn:Hname.
    { apply IH. by right. }
    assert ((∃ kv, kv ∈ props ∧ iequals kv.1 DOCID = true
                   ∧ is_Some (findProperty kv.1)) ∨ ids = (oldId, docId)) as Hrest.
    { destruct Hstart as [(kv & Hin & Hkv & Hs) | ->]; [|by right].
      apply elem_of_cons in Hin as [->|Hin]; [|left; by exists kv].
      simpl in Hkv. by rewrite Hkv in Hname. }
    destruct (iequals fieldStr DATE); [by apply IH|].
    destruct value as [text|offs]; [|by apply IH].
    destruct (forwardIndexFails iter fieldStr text w); [done|by apply IH].
  - apply IH. destruct Hstart as [(kv & Hin & Hkv & Hs) | ->]; [|by right].
    apply elem_of_cons in Hin as [->|Hin]; [|left; by exists kv].
    simpl in Hs. rewrite Hcfg in Hs. by destruct Hs.
Qed.

(** A complete pass over a document that carries a DOCID property of the
    schema leaves [oldId] and the document's docid in the index document. *)
Lemma prepareIndexDocument_ids oldId timestamp d w name :
  visitsEveryProperty →
  iequals name DOCID = true → is_Some (findProperty name) →
  is_Some (properties d !! name) →
  (prepareIndexDocument_ oldId timestamp d w).1 = true →
  idoc_getId (prepareIndexDocument_ oldId timestamp d w).2 = oldId
  ∧ idoc_getDocId (prepareIndexDocument_ oldId timestamp d w).2 = getId d.
Proof.
  intros Hall Hname Hcfg [v Hv] Hok. unfold prepareIndexDocument_ in *.
  cbn [fst snd idoc_getId idoc_getDocId] in *.
  rewrite (prepareIndexLoop_ids oldId (getId d) w _ (0%N, 0%N)); [done| |done].
  left. exists (name, v). split; [by apply Hall|done].
Qed.

(** The index document depends on the world through the id manager only. *)
Lemma prepareIndexDocument_world oldId timestamp d w w' :
  idManager_ w' = idManager_ w →
  prepareIndexDocument_ oldId timestamp d w' = prepareIndexDocument_ oldId timestamp d w.
Proof.
  intros Hid. unfold prepareIndexDocument_.
  assert (∀ props ids, prepareIndexLoop oldId (getId d) w' props ids
                       = prepareIndexLoop oldId (getId d) w props ids) as ->;
    [|by rewrite Hid].
  induction props as [|[fieldStr value] props IH]; intros ids; simpl; [done|].
  unfold forwardIndexFails, makeForwardIndex_. rewrite Hid.
  destruct (findProperty fieldStr) as [iter|]; [|apply IH].
  destruct (iequals fieldStr DOCID); [apply IH|].
  destruct (iequals fieldStr DATE); [apply IH|].
  destruct value as [text|offs]; [|apply IH].
  by rewrite IH.
Qed.

(** The document has one DOCID property, known to the schema: [name],
    between the properties [pre] and [post]. *)
Definition oneDocId (pre : SCDDoc) (name : string) (post : SCDDoc) : Prop :=
  forallb (λ f, negb (iequals f.1 DOCID)) pre = true
  ∧ iequals name DOCID = true
  ∧ is_Some (findProperty name)
  ∧ forallb (λ f, negb (iequals f.1 DOCID)) post = true.

Lemma prepareLoop_app doc fields1 fields2 : ∀ st w,
  prepareLoop doc (fields1 ++ fields2) st w
  = match prepareLoop doc fields1 st w with
    | (None, w') => (None, w')
    | (Some st', w') => prepareLoop doc fields2 st' w'
    end.
Proof.
  induction fields1 as [|field fields1 IH]; intros st w; simpl; [done|].
  destruct (prepareField doc field st w) as [[st'|] w']; [apply IH|done].
Qed.

(** No hook is installed, or the installed one lets every update pass. *)
Definition hookLetsUpdatesPass : Prop :=
  match hooker_ E with
  | Some h => ∀ d idoc ts rType, HookUpdate h d idoc ts rType = true
  | None => True
  end.

(** Preparing such a document: the properties before the DOCID, the DOCID
    branch, the properties after it, and the tail of [prepareDocument_]. *)
Lemma prepareDocument_oneDocId pre name value post timestamp w :
  oneDocId pre name post →
  ∃ st0, ps_insert st0 = false ∧ ps_rTypeFieldValue st0 = ∅
    ∧ match prepareDocId (pre ++ (name, value) :: post) name value st0 w with
      | (None, w1) =>
          prepareDocument_ (pre ++ (name, value) :: post) timestamp false w
          = (None, w1)
      | (Some st1, w1) =>
          ∃ st2, sameIds st1 st2
            ∧ prepareDocument_ (pre ++ (name, value) :: post) timestamp false w
              = finishDocument st2 w1
      end.
Proof.
  intros (Hpre & Hname & Hcfg & Hpost).
  assert (∀ doc, ∃ st0, ps_insert st0 = false ∧ ps_rTypeFieldValue st0 = ∅
    ∧ match prepareDocId doc name value st0 w with
      | (None, w1) =>
          prepareLoop doc (pre ++ (name, value) :: post)
            (initialState timestamp false) w = (None, w1)
      | (Some st1, w1) =>
          ∃ st2, sameIds st1 st2
            ∧ prepareLoop doc (pre ++ (name, value) :: post)
                (initialState timestamp false) w = (Some st2, w1)
      end) as Hloop.
  { intros doc. rewrite prepareLoop_app.
    destruct (prepareLoop_others doc pre (initialState timestamp false) w Hpre)
      as (stp & -> & (_ & _ & _ & Hins & Hfv & _)).
    simpl prepareLoop.
    destruct (prepareField_docid doc name value stp w Hname Hcfg)
      as (st0 & -> & (Hins0 & Hfv0 & _)).
    exists st0. split; [by rewrite Hins0, Hins|]. split; [by rewrite Hfv0, Hfv|].
    destruct (prepareDocId doc name value st0 w) as [[st1|] w1]; [|done].
    destruct (prepareLoop_others doc post st1 w1 Hpost) as (st2 & -> & H2).
    by exists st2. }
  destruct (Hloop (pre ++ (name, value) :: post)) as (st0 & Hins & Hfv & H).
  exists st0. split; [done|]. split; [done|].
  assert (∀ doc, doc = pre ++ (name, value) :: post →
          prepareDocument_ doc timestamp false w
          = match prepareLoop doc doc (initialState timestamp false) w with
            | (None, w') => (None, w')
            | (Some st, w') => finishDocument st w'
            end) as Hprep.
  { intros doc ->. unfold prepareDocument_. by destruct pre. }
  rewrite (Hprep _ eq_refl).
  destruct (prepareDocId _ name value st0 w) as [[st1|] w1].
  - destruct H as (st2 & H2 & ->). by exists st2.
  - by rewrite H.
Qed.

Lemma updateDoc_hooked d idoc ts rType w :
  hookLetsUpdatesPass →
  updateDoc_ d idoc ts rType w
  = if rType
    then
      match preparePartialDocument_ d w with
      | None => (false, w)
      | Some oldIndexDocument =>
          let ok := updatePartialDocument_answer E (documentManager_ w) d in
          let w1 := dmCall (DmUpdatePartial d ok) w in
          if ok
          then (true, imCall (ImUpdateRtype oldIndexDocument idoc) w1)
          else (false, w1)
      end
    else
      let oldId := idoc_getId idoc in
      let removed := removeDocument_answer E (documentManager_ w) oldId in
      let w1 := dmCall (DmRemove oldId removed) w in
      let ok := insertDocument_answer E (documentManager_ w1) d in
      let w2 := dmCall (DmInsert d ok) w1 in
      if ok then (true, imCall (ImUpdate idoc) w2) else (false, w2).
Proof.
  unfold hookLetsUpdatesPass, updateDoc_. destruct (hooker_ E) as [h|]; [|done].
  intros H. by rewrite H.
Qed.

(** An update document with one DOCID property, whose hook, if any, lets
    it pass.  If it is classified R-type with a change, and its docid is
    [id], then [createUpdateDocId_] gives [id] as old and as new docid, the
    id manager is not written to, the document store receives one
    [updatePartialDocument] for a document carrying [id], and the index one
    [updateRtypeDocument].  If it is not classified R-type and the id
    manager answers [updateDocIdByDocName] with the old docid and a newly
    issued one, then the document store receives [removeDocument] of the
    docid the index document holds, followed by [insertDocument] of a
    document carrying the new docid, and the index [updateDocument].  The
    index document is the one [prepareIndexDocument_] has left: it holds the
    old and the new docid if the preparation went through. *)
Lemma prepared_update_keeps_or_replaces_docid
    (w : World) (pre : SCDDoc) (name value : string) (post : SCDDoc)
    (timestamp : Z) (oldDoc : Document) :
  oneDocId pre name post →
  hookLetsUpdatesPass →
  visitsEveryProperty →
  let doc := pre ++ (name, value) :: post in
  let scdDocId := md5ToUint128 E (convertString E value (encoding_ E)) in
  let w' := processDocument false timestamp doc w in
  (∀ fv id,
     checkRtype_ w doc ∅ false = (true, fv, true) →
     getDocIdByDocName E (idManager_ w) scdDocId = Some id →
     id ≠ 0%N →
     getDocument E (documentManager_ w) id = Some oldDoc →
     createUpdateDocId_ scdDocId true 0 0 w
     = ({| ids_ok := true; ids_old := id; ids_new := id |}, w)
     ∧ idManager_ w' = idManager_ w
     ∧ ∃ d ok oldIndexDocument ts,
         let prepared := prepareIndexDocument_ id ts d w in
         getId d = id
         ∧ documentManager_ w' = documentManager_ w ++ [DmUpdatePartial d ok]
         ∧ (prepared.1 = true → idoc_getDocId prepared.2 = id)
         ∧ indexManager_ w'
           = indexManager_ w
             ++ (if ok then [ImUpdateRtype oldIndexDocument prepared.2] else []))
  ∧ (∀ fv upd old new,
       checkRtype_ w doc ∅ false = (false, fv, upd) →
       updateDocIdByDocName E (idManager_ w) scdDocId = Some (old, new) →
       old ≠ 0%N →
       getDocument E (documentManager_ w) old = Some oldDoc →
       idManager_ w' = idManager_ w ++ [IdUpdate scdDocId (Some (old, new))]
       ∧ ∃ d removed ok ts,
           let prepared :=
             prepareIndexDocument_ old ts d
               (idCall (IdUpdate scdDocId (Some (old, new))) w) in
           getId d = new
           ∧ documentManager_ w'
             = documentManager_ w
               ++ [DmRemove (idoc_getId prepared.2) removed; DmInsert d ok]
           ∧ (prepared.1 = true →
              idoc_getId prepared.2 = old ∧ idoc_getDocId prepared.2 = new)
           ∧ indexManager_ w'
             = indexManager_ w ++ (if ok then [ImUpdate prepared.2] else [])).
Proof.
  intros Hrec Hhook Hall doc scdDocId w'.
  destruct (prepareDocument_oneDocId pre name value post timestamp w Hrec)
    as (st0 & Hins & Hfv & Hprep).
  destruct Hrec as (_ & Hname & Hcfg & _).
  split.
  - intros fv id Hcheck Hid Hnz HoldDoc.
    split; [unfold createUpdateDocId_; by rewrite Hid|].
    unfold prepareDocId in Hprep. rewrite Hins, Hfv in Hprep. fold doc in Hprep.
    rewrite Hcheck in Hprep. cbv beta iota zeta in Hprep. cbn [andb negb] in Hprep.
    unfold createUpdateDocId_ in Hprep. fold scdDocId in Hprep.
    rewrite Hid in Hprep. cbn [ids_ok ids_old ids_new negb] in Hprep.
    destruct Hprep as (st2 & (H1 & H2 & H3 & H4 & H5 & H6 & H7) & Hprep).
    simpl in H1, H2, H3, H4, H6, H7.
    subst w'. unfold processDocument. rewrite Hprep. unfold finishDocument.
    rewrite H3, H4, H2. cbn [negb andb]. cbv beta iota zeta.
    cbn [p_oldId p_rType p_document p_timestamp p_source].
    apply N.eqb_neq in Hnz. rewrite Hnz. cbn [orb].
    rewrite updateDoc_hooked by done. cbv beta iota zeta.
    set (d := if ps_dateExistInSCD st2 then ps_document st2
              else setProperty _ _ (ps_document st2)).
    set (ts := if ps_dateExistInSCD st2 then (-1)%Z else ps_timestamp st2).
    assert (getId d = id) as Hgid.
    { subst d. by destruct (ps_dateExistInSCD st2). }
    assert (is_Some (properties d !! name)) as Hk.
    { subst d.
      assert (is_Some (properties (ps_document st2) !! name)) as Hk.
      { apply H7. rewrite lookup_insert_eq. eauto. }
      destruct (ps_dateExistInSCD st2); [done|]. by apply setProperty_keeps. }
    set (w1 := if emptyString (ps_source st2) then w
               else countSource (ps_source st2) w).
    assert (idManager_ w1 = idManager_ w ∧ documentManager_ w1 = documentManager_ w
            ∧ indexManager_ w1 = indexManager_ w) as (Hi1 & Hd1 & Hm1).
    { subst w1. by destruct (emptyString (ps_source st2)). }
    unfold preparePartialDocument_. rewrite Hd1, Hgid, HoldDoc.
    set (ok := updatePartialDocument_answer E (documentManager_ w) d).
    split.
    + destruct ok; simpl; by rewrite Hi1.
    + eexists d, ok, _, ts. cbv zeta.
      split; [done|]. split; [|split].
      * destruct ok; simpl; by rewrite Hd1.
      * intros Hok.
        destruct (prepareIndexDocument_ids id ts d w name Hall Hname Hcfg Hk Hok)
          as [_ ->]. done.
      * destruct ok; simpl; rewrite Hm1; [done|by rewrite app_nil_r].
  - intros fv upd old new Hcheck Hupd Hnz HoldDoc.
    unfold prepareDocId in Hprep. rewrite Hins, Hfv in Hprep. fold doc in Hprep.
    rewrite Hcheck in Hprep. cbv beta iota zeta in Hprep. cbn [andb negb] in Hprep.
    unfold createUpdateDocId_ in Hprep. fold scdDocId in Hprep.
    rewrite Hupd in Hprep. cbn [ids_ok ids_old ids_new negb] in Hprep.
    destruct Hprep as (st2 & (H1 & H2 & H3 & H4 & H5 & H6 & H7) & Hprep).
    simpl in H1, H2, H3, H4, H6, H7.
    subst w'. unfold processDocument. rewrite Hprep. unfold finishDocument.
    rewrite H3, H4, H2. cbn [negb andb]. cbv beta iota zeta.
    set (d := if ps_dateExistInSCD st2 then ps_document st2
              else setProperty _ _ (ps_document st2)).
    set (ts := if ps_dateExistInSCD st2 then (-1)%Z else ps_timestamp st2).
    assert (getId d = new) as Hgid.
    { subst d. by destruct (ps_dateExistInSCD st2). }
    assert (is_Some (properties d !! name)) as Hk.
    { subst d.
      assert (is_Some (properties (ps_document st2) !! name)) as Hk.
      { apply H7. rewrite lookup_insert_eq. eauto. }
      destruct (ps_dateExistInSCD st2); [done|]. by apply setProperty_keeps. }
    unfold completePartialDocument_. cbn [documentManager_ idCall]. rewrite HoldDoc.
    set (d' := {| getId := getId d; properties := properties d ∪ properties oldDoc |}).
    assert (is_Some (properties d' !! name)) as Hk'.
    { subst d'. simpl. apply lookup_union_is_Some. by left. }
    cbn [p_oldId p_rType p_document p_timestamp p_source].
    apply N.eqb_neq in Hnz. rewrite Hnz. cbn [orb].
    rewrite updateDoc_hooked by done. cbv beta iota zeta.
    set (w0 := idCall (IdUpdate scdDocId (Some (old, new))) w).
    set (w1 := if emptyString (ps_source st2) then w0
               else countSource (ps_source st2) w0).
    assert (idManager_ w1 = idManager_ w ++ [IdUpdate scdDocId (Some (old, new))]
            ∧ documentManager_ w1 = documentManager_ w
            ∧ indexManager_ w1 = indexManager_ w) as (Hi1 & Hd1 & Hm1).
    { subst w1. by destruct (emptyString (ps_source st2)). }
    set (prepared := prepareIndexDocument_ old ts d' w0).
    set (removed := removeDocument_answer E (documentManager_ w1)
                      (idoc_getId prepared.2)).
    set (ok := insertDocument_answer E _ d').
    split.
    + destruct ok; simpl; by rewrite Hi1.
    + eexists d', removed, ok, ts. cbv zeta. fold w0. fold prepared.
      split; [done|]. split; [|split].
      * destruct ok; simpl; rewrite Hd1; by rewrite <- app_assoc.
      * intros Hok. subst prepared.
        destruct (prepareIndexDocument_ids old ts d' w0 name Hall Hname Hcfg Hk' Hok)
          as [-> ->]. done.
      * destruct ok; simpl; rewrite Hm1; [done|by rewrite app_nil_r].
Qed.

(** *** Facts about deletes *)

(** The docids passed to [removeDocument] of the document store, those the
    store did remove, and the docids passed to [removeDocument] of the
    index. *)
Definition dmRemovals (cs : list DmCall) : list docid_t :=
  omap (λ c, match c with DmRemove id _ => Some id | _ => None end) cs.

Definition isImRemove (c : ImCall) : Prop :=
  match c with ImRemove _ _ => True | _ => False end.









End Worker.

(** *** A concrete collection *)

Definition cfgDocId : PropertyConfig :=
  {| propertyName_ := "DOCID"; propertyId_ := 1; propertyType_ := STRING_PROPERTY_TYPE;
     isIndex := false; isAnalyzed := false; getIsFilter := false;
     getIsMultiValue := false; getIsStoreDocLen := false; analyzerId_ := "";
     getIsSnippet := false; getIsSummary := false; getSummaryNum := 0;
     getDisplayLength := 0 |}.
Definition cfgDate : PropertyConfig :=
  {| propertyName_ := "DATE"; propertyId_ := 2; propertyType_ := STRING_PROPERTY_TYPE;
     isIndex := true; isAnalyzed := false; getIsFilter := true;
     getIsMultiValue := false; getIsStoreDocLen := false; analyzerId_ := "";
     getIsSnippet := false; getIsSummary := false; getSummaryNum := 0;
     getDisplayLength := 0 |}.
(** [Title] is tokenized; [Price] is indexed, filterable and not analyzed. *)
Definition cfgTitle : PropertyConfig :=
  {| propertyName_ := "Title"; propertyId_ := 3; propertyType_ := STRING_PROPERTY_TYPE;
     isIndex := true; isAnalyzed := true; getIsFilter := false;
     getIsMultiValue := false; getIsStoreDocLen := true; analyzerId_ := "la_token";
     getIsSnippet := false; getIsSummary := false; getSummaryNum := 0;
     getDisplayLength := 0 |}.
Definition cfgPrice : PropertyConfig :=
  {| propertyName_ := "Price"; propertyId_ := 4; propertyType_ := INT_PROPERTY_TYPE;
     isIndex := true; isAnalyzed := false; getIsFilter := true;
     getIsMultiValue := false; getIsStoreDocLen := false; analyzerId_ := "";
     getIsSnippet := false; getIsSummary := false; getSummaryNum := 0;
     getDisplayLength := 0 |}.

(** The stored document of DOCID "A", docid 5. *)
Definition storedA : Document :=
  {| getId := 5;
     properties := {[ "DOCID" := PV_UString "A"; "Title" := PV_UString "x";
                      "Price" := PV_UString "10" ]} |}.

(** Doc names are their own lengths under [md5ToUint128] here: "A" is 1.
    The id manager knows "A" as docid 5 and gives 6 to its next version; it
    also knows the names of length 2 and 3, as docids 3 and 9.  The document
    store holds [storedA] and accepts every write. *)
Definition demoResolve (name : uint128_t) : option docid_t :=
  if (name =? 1)%N then Some 5%N
  else if (name =? 2)%N then Some 3%N
  else if (name =? 3)%N then Some 9%N
  else None.

Definition demoEnv : Env :=
  {| indexSchema_ := [cfgDocId; cfgDate; cfgTitle; cfgPrice];
     encoding_ := UTF_8;
     productSourceField_ := "";
     collectionId_ := 1;
     dateProperty_ := cfgDate;
     hooker_ := None;
     indexMultilangGranularity_ := FIELD_LEVEL;
     bIndexUnigramProperty_ := false;
     propertyAliasMap_ := λ _, [];
     propertyOrder := λ m, merge_sort (λ a b, String.leb a.1 b.1) (map_to_list m);
     getTermIdList := λ _ _ _ _, true;
     convertString := λ text _, text;
     md5ToUint128 := λ str, N.of_nat (String.length str);
     createTimeStampInSeconds := λ text, (0%Z, text);
     isoDateOf := λ _, "20120101120000";
     getOffsetPairs := λ _ _ _, (true, []);
     analyze := λ _ _, [];
     analyzeStopped := λ _ _ _, [];
     analyzeOld := λ _ _, [];
     getDocIdByDocName := λ _ name, demoResolve name;
     getDocIdByDocName_insert := λ _ name,
       if (name =? 1)%N then (true, 5%N) else (false, 7%N);
     updateDocIdByDocName := λ _ name,
       if (name =? 1)%N then Some (5%N, 6%N) else None;
     getDocument := λ _ id, if (id =? 5)%N then Some storedA else None;
     getPropertyValue := λ _ id name,
       if (id =? 5)%N then properties storedA !! name else None;
     getMaxDocId := λ _, 5%N;
     isDeleted := λ _ _, false;
     insertDocument_answer := λ _ _, true;
     removeDocument_answer := λ _ _, true;
     updatePartialDocument_answer := λ _ _, true |}.

Definition world0 : World :=
  {| idManager_ := []; documentManager_ := []; indexManager_ := [];
     productSourceCount_ := ∅; numUpdatedDocs_ := 0; numDeletedDocs_ := 0 |}.

(** Scenario 1 of the specification: an update of the price alone. *)
Example price_update_is_rtype :
  checkRtype_ demoEnv world0 [("DOCID", "A"); ("Price", "12")] ∅ false
  = (true, {[ "Price" := (INT_PROPERTY_TYPE, "12") ]}, true).
Proof. vm_compute. reflexivity. Qed.

(** Scenario 2: an update of the title. *)
Example title_update_is_not_rtype :
  checkRtype_ demoEnv world0 [("DOCID", "A"); ("Title", "y")] ∅ false
  = (false, ∅, false).
Proof. vm_compute. reflexivity. Qed.

Example price_update_keeps_docid :
  let w := processDocument demoEnv false 0 [("DOCID", "A"); ("Price", "12")] world0 in
  idManager_ w = []
  ∧ omap (λ c, match c with DmUpdatePartial d ok => Some (getId d, ok) | _ => None end)
         (documentManager_ w) = [(5%N, true)]
  ∧ length (documentManager_ w) = 1
  ∧ numUpdatedDocs_ w = 1%N.
Proof. vm_compute. repeat split. Qed.

Example title_update_replaces_docid :
  let w := processDocument demoEnv false 0 [("DOCID", "A"); ("Title", "y")] world0 in
  idManager_ w = [IdUpdate 1 (Some (5%N, 6%N))]
  ∧ map (λ c, match c with
              | DmRemove id ok => (id, ok)
              | DmInsert d ok | DmUpdatePartial d ok => (getId d, ok)
              end) (documentManager_ w) = [(5%N, true); (6%N, true)]
  ∧ map (λ c, match c with
              | ImUpdate d => (idoc_getId d, idoc_getDocId d)
              | _ => (0%N, 0%N)
              end) (indexManager_ w) = [(5%N, 6%N)].
Proof. vm_compute. repeat split. Qed.

(** What the document store was asked, in short: the docid concerned and
    the answer given. *)
Definition dmSummary (cs : list DmCall) : list (string * docid_t * bool) :=
  map (λ c, match c with
            | DmInsert d ok => ("insert", getId d, ok)
            | DmRemove id ok => ("remove", id, ok)
            | DmUpdatePartial d ok => ("updatePartial", getId d, ok)
            end) cs.

(** Scenario 3 and the ordering of deletes: "A", "BB" and "CCC" are docids
    5, 3 and 9; "ZZZZ" does not resolve. *)
Example delete_in_docid_order :
  let r := deleteSCD_ demoEnv (Some ["CCC"; "A"; "ZZZZ"; "BB"]) 0 world0 in
  r.1 = true
  ∧ dmSummary (documentManager_ r.2)
    = [("remove", 3%N, true); ("remove", 5%N, true); ("remove", 9%N, true)]
  ∧ indexManager_ r.2 = [ImRemove 1 3; ImRemove 1 5; ImRemove 1 9]
  ∧ numDeletedDocs_ r.2 = 3%N.
Proof. vm_compute. repeat split. Qed.

Example delete_nonexistent :
  deleteSCD_ demoEnv (Some ["ZZZZ"]) 0 world0 = (true, world0).
Proof. vm_compute. reflexivity. Qed.

(** C9, as stated, fails: the update below names the stored document "A"
    and repeats its title unchanged, with the DOCID as second property.
    [checkRtype_] compares the title with what the store holds under docid 0,
    finds nothing, and leaves its loop; the update is carried out in full. *)
Lemma unchanged_update_with_late_docid_is_reindexed :
  let doc := [("Title", "x"); ("DOCID", "A")] in
  let w := processDocument demoEnv false 0 doc world0 in
  getDocIdByDocName demoEnv (idManager_ world0) (md5ToUint128 demoEnv "A") = Some 5%N
  ∧ getPropertyValue demoEnv (documentManager_ world0) 5 "Title" = Some (PV_UString "x")
  ∧ checkRtype_ demoEnv world0 doc ∅ false = (false, ∅, false)
  ∧ (prepareDocument_ demoEnv doc 0 false world0).1 ≠ None
  ∧ dmSummary (documentManager_ w) = [("remove", 5%N, true); ("insert", 6%N, true)]
  ∧ documentManager_ w ≠ documentManager_ world0
  ∧ indexManager_ w ≠ indexManager_ world0.
Proof.
  cbv zeta. split; [reflexivity|]. split; [reflexivity|].
  split; [vm_compute; reflexivity|].
  split; [vm_compute; discriminate|].
  split; [vm_compute; reflexivity|].
  split; vm_compute; discriminate.
Qed.

Lemma unchanged_update_is_skipped_witness :
  iequals "DOCID" DOCID = true
  ∧ is_Some (findProperty demoEnv "DOCID")
  ∧ getDocIdByDocName demoEnv (idManager_ world0)
      (md5ToUint128 demoEnv (convertString demoEnv "A" UTF_8)) = Some 5%N
  ∧ Forall (unchanged demoEnv world0 5) [("Price", "10"); ("Title", "x")]
  ∧ processDocument demoEnv false 0
      [("DOCID", "A"); ("Price", "10"); ("Title", "x")] world0 = world0.
Proof.
  assert (is_Some (findProperty demoEnv "DOCID")) as H2.
  { exists cfgDocId. reflexivity. }
  assert (Forall (unchanged demoEnv world0 5) [("Price", "10"); ("Title", "x")])
    as H4.
  { repeat constructor.
    - exists cfgPrice, "10". repeat split.
    - exists cfgTitle, "x". repeat split. }
  split; [reflexivity|]. split; [exact H2|]. split; [reflexivity|].
  split; [exact H4|].
  exact (proj1 (proj2 (unchanged_update_is_skipped demoEnv world0 "DOCID" "A"
                         [("Price", "10"); ("Title", "x")] 5%N 0%Z
                         eq_refl H2 eq_refl H4))).
Defined.


Lemma demoEnv_visitsEveryProperty : visitsEveryProperty demoEnv.
Proof.
  intros m k v Hk. cbn [propertyOrder demoEnv].
  rewrite merge_sort_Permutation. by apply elem_of_map_to_list.
Qed.

Lemma prepared_update_keeps_or_replaces_docid_witness :
  oneDocId demoEnv [] "DOCID" [("Price", "12")]
  ∧ hookLetsUpdatesPass demoEnv
  ∧ checkRtype_ demoEnv world0 [("DOCID", "A"); ("Price", "12")] ∅ false
    = (true, {[ "Price" := (INT_PROPERTY_TYPE, "12") ]}, true)
  ∧ idManager_ (processDocument demoEnv false 0 [("DOCID", "A"); ("Price", "12")] world0)
    = idManager_ world0.
Proof.
  assert (oneDocId demoEnv [] "DOCID" [("Price", "12")]) as H1.
  { split; [reflexivity|]. split; [reflexivity|]. split; [|reflexivity].
    exists cfgDocId. reflexivity. }
  assert (hookLetsUpdatesPass demoEnv) as H2.
  { exact I. }
  assert (checkRtype_ demoEnv world0 [("DOCID", "A"); ("Price", "12")] ∅ false
          = (true, {[ "Price" := (INT_PROPERTY_TYPE, "12") ]}, true)) as H3.
  { vm_compute. reflexivity. }
  split; [exact H1|]. split; [exact H2|]. split; [exact H3|].
  exact (proj1 (proj2 (proj1 (prepared_update_keeps_or_replaces_docid demoEnv world0 []
                                "DOCID" "A" [("Price", "12")] 0%Z storedA H1 H2
                                demoEnv_visitsEveryProperty)
                         _ 5%N H3 eq_refl ltac:(discriminate) eq_refl))).
Defined.

(** *** A collection whose language analysis refuses a property *)

(** [Author] is tokenized as [Title] is. *)
Definition cfgAuthor : PropertyConfig :=
  {| propertyName_ := "Author"; propertyId_ := 5; propertyType_ := STRING_PROPERTY_TYPE;
     isIndex := true; isAnalyzed := true; getIsFilter := false;
     getIsMultiValue := false; getIsStoreDocLen := true; analyzerId_ := "la_token";
     getIsSnippet := false; getIsSummary := false; getSummaryNum := 0;
     getDisplayLength := 0 |}.

(** The collection of [demoEnv] with the property [Author] added to its
    schema.  [getTermIdList] fails for the property [refused], and the
    document store has nothing to remove under docid 0. *)
Definition refusingEnv (refused : string) : Env :=
  {| indexSchema_ := [cfgAuthor; cfgDocId; cfgDate; cfgTitle; cfgPrice];
     encoding_ := encoding_ demoEnv;
     productSourceField_ := productSourceField_ demoEnv;
     collectionId_ := collectionId_ demoEnv;
     dateProperty_ := dateProperty_ demoEnv;
     hooker_ := hooker_ demoEnv;
     indexMultilangGranularity_ := indexMultilangGranularity_ demoEnv;
     bIndexUnigramProperty_ := bIndexUnigramProperty_ demoEnv;
     propertyAliasMap_ := propertyAliasMap_ demoEnv;
     propertyOrder := propertyOrder demoEnv;
     getTermIdList := λ _ _ analysis _,
       negb (String.eqb (propertyName_ analysis) refused);
     convertString := convertString demoEnv;
     md5ToUint128 := md5ToUint128 demoEnv;
     createTimeStampInSeconds := createTimeStampInSeconds demoEnv;
     isoDateOf := isoDateOf demoEnv;
     getOffsetPairs := getOffsetPairs demoEnv;
     analyze := analyze demoEnv;
     analyzeStopped := analyzeStopped demoEnv;
     analyzeOld := analyzeOld demoEnv;
     getDocIdByDocName := getDocIdByDocName demoEnv;
     getDocIdByDocName_insert := getDocIdByDocName_insert demoEnv;
     updateDocIdByDocName := updateDocIdByDocName demoEnv;
     getDocument := getDocument demoEnv;
     getPropertyValue := getPropertyValue demoEnv;
     getMaxDocId := getMaxDocId demoEnv;
     isDeleted := isDeleted demoEnv;
     insertDocument_answer := insertDocument_answer demoEnv;
     removeDocument_answer := λ _ id, negb (id =? 0)%N;
     updatePartialDocument_answer := updatePartialDocument_answer demoEnv |}.

(** What the index was asked to update: the docid to replace and the docid
    of the document. *)
Definition imUpdates (cs : list ImCall) : list (docid_t * docid_t) :=
  omap (λ c, match c with
             | ImUpdate d => Some (idoc_getId d, idoc_getDocId d)
             | _ => None
             end) cs.

(** C2: the update below names the stored document "A", docid 5, and is not
    R-type; the id manager issues docid 6 for it.  The properties of the
    prepared document are visited in the order of their names, so [Author]
    comes before [DOCID]; its forward index fails and
    [prepareIndexDocument_] returns [false] with the index document still
    cleared.  The result is not looked at: [updateDoc_] takes the docid to
    remove from the index document, asks the document store to remove
    docid 0, and inserts the document under docid 6.  The document of
    docid 5 is never removed, and the index is told to replace docid 0 by
    docid 0.  When the property that fails comes after [DOCID], as [Title]
    does in a collection that refuses it, docid 5 is removed and the index
    replaces docid 5 by docid 6. *)
Theorem failed_forward_index_leaves_old_document :
  let E := refusingEnv "Author" in
  let doc := [("DOCID", "A"); ("Author", "bad")] in
  let w := processDocument E false 0 doc world0 in
  let later :=
    processDocument (refusingEnv "Title") false 0
      [("DOCID", "A"); ("Title", "bad")] world0 in
  getDocIdByDocName E (idManager_ world0) (md5ToUint128 E "A") = Some 5%N
  ∧ getDocument E (documentManager_ world0) 5 = Some storedA
  ∧ checkRtype_ E world0 doc ∅ false = (false, ∅, false)
  ∧ (∃ p w1, prepareDocument_ E doc 0 false world0 = (Some p, w1)
       ∧ p_oldId p = 5%N ∧ getId (p_document p) = 6%N ∧ p_rType p = false
       ∧ (prepareIndexDocument_ E (p_oldId p) (p_timestamp p)
            (p_document p) w1).1 = false)
  ∧ idManager_ w = [IdUpdate 1 (Some (5%N, 6%N))]
  ∧ dmSummary (documentManager_ w) = [("remove", 0%N, false); ("insert", 6%N, true)]
  ∧ (5%N ∉ dmRemovals (documentManager_ w))
  ∧ imUpdates (indexManager_ w) = [(0%N, 0%N)]
  ∧ numUpdatedDocs_ w = 1%N
  ∧ dmSummary (documentManager_ later) = [("remove", 5%N, true); ("insert", 6%N, true)]
  ∧ imUpdates (indexManager_ later) = [(5%N, 6%N)].
Proof.
  cbv zeta. split; [reflexivity|]. split; [reflexivity|].
  split; [vm_compute; reflexivity|].
  split.
  { eexists _, _. split; [vm_compute; reflexivity|]. by vm_compute. }
  split; [vm_compute; reflexivity|].
  split; [vm_compute; reflexivity|].
  split; [|repeat split; vm_compute; reflexivity].
  assert (dmRemovals (documentManager_
            (processDocument (refusingEnv "Author") false 0
               [("DOCID", "A"); ("Author", "bad")] world0)) = [0%N]) as ->.
  { vm_compute. reflexivity. }
  intros H. apply list_elem_of_singleton in H. discriminate.
Qed.

End IndexWorker.

(* ===================================================================== *)
(** ** More of the job scheduler: shutdown and the order of effects *)
(* ===================================================================== *)

Module JobSchedulerFacts.
Import JobScheduler.

(** A callable that always returns, given by what it does to the world. *)
Definition returning {World : Type} (f : World → World) : task_type World :=
  λ w, Returns (f w).

Lemma runLoop_interrupted {World : Type} (intr : nat → bool)
    (queue : list (task_type World)) : ∀ k0 k w,
  Forall alwaysReturns queue →
  k < length queue →
  (∀ n, n < k → intr (k0 + n) = false) →
  intr (k0 + k) = true →
  started (runLoop intr k0 queue w) = take (S k) queue
  ∧ worker_end (runLoop intr k0 queue w) = ReturnedOnInterrupt.
Proof.
  induction queue as [|t q IH]; intros k0 k w Hall Hk Hbefore Hat; simpl in Hk.
  { lia. }
  apply Forall_cons in Hall as [Ht Hall]. simpl.
  destruct (Ht w) as [w' ->].
  destruct k as [|k].
  - rewrite Nat.add_0_r in Hat. rewrite Hat. simpl. by rewrite take_0.
  - assert (intr k0 = false) as ->.
    { rewrite <- (Nat.add_0_r k0). apply Hbefore. lia. }
    simpl. destruct (IH (S k0) k w' Hall) as [-> ->]; try done.
    + lia.
    + intros n Hn. replace (S k0 + n) with (k0 + S n) by lia. apply Hbefore. lia.
    + by replace (S k0 + k) with (k0 + S k) by lia.
Qed.

(** On shutdown the unstarted tasks are discarded: when [close()]
    interrupts the worker and the interruption is first seen at the
    interruption point after the task at position [k], the worker has called
    the tasks up to that one, leaves through its handler, and calls none of
    the tasks behind it. *)
Theorem interruption_discards_unstarted_tasks
    {World : Type} (intr : nat → bool) (queue : list (task_type World))
    (k : nat) (w : World) :
  Forall alwaysReturns queue →
  k < length queue →
  (∀ n, n < k → intr n = false) →
  intr k = true →
  started (runAsynchronousTasks_ intr queue w) = take (S k) queue
  ∧ worker_end (runAsynchronousTasks_ intr queue w) = ReturnedOnInterrupt.
Proof.
  intros Hall Hk Hbefore Hat. unfold runAsynchronousTasks_.
  by apply (runLoop_interrupted intr queue 0 k w).
Qed.

Lemma interruption_discards_unstarted_tasks_witness :
  started (runAsynchronousTasks_ (λ n, Nat.eqb n 1) [bump; bump; bump] 0)
  = [bump; bump].
Proof.
  refine (proj1 (interruption_discards_unstarted_tasks (λ n, Nat.eqb n 1)
                   [bump; bump; bump] 1 0 _ _ _ _)).
  - repeat constructor; intros w; by eexists.
  - simpl. lia.
  - intros n Hn. assert (n = 0) as -> by lia. reflexivity.
  - reflexivity.
Defined.

Lemma runLoop_world {World : Type} (intr : nat → bool) (fs : list (World → World)) :
  ∀ k0 w,
  (∀ n, intr n = false) →
  world_after (runLoop intr k0 (map returning fs) w) = foldl (λ w f, f w) w fs.
Proof.
  induction fs as [|f fs IH]; intros k0 w Hno; simpl; [done|].
  rewrite Hno. simpl. by apply IH.
Qed.

(** Tasks run one after the other on one thread: each task finds the world
    as the task enqueued before it left it. *)
Theorem each_task_sees_its_predecessors_effects
    {World : Type} (intr : nat → bool) (fs : list (World → World)) (w : World) :
  (∀ n, intr n = false) →
  world_after (runAsynchronousTasks_ intr (map returning fs) w)
  = foldl (λ w f, f w) w fs.
Proof. intros Hno. by apply runLoop_world. Qed.

Lemma each_task_sees_its_predecessors_effects_witness :
  world_after (runAsynchronousTasks_ never (map returning [S; Nat.double; S]) 3) = 9.
Proof.
  exact (each_task_sees_its_predecessors_effects never [S; Nat.double; S] 3
           (λ _, eq_refl)).
Defined.

End JobSchedulerFacts.

(* ===================================================================== *)
(** ** When the index worker backs up: [requireBackup_] *)
(* ===================================================================== *)

Module BackupPolicy.
Import DirectoryBackup.

(** [size_t] arithmetic. *)
Definition wrap (n : N) : N := (n mod 2 ^ 64)%N.

(** [getTotalScdSize_] (lines 2691-2713), given the sizes in bytes of the
    regular files of the bundle directory whose names pass
    [checkSCDFormat]: the sum in megabytes, rounded down. *)
Definition getTotalScdSize_ (fileSizes : list N) : N :=
  (foldl (λ sizeInBytes size, wrap (sizeInBytes + size)) 0 fileSizes / (1024 * 1024))%N.

Record BackupState := {
  totalSCDSizeSinceLastBackup_ : N;
  directoryRotator_ : DirectoryRotator
}.

(** [static size_t threshold = 200;] *)
Definition threshold : N := 200.

(** [requireBackup_] (lines 2715-2732). *)
Definition requireBackup_ (currTotalScdSizeInMB : N) (st : BackupState)
  : bool * BackupState :=
  let total := wrap (totalSCDSizeSinceLastBackup_ st + currTotalScdSizeInMB) in
  let st' := {| totalSCDSizeSinceLastBackup_ := total;
                directoryRotator_ := directoryRotator_ st |} in
  let current := currentDirectory (directoryRotator_ st) in
  match nextDirectory (directoryRotator_ st) with
  | Some next =>
      if negb (String.eqb (name current) (name next))
      then ((threshold <? total)%N, st')
      else (false, st')
  | None => (false, st')
  end.

Record PassEnd := {
  pass_result : bool;
  pass_state : BackupState;
  pass_copyFromCalls : nat
}.

(** The end of [IndexWorker::buildCollection] (lines 1165-1176), for a pass
    that got that far: [fsOk] says whether the filesystem lets a copy
    through. *)
Definition backupIfRequired (currTotalSCDSize : N) (fsOk : bool) (st : BackupState)
  : PassEnd :=
  let '(required, st1) := requireBackup_ currTotalSCDSize st in
  if required
  then
    let b := backup_ fsOk (directoryRotator_ st1) in
    if result b
    then {| pass_result := true;
            pass_state := {| totalSCDSizeSinceLastBackup_ := 0;
                             directoryRotator_ := rotator_after b |};
            pass_copyFromCalls := copyFromCalls b |}
    else {| pass_result := false;
            pass_state := {| totalSCDSizeSinceLastBackup_ :=
                               totalSCDSizeSinceLastBackup_ st1;
                             directoryRotator_ := rotator_after b |};
            pass_copyFromCalls := copyFromCalls b |}
  else {| pass_result := true; pass_state := st1; pass_copyFromCalls := 0 |}.

(** Passes one after the other, each with its size and its filesystem:
    the results, and the number of [copyFrom] calls made in all. *)
Fixpoint passes (sizes : list (N * bool)) (st : BackupState)
  : list bool * BackupState * nat :=
  match sizes with
  | [] => ([], st, 0)
  | (size, fsOk) :: rest =>
      let e := backupIfRequired size fsOk st in
      let '(results, st', copies) := passes rest (pass_state e) in
      (pass_result e :: results, st', pass_copyFromCalls e + copies)
  end.

Definition sumSizes (sizes : list (N * bool)) : N :=
  foldr (λ p acc, (p.1 + acc)%N) 0%N sizes.

Definition freshState : BackupState :=
  {| totalSCDSizeSinceLastBackup_ := 0; directoryRotator_ := rotatorStale |}.

(** Scenario 6 of the specification: passes of 150 and 120 megabytes. *)
Example backup_at_second_pass :
  passes [(150%N, true); (120%N, true)] freshState
  = ([true; true],
     {| totalSCDSizeSinceLastBackup_ := 0; directoryRotator_ := rotatorCopied |},
     1).
Proof. reflexivity. Qed.

Example no_backup_at_exactly_200 :
  passes [(150%N, true); (50%N, true)] freshState
  = ([true; true],
     {| totalSCDSizeSinceLastBackup_ := 200; directoryRotator_ := rotatorStale |},
     0).
Proof. reflexivity. Qed.

Lemma wrap_small n : (n < 2 ^ 64)%N → wrap n = n.
Proof. intros H. unfold wrap. by apply N.mod_small. Qed.

Lemma backupIfRequired_quiet size fsOk st :
  (totalSCDSizeSinceLastBackup_ st + size ≤ threshold)%N →
  backupIfRequired size fsOk st
  = {| pass_result := true;
       pass_state := {| totalSCDSizeSinceLastBackup_ :=
                          (totalSCDSizeSinceLastBackup_ st + size)%N;
                        directoryRotator_ := directoryRotator_ st |};
       pass_copyFromCalls := 0 |}.
Proof.
  intros Hle. unfold backupIfRequired, requireBackup_.
  rewrite wrap_small by (unfold threshold in Hle; lia).
  assert ((threshold <? totalSCDSizeSinceLastBackup_ st + size)%N = false) as Hlt.
  { apply N.ltb_ge. lia. }
  destruct (nextDirectory (directoryRotator_ st)) as [next|]; [|done].
  destruct (negb _); [|done]. by rewrite Hlt.
Qed.

(** As long as the bundle sizes added up since the last backup stay within
    200 megabytes, no pass copies the index directory: every pass ends well,
    [copyFrom] is never called, the directory pair stays as it is and the
    counter holds the sum. *)
Theorem no_copy_within_threshold (sizes : list (N * bool)) (st : BackupState) :
  (totalSCDSizeSinceLastBackup_ st + sumSizes sizes ≤ threshold)%N →
  passes sizes st
  = (map (λ _, true) sizes,
     {| totalSCDSizeSinceLastBackup_ :=
          (totalSCDSizeSinceLastBackup_ st + sumSizes sizes)%N;
        directoryRotator_ := directoryRotator_ st |},
     0).
Proof.
  revert st. induction sizes as [|[size fsOk] rest IH]; intros st Hle; simpl.
  - rewrite N.add_0_r. by destruct st.
  - change (sumSizes ((size, fsOk) :: rest)) with (size + sumSizes rest)%N in *.
    rewrite backupIfRequired_quiet by lia. cbn [pass_state pass_result pass_copyFromCalls].
    rewrite IH by (simpl; lia). simpl. by rewrite N.add_assoc.
Qed.

Lemma no_copy_within_threshold_witness :
  (passes [(150%N, false); (50%N, true)] freshState).2 = 0.
Proof.
  refine (f_equal snd (no_copy_within_threshold [(150%N, false); (50%N, true)]
                         freshState _)).
  vm_compute. discriminate.
Defined.

(** Beyond 200 megabytes, with a next directory under another name, the
    pass copies.  A copy that succeeds sets the counter to 0 and leaves a
    valid copy of the current directory, so that a following pass of up to
    200 megabytes does not copy; a copy that fails makes the pass fail and
    keeps the counter, so that the following pass copies again whatever its
    size. *)
Theorem copy_resets_counter_and_failure_retries
    (size size' : N) (fsOk fsOk' : bool) (st : BackupState) (next : Directory) :
  nextDirectory (directoryRotator_ st) = Some next →
  name (currentDirectory (directoryRotator_ st)) ≠ name next →
  (threshold < totalSCDSizeSinceLastBackup_ st + size)%N →
  (totalSCDSizeSinceLastBackup_ st + size + size' < 2 ^ 64)%N →
  let e := backupIfRequired size fsOk st in
  let e' := backupIfRequired size' fsOk' (pass_state e) in
  pass_copyFromCalls e = 1
  ∧ pass_result e = fsOk
  ∧ (fsOk = true →
     totalSCDSizeSinceLastBackup_ (pass_state e) = 0%N
     ∧ (∃ next', nextDirectory (directoryRotator_ (pass_state e)) = Some next'
                 ∧ copiedSuccessfully (currentDirectory (directoryRotator_ st)) next'
                   = true
                 ∧ content next' = content (currentDirectory (directoryRotator_ st)))
     ∧ ((size' ≤ threshold)%N → pass_copyFromCalls e' = 0))
  ∧ (fsOk = false →
     pass_state e
     = {| totalSCDSizeSinceLastBackup_ := (totalSCDSizeSinceLastBackup_ st + size)%N;
          directoryRotator_ := directoryRotator_ st |}
     ∧ pass_copyFromCalls e' = 1).
Proof.
  intros Hnext Hne Hover Hfit e e'.
  assert (negb (name (currentDirectory (directoryRotator_ st)) =? name next)%string
          = true) as Hneb.
  { apply negb_true_iff. by apply String.eqb_neq. }
  assert (∀ fs, backupIfRequired size fs st
    = if fs
      then {| pass_result := true;
              pass_state :=
                {| totalSCDSizeSinceLastBackup_ := 0;
                   directoryRotator_ :=
                     withNext (directoryRotator_ st)
                       {| name := name next;
                          parentName := name (currentDirectory (directoryRotator_ st));
                          valid := true;
                          content := content (currentDirectory (directoryRotator_ st)) |} |};
              pass_copyFromCalls := 1 |}
      else {| pass_result := false;
              pass_state :=
                {| totalSCDSizeSinceLastBackup_ :=
                     (totalSCDSizeSinceLastBackup_ st + size)%N;
                   directoryRotator_ := directoryRotator_ st |};
              pass_copyFromCalls := 1 |}) as Hfirst.
  { intros fs. unfold backupIfRequired, requireBackup_.
    rewrite wrap_small by lia. rewrite Hnext, Hneb.
    assert ((threshold <? totalSCDSizeSinceLastBackup_ st + size)%N = true) as ->.
    { by apply N.ltb_lt. }
    unfold backup_. simpl directoryRotator_. rewrite Hnext, Hneb.
    by destruct fs. }
  subst e e'. rewrite Hfirst.
  split; [by destruct fsOk|]. split; [by destruct fsOk|]. split.
  - intros ->. split; [done|]. split.
    + eexists. split; [done|]. split; [|done].
      unfold copiedSuccessfully. simpl. by rewrite String.eqb_refl.
    + intros Hsmall. rewrite backupIfRequired_quiet; [done|]. simpl. lia.
  - intros ->. split; [done|].
    unfold backupIfRequired, requireBackup_. simpl.
    rewrite wrap_small by lia. rewrite Hnext, Hneb.
    assert ((threshold <? totalSCDSizeSinceLastBackup_ st + size + size')%N = true)
      as ->.
    { apply N.ltb_lt. lia. }
    unfold backup_. simpl. rewrite Hnext, Hneb. by destruct fsOk'.
Qed.

Lemma copy_resets_counter_and_failure_retries_witness :
  pass_copyFromCalls (backupIfRequired 201 false freshState) = 1.
Proof.
  refine (proj1 (copy_resets_counter_and_failure_retries 201 0 false true freshState
                   dirB_stale eq_refl _ _ _)).
  - discriminate.
  - reflexivity.
  - reflexivity.
Defined.

End BackupPolicy.

(* ===================================================================== *)
(** ** More of the recommend service *)
(* ===================================================================== *)

Module RecommendFacts.
Import DirectoryBackup Recommend.

Section Service.
Variable E : Env.

(** [purchaseItem] (lines 350-357). *)
Definition purchaseItem
    (userIdStr orderIdStr : string) (orderItemVec : OrderItemVec) (w : World)
  : bool * World :=
  saveOrder_ E userIdStr orderIdStr orderItemVec purchaseMatrix_ w.

(** The item generator knows the item string under this id. *)
Definition resolves (it : OrderItem) (id : itemid_t) : Prop :=
  strIdToItemId E (itemIdStr_ it) = Some id.

Definition unresolved (it : OrderItem) : Prop :=
  strIdToItemId E (itemIdStr_ it) = None.

(** The calls by which an order read from a bundle file reaches the
    stores. *)
Definition isBulkOrderCall (c : Call) : Prop :=
  match c with
  | AddOrder _ => True
  | AddPurchaseItem _ _ matrix _ => matrix = purchaseCoVisitMatrix_
  | _ => False
  end.

Definition noQuery (it : OrderItem) : Prop := query_ it = "".

(** The order-items of one [saveOrder_] call, each with the user and the
    order-id it was saved under. *)
Definition itemsOf (e : string * string * OrderItemVec)
  : list (string * string * OrderItem) :=
  map (λ it, (e.1.1, e.1.2, it)) e.2.

(** The order-items held in the [OrderMap]. *)
Definition stagedItems (orderMap : gmap (string * string) OrderItemVec)
  : list (string * string * OrderItem) :=
  map_to_list orderMap ≫= (λ e, itemsOf (asSaved e)).

(** The value a record gives for a property: [docMap[propName] = value]
    is run for every pair of the record in turn, so the last one stays. *)
Definition lastOf (key : string) (doc : SCDDoc) : option string :=
  last (omap (λ kv : string * string,
                if String.eqb kv.1 key then Some kv.2 else None) doc).

Definition lastValue (key : string) (doc : SCDDoc) : string :=
  default "" (lastOf key doc).

(** The store call a user record of a file of the given type leads to. *)
Definition userCallFor (scdType : SCD_TYPE) (user : User) (c : Call) : Prop :=
  match scdType, c with
  | INSERT_SCD, AddUser u _ => u = user
  | UPDATE_SCD, UpdateUser u _ => u = user
  | DELETE_SCD, RemoveUser userIdStr _ => userIdStr = idStr_ user
  | _, _ => False
  end.

(** *** Item conversion and rejected orders *)

Lemma convertOrderItemVec_Some items : ∀ ids,
  convertOrderItemVec_ E items = Some ids ↔ Forall2 resolves items ids.
Proof.
  induction items as [|it items IH]; intros ids; simpl.
  - split.
    + intros [= <-]. constructor.
    + intros H. by inversion H.
  - unfold resolves at 1. split.
    + destruct (strIdToItemId E (itemIdStr_ it)) as [id|] eqn:Hid; [|done].
      destruct (convertOrderItemVec_ E items) as [ids'|] eqn:Hc; [|done].
      intros [= <-]. constructor; [done|]. by apply IH.
    + intros H. inversion H as [|? id ? ids' Hr Hrest]; subst.
      unfold resolves in Hr. rewrite Hr.
      apply IH in Hrest. by rewrite Hrest.
Qed.

Lemma convertOrderItemVec_None items :
  convertOrderItemVec_ E items = None ↔ Exists unresolved items.
Proof.
  induction items as [|it items IH]; simpl.
  - split; [done|]. intros H. inversion H.
  - split.
    + destruct (strIdToItemId E (itemIdStr_ it)) as [id|] eqn:Hid.
      * destruct (convertOrderItemVec_ E items) as [ids'|]; [done|].
        intros _. apply Exists_cons_tl. by apply IH.
      * intros _. by apply Exists_cons_hd.
    + intros H. inversion H as [? ? Hu|? ? Hrest]; subst.
      * unfold unresolved in Hu. by rewrite Hu.
      * apply IH in Hrest. rewrite Hrest.
        by destruct (strIdToItemId E (itemIdStr_ it)).
Qed.

(** [convertOrderItemVec_] gives the ids of all items, position by
    position, or nothing: it fails exactly when some item string is unknown
    to the item generator. *)
Theorem conversion_is_all_or_nothing (items : OrderItemVec) :
  (∀ ids, convertOrderItemVec_ E items = Some ids ↔ Forall2 resolves items ids)
  ∧ (convertOrderItemVec_ E items = None ↔ Exists unresolved items).
Proof.
  split; [apply convertOrderItemVec_Some|apply convertOrderItemVec_None].
Qed.

Lemma insertPurchaseCounter_loop_noQuery items : ∀ ids result w,
  Forall noQuery items →
  insertPurchaseCounter_loop E items ids result w = (result, w).
Proof.
  induction items as [|it items IH]; intros ids result w Hnq; [done|].
  apply Forall_cons in Hnq as [Hq Hnq]. destruct ids as [|itemId ids]; [done|].
  simpl. unfold noQuery in Hq. rewrite Hq. change (emptyString "") with true.
  by apply IH.
Qed.

Lemma saveOrder_calls u o items m w :
  let r := saveOrder_ E u o items m w in
  match items, convertOrderItemVec_ E items with
  | _ :: _, Some ids =>
      ∃ okP cs, calls r.2 = calls w ++ AddOrder ids :: AddPurchaseItem u ids m okP :: cs
                ∧ Forall (λ c, match c with
                               | CounterGet _ _ | CounterUpdate _ _ _ => True
                               | _ => False
                               end) cs
                ∧ (Forall noQuery items → cs = [])
  | _, _ => calls r.2 = calls w ∧ r.1 = false
  end.
Proof.
  unfold saveOrder_. destruct items as [|it items]; [done|].
  destruct (convertOrderItemVec_ E (it :: items)) as [ids|] eqn:Hconv; [|done].
  cbv zeta. simpl calls.
  destruct (addPurchaseItem_answer E (calls w ++ [AddOrder ids]) u ids m) eqn:HokP.
  - unfold insertPurchaseCounter_.
    edestruct (insertPurchaseCounter_loop_calls E (it :: items) ids true)
      as (cs & Hc & _ & Hqs & Hall).
    { by apply convertOrderItemVec_length in Hconv. }
    exists true, cs. rewrite Hc. simpl. rewrite <- !app_assoc. simpl.
    split; [done|]. split; [done|].
    intros Hnq. rewrite insertPurchaseCounter_loop_noQuery in Hc by done.
    cbn [snd] in Hc. rewrite <- (app_nil_r (calls _)) in Hc at 1.
    by apply app_inv_head in Hc.
  - exists false, []. simpl. rewrite <- !app_assoc. simpl. done.
Qed.

(** An order that is empty, or that names an item unknown to the item
    generator, is turned down before any store is written, and these are the
    only orders that reach no store; so it is for [saveOrder_] on any
    matrix, and for [purchaseItem]. *)
Theorem rejected_order_reaches_no_store
    (u o : string) (items : OrderItemVec) (w : World) :
  let rejected := items = [] ∨ Exists unresolved items in
  (∀ m, let r := saveOrder_ E u o items m w in
        (calls r.2 = calls w ↔ rejected) ∧ (rejected → r.1 = false))
  ∧ (calls (purchaseItem u o items w).2 = calls w ↔ rejected)
  ∧ (rejected → (purchaseItem u o items w).1 = false).
Proof.
  intros rejected. subst rejected.
  assert (∀ m, let r := saveOrder_ E u o items m w in
            (calls r.2 = calls w ↔ items = [] ∨ Exists unresolved items)
            ∧ (calls r.2 = calls w → r.1 = false)) as Hall.
  2: { split; [|split].
       - intros m. destruct (Hall m) as [H1 H2]. split; [done|].
         intros H. by apply H2, H1.
       - apply (Hall purchaseMatrix_).
       - intros H. destruct (Hall purchaseMatrix_) as [H1 H2]. by apply H2, H1. }
  intros m r. subst r. pose proof (saveOrder_calls u o items m w) as H.
  cbv zeta in H. split.
  - destruct items as [|it items].
    { destruct H as [H _]. split; [by left|done]. }
    destruct (convertOrderItemVec_ E (it :: items)) as [ids|] eqn:Hconv.
    + destruct H as (okP & cs & Hc & _). split.
      * intros Heq. rewrite Hc in Heq. apply (f_equal length) in Heq.
        rewrite length_app in Heq. simpl in Heq. lia.
      * intros [?|Hex]; [done|]. apply convertOrderItemVec_None in Hex. congruence.
    + destruct H as [H _]. split; [|done]. intros _. right.
      by apply convertOrderItemVec_None.
  - destruct items as [|it items]; [by destruct H|].
    destruct (convertOrderItemVec_ E (it :: items)) as [ids|] eqn:Hconv;
      [|by destruct H].
    destruct H as (okP & cs & Hc & _). intros Heq. rewrite Hc in Heq.
    apply (f_equal length) in Heq. rewrite length_app in Heq. simpl in Heq. lia.
Qed.

(** *** Orders read from bundle files *)

(** [w'] has received bulk order calls on top of [w], and nothing else. *)
Definition bulkOnly (w w' : World) : Prop :=
  ∃ new, calls w' = calls w ++ new ∧ Forall isBulkOrderCall new.

Lemma bulkOnly_refl w : bulkOnly w w.
Proof. exists []. by rewrite app_nil_r. Qed.

Lemma bulkOnly_trans w1 w2 w3 : bulkOnly w1 w2 → bulkOnly w2 w3 → bulkOnly w1 w3.
Proof.
  intros (n1 & H1 & F1) (n2 & H2 & F2). exists (n1 ++ n2).
  rewrite H2, H1, <- app_assoc. split; [done|]. by apply Forall_app.
Qed.

Lemma bulkOnly_saveOrder u o items w :
  Forall noQuery items →
  bulkOnly w (saveOrder_ E u o items purchaseCoVisitMatrix_ w).2.
Proof.
  intros Hnq. pose proof (saveOrder_calls u o items purchaseCoVisitMatrix_ w) as H.
  cbv zeta in H.
  destruct items as [|it items].
  { destruct H as [H _]. exists []. by rewrite app_nil_r. }
  destruct (convertOrderItemVec_ E (it :: items)) as [ids|].
  - destruct H as (okP & cs & Hc & _ & Hcs). rewrite (Hcs Hnq) in Hc.
    eexists. split; [exact Hc|]. by repeat constructor.
  - destruct H as [H _]. exists []. by rewrite app_nil_r.
Qed.

Lemma bulkOnly_saveOrderMap (orderMap : gmap (string * string) OrderItemVec) (w : World) :
  map_Forall (λ _ items, Forall noQuery items) orderMap →
  bulkOnly w (saveOrderMap_ E orderMap w).
Proof.
  intros Hm. unfold saveOrderMap_.
  assert (Forall (λ e : string * string * OrderItemVec, Forall noQuery e.2)
            (inKeyOrder orderMap)) as Hl.
  { apply Forall_forall. intros [k v] Hin. apply inKeyOrder_elem in Hin.
    by apply (Hm k v). }
  revert w. induction Hl as [|e l He _ IH]; intros w; simpl.
  - apply bulkOnly_refl.
  - eapply bulkOnly_trans; [|apply IH]. by apply bulkOnly_saveOrder.
Qed.

Lemma doc2Order_noQuery doc u o item :
  doc2Order E doc = Some (u, o, item) → noQuery item.
Proof.
  unfold doc2Order.
  destruct (emptyString (docMapAt (docMapOf doc) PROP_USERID)); [done|].
  destruct (emptyString (docMapAt (docMapOf doc) PROP_ITEMID)); [done|].
  by intros [= <- <- <-].
Qed.

Lemma bulkOnly_orderRecord (w : World) (orderMap : gmap (string * string) OrderItemVec) doc :
  map_Forall (λ _ items, Forall noQuery items) orderMap →
  bulkOnly w (orderRecord E (w, orderMap) doc).1
  ∧ map_Forall (λ _ items, Forall noQuery items) (orderRecord E (w, orderMap) doc).2.
Proof.
  intros Hm. unfold orderRecord.
  destruct (doc2Order E doc) as [[[u o] item]|] eqn:Hd;
    [|split; [apply bulkOnly_refl|done]].
  apply doc2Order_noQuery in Hd. unfold loadOrderItem_.
  destruct (emptyString o).
  { split; [|done]. apply bulkOnly_saveOrder. by constructor. }
  destruct (orderMap !! (u, o)) as [items|] eqn:Hl.
  - split; [apply bulkOnly_refl|]. cbn [snd].
    apply map_Forall_insert_2; [|done].
    apply Forall_app. split; [by apply (Hm (u, o))|by constructor].
  - destruct (MAX_ORDER_NUM <=? size orderMap).
    + split; [by apply bulkOnly_saveOrderMap|]. cbn [snd].
      apply map_Forall_insert_2; [by constructor|apply map_Forall_empty].
    + split; [apply bulkOnly_refl|]. cbn [snd].
      apply map_Forall_insert_2; [by constructor|done].
Qed.

Lemma bulkOnly_orderLoop docs : ∀ (w : World) (orderMap : gmap (string * string) OrderItemVec),
  map_Forall (λ _ items, Forall noQuery items) orderMap →
  bulkOnly w (foldl (orderRecord E) (w, orderMap) docs).1
  ∧ map_Forall (λ _ items, Forall noQuery items)
      (foldl (orderRecord E) (w, orderMap) docs).2.
Proof.
  induction docs as [|doc docs IH]; intros w orderMap Hm; simpl.
  - split; [apply bulkOnly_refl|done].
  - destruct (bulkOnly_orderRecord w orderMap doc Hm) as [Hb Hm'].
    destruct (orderRecord E (w, orderMap) doc) as [w1 m1]. simpl in *.
    destruct (IH w1 m1 Hm') as [Hb' Hm''].
    split; [by eapply bulkOnly_trans|done].
Qed.

(** Whatever an order bundle file holds, reading it reaches the stores by
    [addOrder] and by [addPurchaseItem] on the purchase co-visit matrix
    only: [doc2Order] leaves the query of every order-item empty, so the
    query-purchase counter is never approached, and neither the purchase
    matrix nor the visit matrix is written. *)
Theorem order_files_write_orders_and_covisits_only (scdPath : Path) (w : World) :
  ∃ new,
    calls (parseOrderSCD_ E scdPath w).2 = calls w ++ new
    ∧ Forall isBulkOrderCall new
    ∧ counterQueries new = [].
Proof.
  assert (bulkOnly w (parseOrderSCD_ E scdPath w).2) as (new & Hc & Hall).
  { unfold parseOrderSCD_. destruct (load E scdPath) as [docs|]; [|apply bulkOnly_refl].
    destruct (checkSCDType E scdPath); try apply bulkOnly_refl. cbn [snd].
    destruct (bulkOnly_orderLoop docs w ∅) as [Hb Hm]; [apply map_Forall_empty|].
    eapply bulkOnly_trans; [exact Hb|]. by apply bulkOnly_saveOrderMap. }
  exists new. split; [done|]. split; [done|].
  clear Hc. induction Hall as [|c l Hc _ IH]; [done|].
  destruct c; try done.
Qed.

Lemma bind_asSaved (l : list (string * string * OrderItemVec)) :
  map asSaved l ≫= itemsOf = l ≫= (λ e, itemsOf (asSaved e)).
Proof. induction l as [|e l IH]; [done|]. by rewrite map_cons, !bind_cons, IH. Qed.

Lemma stagedItems_insert_new (orderMap : gmap (string * string) OrderItemVec)
    (k : string * string) (items : OrderItemVec) :
  orderMap !! k = None →
  stagedItems (<[k := items]> orderMap) ≡ₚ itemsOf (asSaved (k, items)) ++ stagedItems orderMap.
Proof.
  intros Hk. unfold stagedItems. rewrite (map_to_list_insert _ _ _ Hk).
  by rewrite bind_cons.
Qed.

Lemma stagedItems_lookup (orderMap : gmap (string * string) OrderItemVec)
    (k : string * string) (items : OrderItemVec) :
  orderMap !! k = Some items →
  stagedItems orderMap ≡ₚ itemsOf (asSaved (k, items)) ++ stagedItems (delete k orderMap).
Proof.
  intros Hk. unfold stagedItems. rewrite <- (map_to_list_delete _ _ _ Hk).
  by rewrite bind_cons.
Qed.

Lemma loadOrderItem_once (u o : string) (item : OrderItem) (w : World) (orderMap : gmap (string * string) OrderItemVec) :
  let st := loadOrderItem_ E u o item (w, orderMap) in
  ∃ delta,
    saveOrderLog st.1 = saveOrderLog w ++ delta
    ∧ (delta ≫= itemsOf) ++ stagedItems st.2 ≡ₚ stagedItems orderMap ++ [(u, o, item)].
Proof.
  unfold loadOrderItem_. destruct (emptyString o) eqn:Ho.
  - exists [(u, o, [item])]. cbn [fst snd].
    destruct (saveOrder_frame E u o [item] purchaseCoVisitMatrix_ w) as (-> & _).
    split; [done|]. change ([(u, o, [item])] ≫= itemsOf) with [(u, o, item)].
    apply (Permutation_app_comm [(u, o, item)]).
  - destruct (orderMap !! (u, o)) as [items|] eqn:Hl.
    + exists []. cbn [fst snd]. rewrite app_nil_r. split; [done|]. simpl.
      rewrite <- (insert_delete_eq orderMap).
      rewrite stagedItems_insert_new by apply lookup_delete_eq.
      rewrite (stagedItems_lookup orderMap (u, o) items Hl).
      unfold itemsOf, asSaved. simpl. rewrite map_app. simpl.
      rewrite <- !app_assoc. apply Permutation_app_head.
      apply Permutation_app_comm.
    + destruct (MAX_ORDER_NUM <=? size orderMap) eqn:Hfull; cbn [fst snd].
      * exists (map asSaved (inKeyOrder orderMap)).
        destruct (saveOrderMap_frame E orderMap w) as (-> & _).
        split; [done|]. rewrite bind_asSaved.
        rewrite stagedItems_insert_new by apply lookup_empty.
        unfold stagedItems at 1. rewrite map_to_list_empty. simpl.
        unfold inKeyOrder. rewrite merge_sort_Permutation. done.
      * exists []. rewrite app_nil_r. split; [done|]. simpl.
        rewrite stagedItems_insert_new by done. simpl.
        apply (Permutation_app_comm [(u, o, item)]).
Qed.

Lemma orderLoop_once docs : ∀ (w : World) (orderMap : gmap (string * string) OrderItemVec),
  let st := foldl (orderRecord E) (w, orderMap) docs in
  ∃ new,
    saveOrderLog st.1 = saveOrderLog w ++ new
    ∧ (new ≫= itemsOf) ++ stagedItems st.2
      ≡ₚ stagedItems orderMap ++ omap (doc2Order E) docs.
Proof.
  induction docs as [|doc docs IH]; intros w orderMap; simpl.
  - exists []. rewrite !app_nil_r. done.
  - assert (∃ delta,
      saveOrderLog (orderRecord E (w, orderMap) doc).1 = saveOrderLog w ++ delta
      ∧ (delta ≫= itemsOf) ++ stagedItems (orderRecord E (w, orderMap) doc).2
        ≡ₚ stagedItems orderMap ++ option_list (doc2Order E doc))
      as (delta & Hlog & Hperm).
    { unfold orderRecord. destruct (doc2Order E doc) as [[[u o] item]|].
      - apply loadOrderItem_once.
      - exists []. rewrite !app_nil_r. done. }
    destruct (orderRecord E (w, orderMap) doc) as [w1 m1]. simpl in *.
    destruct (IH w1 m1) as (new & Hlog' & Hperm').
    exists (delta ++ new). rewrite Hlog', Hlog, <- app_assoc. split; [done|].
    rewrite bind_app, <- app_assoc, Hperm'.
    rewrite app_assoc, Hperm, <- app_assoc.
    apply Permutation_app_head.
    by destruct (doc2Order E doc).
Qed.

(** Every record of an order bundle file that [doc2Order] accepts is handed
    to [saveOrder_] exactly once, under its own user and order-id: the
    order-items of the [saveOrder_] calls made while the file is read are,
    up to their order, the accepted records of the file.  No record is lost
    at a flush of the [OrderMap], and none is saved twice. *)
Theorem each_order_record_is_saved_once
    (scdPath : Path) (docs : list SCDDoc) (w : World) :
  load E scdPath = Some docs →
  checkSCDType E scdPath = INSERT_SCD →
  ∃ new,
    saveOrderLog (parseOrderSCD_ E scdPath w).2 = saveOrderLog w ++ new
    ∧ new ≫= itemsOf ≡ₚ omap (doc2Order E) docs.
Proof.
  intros Hload Htype. unfold parseOrderSCD_. rewrite Hload, Htype. cbn [snd].
  destruct (orderLoop_once docs w ∅) as (new & Hlog & Hperm).
  destruct (foldl (orderRecord E) (w, ∅) docs) as [w1 m1]. simpl in *.
  exists (new ++ map asSaved (inKeyOrder m1)).
  destruct (saveOrderMap_frame E m1 w1) as (-> & _).
  rewrite Hlog, <- app_assoc. split; [done|].
  rewrite bind_app, bind_asSaved.
  unfold stagedItems in Hperm. rewrite map_to_list_empty in Hperm. simpl in Hperm.
  rewrite <- Hperm. apply Permutation_app_head.
  unfold inKeyOrder. by rewrite merge_sort_Permutation.
Qed.

Local Instance orderKey_leb_total :
  Total (λ x y : (string * string) * OrderItemVec, orderKey_leb x.1 y.1 : Prop).
Proof.
  intros [[a1 a2] va] [[b1 b2] vb]. unfold orderKey_leb. simpl.
  rewrite (String.compare_antisym b1 a1).
  destruct (String.compare a1 b1) eqn:Hc; simpl; [|by left|by right].
  destruct (String.leb_total a2 b2) as [H|H]; rewrite H; [by left|by right].
Qed.

(** [saveOrderMap_] hands every staged order to [saveOrder_] once, the
    orders following one another by ascending (user, order-id): none of two
    neighbours is out of order, and no key comes twice. *)
Theorem staged_orders_are_saved_in_key_order
    (orderMap : gmap (string * string) OrderItemVec) (w : World) :
  ∃ l,
    saveOrderLog (saveOrderMap_ E orderMap w) = saveOrderLog w ++ map asSaved l
    ∧ Sorted (λ x y, orderKey_leb x.1 y.1) l
    ∧ NoDup l.*1
    ∧ ∀ k items, (k, items) ∈ l ↔ orderMap !! k = Some items.
Proof.
  exists (inKeyOrder orderMap).
  destruct (saveOrderMap_frame E orderMap w) as (-> & _).
  split; [done|]. split; [|split].
  - unfold inKeyOrder. apply (Sorted_merge_sort _).
  - unfold inKeyOrder. rewrite merge_sort_Permutation. apply NoDup_fst_map_to_list.
  - intros k items. apply inKeyOrder_elem.
Qed.

(** *** What a record gives for a property *)

Lemma docMapOf_snoc doc kv : docMapOf (doc ++ [kv]) = <[kv.1 := kv.2]> (docMapOf doc).
Proof. unfold docMapOf. by rewrite foldl_snoc. Qed.

Lemma lastOf_snoc key doc kv :
  lastOf key (doc ++ [kv])
  = if String.eqb kv.1 key then Some kv.2 else lastOf key doc.
Proof.
  unfold lastOf. rewrite omap_app. simpl.
  destruct (String.eqb kv.1 key); simpl.
  - apply last_snoc.
  - by rewrite app_nil_r.
Qed.

Lemma docMapOf_lookup doc key : docMapOf doc !! key = lastOf key doc.
Proof.
  induction doc as [|kv doc IH] using rev_ind; [done|].
  rewrite docMapOf_snoc, lastOf_snoc.
  destruct (String.eqb kv.1 key) eqn:Hk.
  - apply String.eqb_eq in Hk as <-. apply lookup_insert_eq.
  - apply String.eqb_neq in Hk. by rewrite lookup_insert_ne.
Qed.

Lemma docMapAt_docMapOf doc key : docMapAt (docMapOf doc) key = lastValue key doc.
Proof. unfold docMapAt, lastValue. by rewrite docMapOf_lookup. Qed.

Lemma emptyString_false s : emptyString s = false ↔ s ≠ "".
Proof. unfold emptyString. apply String.eqb_neq. Qed.

Lemma emptyString_true s : emptyString s = true ↔ s = "".
Proof. unfold emptyString. apply String.eqb_eq. Qed.

(** [doc2Order] turns a record down exactly when it gives no user id or no
    item id; a quantity or a price that does not parse is no reason.  Of a
    property given more than once the last value counts, and the order-item
    read from a record never carries a query. *)
Theorem doc2Order_needs_user_and_item (doc : SCDDoc) :
  match doc2Order E doc with
  | Some (userIdStr, orderIdStr, orderItem) =>
      userIdStr = lastValue PROP_USERID doc ∧ userIdStr ≠ ""
      ∧ itemIdStr_ orderItem = lastValue PROP_ITEMID doc ∧ itemIdStr_ orderItem ≠ ""
      ∧ orderIdStr = lastValue PROP_ORDERID doc
      ∧ dateStr_ orderItem = lastValue PROP_DATE doc
      ∧ query_ orderItem = ""
  | None => lastValue PROP_USERID doc = "" ∨ lastValue PROP_ITEMID doc = ""
  end.
Proof.
  unfold doc2Order. rewrite !docMapAt_docMapOf.
  destruct (emptyString (lastValue PROP_USERID doc)) eqn:Hu.
  { left. by apply emptyString_true. }
  destruct (emptyString (lastValue PROP_ITEMID doc)) eqn:Hi.
  { right. by apply emptyString_true. }
  apply emptyString_false in Hu, Hi. simpl. done.
Qed.

(** The user properties of a record: its pairs other than the user id. *)
Definition isUserId (kv : string * string) : Prop := kv.1 = PROP_USERID.

Definition knownUserProperty (kv : string * string) : Prop :=
  kv.1 = PROP_USERID ∨ getUserProperty E kv.1 = true.

Lemma lastOf_cons key kv doc :
  lastOf key (kv :: doc)
  = match lastOf key doc with
    | Some v => Some v
    | None => if String.eqb kv.1 key then Some kv.2 else None
    end.
Proof.
  unfold lastOf. simpl. destruct (String.eqb kv.1 key).
  - rewrite last_cons. by destruct (last _).
  - by destruct (last _).
Qed.

Lemma doc2User_loop_Some doc : ∀ user0 user,
  doc2User_loop E doc user0 = Some user →
  idStr_ user = default (idStr_ user0) (lastOf PROP_USERID doc)
  ∧ (∀ name, name ≠ PROP_USERID →
       propValueMap_ user !! name
       = match lastOf name doc with
         | Some v => Some v
         | None => propValueMap_ user0 !! name
         end)
  ∧ propValueMap_ user !! PROP_USERID = propValueMap_ user0 !! PROP_USERID
  ∧ Forall knownUserProperty doc.
Proof.
  induction doc as [|[propName propValueU] doc IH]; intros user0 user; simpl.
  { intros [= <-]. done. }
  destruct (String.eqb propName PROP_USERID) eqn:Hid.
  - apply String.eqb_eq in Hid as ->. intros H.
    destruct (IH _ _ H) as (H1 & H2 & H3 & H4). cbn [idStr_ propValueMap_] in *.
    split; [|split; [|split]].
    + rewrite H1, lastOf_cons. cbn [fst snd].
      by destruct (lastOf PROP_USERID doc).
    + intros name Hname. rewrite (H2 name Hname), lastOf_cons. cbn [fst snd].
      apply not_eq_sym in Hname. apply String.eqb_neq in Hname. rewrite Hname.
      by destruct (lastOf name doc).
    + done.
    + constructor; [by left|done].
  - destruct (getUserProperty E propName) eqn:Hknown; [|done]. intros H.
    destruct (IH _ _ H) as (H1 & H2 & H3 & H4). cbn [idStr_ propValueMap_] in *.
    apply String.eqb_neq in Hid.
    split; [|split; [|split]].
    + rewrite H1, lastOf_cons. cbn [fst snd].
      apply String.eqb_neq in Hid. rewrite Hid.
      by destruct (lastOf PROP_USERID doc).
    + intros name Hname. rewrite (H2 name Hname), lastOf_cons. cbn [fst snd].
      destruct (lastOf name doc); [done|].
      destruct (String.eqb propName name) eqn:Hn.
      * apply String.eqb_eq in Hn as ->. apply lookup_insert_eq.
      * apply String.eqb_neq in Hn. by rewrite lookup_insert_ne.
    + rewrite H3. by rewrite lookup_insert_ne.
    + constructor; [by right|done].
Qed.

Lemma doc2User_loop_None doc : ∀ user0,
  doc2User_loop E doc user0 = None → ¬ Forall knownUserProperty doc.
Proof.
  induction doc as [|[propName propValueU] doc IH]; intros user0; simpl; [done|].
  intros H Hall. apply Forall_cons in Hall as [Hkv Hall].
  destruct (String.eqb propName PROP_USERID) eqn:Hid.
  - by apply (IH _ H).
  - destruct (getUserProperty E propName) eqn:Hknown.
    + by apply (IH _ H).
    + apply String.eqb_neq in Hid. destruct Hkv as [?|Hk]; [done|].
      simpl in Hk. congruence.
Qed.

(** [doc2User] accepts a record exactly when it gives a user id and every
    other property of it is a user property of the schema.  The user then
    carries the last user id of the record, and for every other property the
    last value the record gives; the user id is not among its properties. *)
Theorem doc2User_needs_id_and_known_properties (doc : SCDDoc) :
  match doc2User E doc with
  | Some user =>
      idStr_ user = lastValue PROP_USERID doc ∧ idStr_ user ≠ ""
      ∧ Forall knownUserProperty doc
      ∧ propValueMap_ user !! PROP_USERID = None
      ∧ ∀ name, name ≠ PROP_USERID → propValueMap_ user !! name = lastOf name doc
  | None => lastValue PROP_USERID doc = "" ∨ ¬ Forall knownUserProperty doc
  end.
Proof.
  unfold doc2User.
  destruct (doc2User_loop E doc {| idStr_ := ""; propValueMap_ := ∅ |})
    as [user|] eqn:Hloop.
  - destruct (doc2User_loop_Some _ _ _ Hloop) as (H1 & H2 & H3 & H4). simpl in *.
    fold (lastValue PROP_USERID doc) in H1.
    destruct (emptyString (idStr_ user)) eqn:He.
    + left. apply emptyString_true in He. congruence.
    + apply emptyString_false in He. split; [done|]. split; [done|].
      split; [done|]. split; [by rewrite H3|].
      intros name Hname. rewrite (H2 name Hname).
      by destruct (lastOf name doc).
  - right. by apply (doc2User_loop_None _ _ Hloop).
Qed.

(** *** User bundle files *)

Lemma userRecord_calls scdType (w : World) doc :
  scdType ≠ NOT_SCD →
  ∃ new, calls (userRecord E scdType w doc) = calls w ++ new
         ∧ Forall2 (userCallFor scdType) (option_list (doc2User E doc)) new.
Proof.
  intros Htype. unfold userRecord.
  destruct (doc2User E doc) as [user|].
  - destruct scdType; [done|..]; simpl; eexists; (split; [done|]);
      by repeat constructor.
  - exists []. rewrite app_nil_r. split; [done|]. constructor.
Qed.

(** A user bundle file of a known type leads to one store call for every
    record [doc2User] accepts, in the order of the file and of the kind of
    the file: [addUser] for an insert file, [updateUser] for an update file,
    [removeUser] with the user id for a delete file.  Records that are
    turned down are passed over, and [parseUserSCD_] returns [true] whatever
    the store answered. *)
Theorem user_file_gives_one_call_per_record
    (scdPath : Path) (docs : list SCDDoc) (w : World) :
  load E scdPath = Some docs →
  checkSCDType E scdPath ≠ NOT_SCD →
  (parseUserSCD_ E scdPath w).1 = true
  ∧ ∃ new,
      calls (parseUserSCD_ E scdPath w).2 = calls w ++ new
      ∧ Forall2 (userCallFor (checkSCDType E scdPath)) (omap (doc2User E) docs) new.
Proof.
  intros Hload Htype.
  assert (parseUserSCD_ E scdPath w
          = (true, foldl (userRecord E (checkSCDType E scdPath)) w docs)) as ->.
  { unfold parseUserSCD_. rewrite Hload. by destruct (checkSCDType E scdPath). }
  split; [done|]. cbn [snd]. clear Hload.
  revert w. induction docs as [|doc docs IH]; intros w; simpl.
  - exists []. rewrite app_nil_r. split; [done|]. constructor.
  - destruct (userRecord_calls _ w doc Htype) as (n1 & H1 & F1).
    destruct (IH (userRecord E (checkSCDType E scdPath) w doc)) as (n2 & H2 & F2).
    exists (n1 ++ n2). rewrite H2, H1, <- app_assoc. split; [done|].
    destruct (doc2User E doc); simpl in *.
    + inversion F1 as [|? c ? l Hc Hl]; subst. inversion Hl; subst.
      simpl. by constructor.
    + by inversion F1; subst.
Qed.

(** *** Moving bundle files to the backup directory *)

Lemma moveToBackup_throws scdDir f scd :
  renameThrows E scd = true → moveToBackup E scdDir f scd = f.
Proof. intros H. unfold moveToBackup, rename. by rewrite H. Qed.

Lemma moveToBackup_directories scdDir f scd :
  directories (moveToBackup E scdDir f scd) = directories f.
Proof.
  unfold moveToBackup, rename.
  by destruct (renameThrows E scd || negb (bool_decide (scd ∈ regularFiles f))).
Qed.

Lemma backupLoop_frame scdDir scdList : ∀ f,
  directories (foldl (moveToBackup E scdDir) f scdList) = directories f
  ∧ (∀ p, p ∈ regularFiles (foldl (moveToBackup E scdDir) f scdList) →
          p ∈ regularFiles f ∨ p.1 = bkDirOf scdDir)
  ∧ (∀ p, p ∈ regularFiles f → renameThrows E p = true →
          p ∈ regularFiles (foldl (moveToBackup E scdDir) f scdList)).
Proof.
  induction scdList as [|scd l IH]; intros f; simpl; [by auto|].
  destruct (IH (moveToBackup E scdDir f scd)) as (Hd & Hin & Hthrow).
  split; [|split].
  - by rewrite Hd, moveToBackup_directories.
  - intros p Hp. destruct (Hin p Hp) as [H|H]; [|by right].
    by apply (moveToBackup_elem E) in H.
  - intros p Hp Ht. apply Hthrow; [|done].
    destruct (decide (p = scd)) as [->|Hne].
    + by rewrite moveToBackup_throws.
    + by apply moveToBackup_other.
Qed.

(** [backupSCDFiles] moves listed files and nothing else: the one directory
    it may add is [backup/] under the bundle directory; a file that is not
    on the list and not in [backup/] is there afterwards exactly if it was
    there before; and a listed file whose [rename] throws stays where it
    is. *)
Theorem backup_moves_listed_files_only
    (scdDir : string) (scdList : list Path) (f : FS) (p : Path) :
  p ∈ regularFiles f →
  directories (backupSCDFiles E scdDir scdList f) = {[bkDirOf scdDir]} ∪ directories f
  ∧ (p ∉ scdList → p ∈ regularFiles (backupSCDFiles E scdDir scdList f))
  ∧ (renameThrows E p = true → p ∈ regularFiles (backupSCDFiles E scdDir scdList f))
  ∧ (∀ q, q ∈ regularFiles (backupSCDFiles E scdDir scdList f) →
          q ∈ regularFiles f ∨ q.1 = bkDirOf scdDir).
Proof.
  intros Hp.
  destruct (backupLoop_frame scdDir scdList (create_directory (bkDirOf scdDir) f))
    as (Hd & Hin & Hthrow).
  split; [exact Hd|]. split; [|split].
  - intros Hnot.
    by apply (backupLoop_stays E scdDir scdList (create_directory (bkDirOf scdDir) f)).
  - intros Ht. by apply Hthrow.
  - exact Hin.
Qed.

(** *** The bulk build *)

(** [buildCollection] gives [buildCollectionMutex_] back on every way out:
    when it returns, the mutex is as it was found, and it waits only while
    the mutex is held. *)
Theorem build_gives_mutex_back (w : World) :
  match buildCollection E w with
  | Some (_, w') => buildCollectionMutex_ w' = buildCollectionMutex_ w
  | None => buildCollectionMutex_ w = true
  end.
Proof.
  unfold buildCollection.
  destruct (negb (result (backupDataFiles (copyFromOk E) (rotator w)))); [done|].
  destruct (negb (dirGuard _)); [done|].
  cbn [buildCollectionMutex_ withRotator].
  destruct (buildCollectionMutex_ w) eqn:Hm; [done|].
  destruct (loadUserSCD_ E _) as [okUser w1].
  destruct okUser; [|done].
  by destruct (loadOrderSCD_ E w1) as [okOrder w2].
Qed.

(** A user bundle directory that does not exist ends the build at once:
    [buildCollection] returns [false] and, the data backup apart, leaves
    everything as it was; no order file is read, although the order
    directory may be in place.  With the user directory in place and holding
    no bundle file, the outcome of the build is that of [loadOrderSCD_]. *)
Theorem missing_user_directory_stops_build (w : World) :
  result (backupDataFiles (copyFromOk E) (rotator w)) = true →
  dirGuard (currentDirectory
              (rotator_after (backupDataFiles (copyFromOk E) (rotator w)))) = true →
  buildCollectionMutex_ w = false →
  let w1 := withRotator (rotator_after (backupDataFiles (copyFromOk E) (rotator w))) w in
  (is_directory (fs w) (userSCDPath E) = false →
   buildCollection E w = Some (false, w1))
  ∧ (scanSCDFiles E (userSCDPath E) (fs w) = Some [] →
     buildCollection E w
     = Some ((loadOrderSCD_ E (withMutex true w1)).1,
             withMutex false (loadOrderSCD_ E (withMutex true w1)).2)).
Proof.
  intros Hb Hg Hm w1. subst w1. unfold buildCollection.
  rewrite Hb. cbn [negb]. cbn [rotator withRotator]. rewrite Hg. cbn [negb].
  cbn [buildCollectionMutex_ withRotator]. rewrite Hm.
  split.
  - intros Hdir. unfold loadUserSCD_, scanSCDFiles. cbn [fs withMutex withRotator].
    rewrite Hdir. unfold withMutex, withRotator. simpl. by rewrite Hm.
  - intros Hscan. unfold loadUserSCD_. cbn [fs withMutex withRotator].
    rewrite Hscan. by destruct (loadOrderSCD_ E _).
Qed.

(** *** Visits, carts, tracked events and ratings *)

(** The calls [visitItem], [updateShoppingCart], [trackEvent] and
    [rateItem] make on the visit, cart, event and rate stores, with their
    answers.  [rate_t] is the type of a rating. *)
Context {rate_t : Type}.

Inductive EventCall :=
| AddVisitItem (sessionIdStr userIdStr : string) (itemId : itemid_t) (ok : bool)
| VisitRecommendItem (userIdStr : string) (itemId : itemid_t) (ok : bool)
| UpdateCart (userIdStr : string) (itemIdVec : list itemid_t) (ok : bool)
| AddEvent (eventStr userIdStr : string) (itemId : itemid_t) (ok : bool)
| RemoveEvent (eventStr userIdStr : string) (itemId : itemid_t) (ok : bool)
| AddRate (userIdStr : string) (itemId : itemid_t) (rate : rate_t) (ok : bool)
| RemoveRate (userIdStr : string) (itemId : itemid_t) (ok : bool).

(** What the four stores answer, given the calls made so far. *)
Record EventAnswers := {
  addVisitItem_answer :
    list Call → list EventCall → string → string → itemid_t → bool;
  visitRecommendItem_answer :
    list Call → list EventCall → string → itemid_t → bool;
  updateCart_answer :
    list Call → list EventCall → string → list itemid_t → bool;
  addEvent_answer :
    list Call → list EventCall → string → string → itemid_t → bool;
  removeEvent_answer :
    list Call → list EventCall → string → string → itemid_t → bool;
  addRate_answer :
    list Call → list EventCall → string → itemid_t → rate_t → bool;
  removeRate_answer :
    list Call → list EventCall → string → itemid_t → bool
}.

Variable A : EventAnswers.

Record RateParam := {
  rp_userIdStr : string;
  rp_itemIdStr : string;
  rp_rate : rate_t;
  rp_isAdd : bool
}.

(** [visitItem] (lines 320-348); [cs] are the calls the service has made
    on the other stores, [h] those on these four. *)
Definition visitItem
    (sessionIdStr userIdStr itemIdStr : string) (isRecItem : bool)
    (cs : list Call) (h : list EventCall) : bool * list EventCall :=
  if emptyString sessionIdStr then (false, h)
  else
    match strIdToItemId E itemIdStr with
    | None => (false, h)
    | Some itemId =>
        let ok := addVisitItem_answer A cs h sessionIdStr userIdStr itemId in
        let h := h ++ [AddVisitItem sessionIdStr userIdStr itemId ok] in
        if negb ok then (false, h)
        else if isRecItem
        then
          let okRec := visitRecommendItem_answer A cs h userIdStr itemId in
          (okRec, h ++ [VisitRecommendItem userIdStr itemId okRec])
        else (true, h)
    end.

(** [updateShoppingCart] (lines 359-369). *)
Definition updateShoppingCart
    (userIdStr : string) (cartItemVec : OrderItemVec)
    (cs : list Call) (h : list EventCall) : bool * list EventCall :=
  match convertOrderItemVec_ E cartItemVec with
  | None => (false, h)
  | Some itemIdVec =>
      let ok := updateCart_answer A cs h userIdStr itemIdVec in
      (ok, h ++ [UpdateCart userIdStr itemIdVec ok])
  end.

(** [trackEvent] (lines 371-384). *)
Definition trackEvent
    (isAdd : bool) (eventStr userIdStr itemIdStr : string)
    (cs : list Call) (h : list EventCall) : bool * list EventCall :=
  match strIdToItemId E itemIdStr with
  | None => (false, h)
  | Some itemId =>
      if isAdd
      then let ok := addEvent_answer A cs h eventStr userIdStr itemId in
           (ok, h ++ [AddEvent eventStr userIdStr itemId ok])
      else let ok := removeEvent_answer A cs h eventStr userIdStr itemId in
           (ok, h ++ [RemoveEvent eventStr userIdStr itemId ok])
  end.

(** [rateItem] (lines 386-394). *)
Definition rateItem (param : RateParam) (cs : list Call) (h : list EventCall)
  : bool * list EventCall :=
  match strIdToItemId E (rp_itemIdStr param) with
  | None => (false, h)
  | Some itemId =>
      if rp_isAdd param
      then let ok := addRate_answer A cs h (rp_userIdStr param) itemId (rp_rate param) in
           (ok, h ++ [AddRate (rp_userIdStr param) itemId (rp_rate param) ok])
      else let ok := removeRate_answer A cs h (rp_userIdStr param) itemId in
           (ok, h ++ [RemoveRate (rp_userIdStr param) itemId ok])
  end.

(** The store accepted the call. *)
Definition eventAccepted (c : EventCall) : bool :=
  match c with
  | AddVisitItem _ _ _ ok | VisitRecommendItem _ _ ok | UpdateCart _ _ ok
  | AddEvent _ _ _ ok | RemoveEvent _ _ _ ok | AddRate _ _ _ ok
  | RemoveRate _ _ ok => ok
  end.

(** An item string the item generator does not know reaches none of the
    visit, cart, event and rate stores: each of the four entry points
    returns [false] without a call.  For a cart one unknown item is enough,
    wherever it stands. *)
Theorem unknown_item_reaches_no_event_store
    (itemIdStr : string) (cs : list Call) (h : list EventCall) :
  strIdToItemId E itemIdStr = None →
  (∀ sessionIdStr userIdStr isRecItem,
     visitItem sessionIdStr userIdStr itemIdStr isRecItem cs h = (false, h))
  ∧ (∀ userIdStr cartItemVec,
       Exists (λ it, itemIdStr_ it = itemIdStr) cartItemVec →
       updateShoppingCart userIdStr cartItemVec cs h = (false, h))
  ∧ (∀ isAdd eventStr userIdStr,
       trackEvent isAdd eventStr userIdStr itemIdStr cs h = (false, h))
  ∧ (∀ param, rp_itemIdStr param = itemIdStr → rateItem param cs h = (false, h)).
Proof.
  intros Hunknown. split; [|split; [|split]].
  - intros s u r. unfold visitItem. rewrite Hunknown. by destruct (emptyString s).
  - intros u cart Hex. unfold updateShoppingCart.
    assert (convertOrderItemVec_ E cart = None) as ->; [|done].
    apply convertOrderItemVec_None. eapply Exists_impl; [exact Hex|].
    intros it Hit. unfold unresolved. by rewrite Hit.
  - intros a e u. unfold trackEvent. by rewrite Hunknown.
  - intros p Hp. unfold rateItem. by rewrite Hp, Hunknown.
Qed.

(** [r] ends with the calls of [h] in place, at most [most] calls added,
    and is [true] only if a call was added and the store accepted every call
    added. *)
Definition appendsAtMost (h : list EventCall) (most : nat)
    (r : bool * list EventCall) : Prop :=
  ∃ new, r.2 = h ++ new ∧ length new ≤ most
         ∧ (r.1 = true → new ≠ [] ∧ Forall (λ c, eventAccepted c = true) new).

(** Each of the four entry points builds on what was there: the calls made
    before stay as they are; at most two are added by [visitItem] on a
    recommended item, otherwise at most one; and [true] is returned only if
    a store was called and every store called accepted.  [visitItem] adds
    nothing, or [addVisitItem] alone, or [addVisitItem] that was accepted
    followed by [visitRecommendItem] for the same user and item: the second
    call is made only for a recommended item and only after the first was
    accepted, and for a recommended item an accepted first call is always
    followed by it. *)
Theorem event_calls_are_appended (cs : list Call) (h : list EventCall) :
  (∀ sessionIdStr userIdStr itemIdStr (isRecItem : bool),
     appendsAtMost h (if isRecItem then 2 else 1)
       (visitItem sessionIdStr userIdStr itemIdStr isRecItem cs h))
  ∧ (∀ userIdStr cartItemVec,
       appendsAtMost h 1 (updateShoppingCart userIdStr cartItemVec cs h))
  ∧ (∀ isAdd eventStr userIdStr itemIdStr,
       appendsAtMost h 1 (trackEvent isAdd eventStr userIdStr itemIdStr cs h))
  ∧ (∀ param, appendsAtMost h 1 (rateItem param cs h))
  ∧ (∀ sessionIdStr userIdStr itemIdStr (isRecItem : bool),
       let r := visitItem sessionIdStr userIdStr itemIdStr isRecItem cs h in
       r = (false, h)
       ∨ (∃ itemId ok,
            strIdToItemId E itemIdStr = Some itemId
            ∧ r = (ok, h ++ [AddVisitItem sessionIdStr userIdStr itemId ok])
            ∧ (ok = true → isRecItem = false))
       ∨ (∃ itemId okRec,
            strIdToItemId E itemIdStr = Some itemId
            ∧ isRecItem = true
            ∧ r = (okRec,
                   h ++ [AddVisitItem sessionIdStr userIdStr itemId true;
                         VisitRecommendItem userIdStr itemId okRec]))).
Proof.
  assert (∀ most, appendsAtMost h most (false, h)) as Hnone.
  { intros most. exists []. rewrite app_nil_r. split; [done|].
    split; [simpl; lia|done]. }
  assert (∀ ok c, eventAccepted c = ok → appendsAtMost h 1 (ok, h ++ [c])) as Hone.
  { intros ok c Hc. exists [c]. split; [done|]. split; [done|].
    simpl. intros ->. by repeat constructor. }
  split; [|split; [|split; [|split]]].
  - intros s u i r. unfold visitItem.
    destruct (emptyString s); [apply Hnone|].
    destruct (strIdToItemId E i) as [itemId|]; [|apply Hnone].
    cbv zeta. destruct (addVisitItem_answer A cs h s u itemId) eqn:Hok; cbn [negb].
    + destruct r.
      * eexists [_; _]. rewrite <- app_assoc. split; [done|]. split; [done|].
        cbn [fst]. intros Hrec. split; [done|]. by repeat constructor.
      * eexists [_]. split; [done|]. split; [done|]. intros _.
        split; [done|]. by repeat constructor.
    + eexists [_]. split; [done|]. split; [by destruct r; simpl; lia|done].
  - intros u cart. unfold updateShoppingCart.
    destruct (convertOrderItemVec_ E cart); [by apply Hone|apply Hnone].
  - intros a e u i. unfold trackEvent.
    destruct (strIdToItemId E i); [|apply Hnone]. destruct a; by apply Hone.
  - intros p. unfold rateItem.
    destruct (strIdToItemId E (rp_itemIdStr p)); [|apply Hnone].
    destruct (rp_isAdd p); by apply Hone.
  - intros s u i r. unfold visitItem.
    destruct (emptyString s); [by left|].
    destruct (strIdToItemId E i) as [itemId|]; [|by left].
    cbv zeta. destruct (addVisitItem_answer A cs h s u itemId) eqn:Hok; cbn [negb].
    + destruct r.
      * right. right. eexists itemId, _. split; [done|]. split; [done|].
        by rewrite <- app_assoc.
      * right. left. by exists itemId, true.
    + right. left. by exists itemId, false.
Qed.

End Service.

(** *** The concrete service again *)

Lemma each_order_record_is_saved_once_witness :
  load (demoEnv true) orderInsertFile = Some orderRecords
  ∧ ∃ new,
      saveOrderLog (parseOrderSCD_ (demoEnv true) orderInsertFile world0).2
      = saveOrderLog world0 ++ new
      ∧ new ≫= itemsOf ≡ₚ omap (doc2Order (demoEnv true)) orderRecords.
Proof.
  split; [reflexivity|].
  exact (each_order_record_is_saved_once (demoEnv true) orderInsertFile orderRecords
           world0 eq_refl eq_refl).
Defined.

(** Read as a user file, [orderInsertFile] holds one record [doc2User]
    accepts: the last one, which gives a user id and nothing else. *)
Lemma user_file_gives_one_call_per_record_witness :
  load (demoEnv true) orderInsertFile = Some orderRecords
  ∧ (parseUserSCD_ (demoEnv true) orderInsertFile world0).1 = true.
Proof.
  split; [reflexivity|].
  refine (proj1 (user_file_gives_one_call_per_record (demoEnv true) orderInsertFile
                   orderRecords world0 eq_refl _)).
  discriminate.
Defined.

Lemma backup_moves_listed_files_only_witness :
  orderBrokenFile ∈ regularFiles demoFs
  ∧ directories (backupSCDFiles (demoEnv true) "scd/order" [orderInsertFile] demoFs)
    = {[bkDirOf "scd/order"]} ∪ directories demoFs.
Proof.
  assert (orderBrokenFile ∈ regularFiles demoFs) as Hin.
  { apply (bool_decide_unpack _). vm_compute. exact I. }
  split; [exact Hin|].
  exact (proj1 (backup_moves_listed_files_only (demoEnv true) "scd/order"
                  [orderInsertFile] demoFs orderBrokenFile Hin)).
Defined.

(** A world without the user bundle directory. *)
Definition worldNoUserDir : World :=
  withFs {| directories := {["scd/order"]}; regularFiles := regularFiles demoFs |}
         world0.

Lemma missing_user_directory_stops_build_witness :
  buildCollection (demoEnv true) worldNoUserDir
  = Some (false, withRotator rotatorCopied worldNoUserDir).
Proof.
  refine (proj1 (missing_user_directory_stops_build (demoEnv true) worldNoUserDir
                   _ _ _) _).
  - reflexivity.
  - reflexivity.
  - reflexivity.
  - vm_compute. reflexivity.
Defined.

Definition demoAnswers : EventAnswers (rate_t := nat) :=
  {| addVisitItem_answer := λ _ _ _ _ _, true;
     visitRecommendItem_answer := λ _ _ _ _, true;
     updateCart_answer := λ _ _ _ _, true;
     addEvent_answer := λ _ _ _ _ _, true;
     removeEvent_answer := λ _ _ _ _ _, true;
     addRate_answer := λ _ _ _ _ _, true;
     removeRate_answer := λ _ _ _ _, true |}.

Example visit_of_recommended_item :
  visitItem (demoEnv true) demoAnswers "session-1" "ann" "book" true [] []
  = (true, [AddVisitItem "session-1" "ann" 4%N true;
            VisitRecommendItem "ann" 4%N true]).
Proof. reflexivity. Qed.

Lemma unknown_item_reaches_no_event_store_witness :
  trackEvent (demoEnv true) demoAnswers true "wish_list" "ann" "" [] [] = (false, []).
Proof.
  exact (proj1 (proj2 (proj2
    (unknown_item_reaches_no_event_store (demoEnv true) demoAnswers "" [] [] eq_refl)))
    true "wish_list" "ann").
Defined.

End RecommendFacts.

(* ===================================================================== *)
(** ** More of the index worker *)
(* ===================================================================== *)

Module IndexWorkerFacts.
Import IndexWorker.

Section Worker.
Variable E : Env.

(** *** What preparing a document may touch *)

(** [w'] differs from [w] by calls to the id manager only. *)
Definition idOnly (w w' : World) : Prop :=
  (∃ new, idManager_ w' = idManager_ w ++ new)
  ∧ documentManager_ w' = documentManager_ w
  ∧ indexManager_ w' = indexManager_ w
  ∧ productSourceCount_ w' = productSourceCount_ w
  ∧ numUpdatedDocs_ w' = numUpdatedDocs_ w
  ∧ numDeletedDocs_ w' = numDeletedDocs_ w.

Lemma idOnly_refl w : idOnly w w.
Proof. split; [|done]. exists []. by rewrite app_nil_r. Qed.

Lemma idOnly_trans w1 w2 w3 : idOnly w1 w2 → idOnly w2 w3 → idOnly w1 w3.
Proof.
  intros ([n1 A0] & A1 & A2 & A3 & A4 & A5) ([n2 B0] & B1 & B2 & B3 & B4 & B5).
  split; [|repeat split; congruence].
  exists (n1 ++ n2). by rewrite B0, A0, <- app_assoc.
Qed.

Lemma idOnly_idCall c w : idOnly w (idCall c w).
Proof. split; [|done]. by exists [c]. Qed.

Lemma createInsertDocId_idOnly scdDocId w : idOnly w (createInsertDocId_ E scdDocId w).2.
Proof.
  unfold createInsertDocId_.
  destruct (getDocIdByDocName_insert E (idManager_ w) scdDocId) as [found docId].
  set (w1 := idCall (IdGetOrCreate scdDocId found docId) w).
  assert (idOnly w w1) as H1 by apply idOnly_idCall.
  destruct found.
  - destruct (isDeleted E (documentManager_ w1) docId); [|done].
    set (answer := updateDocIdByDocName E (idManager_ w1) scdDocId).
    assert (idOnly w (idCall (IdUpdate scdDocId answer) w1)) as H2.
    { eapply idOnly_trans; [exact H1|apply idOnly_idCall]. }
    destruct answer as [[old new]|]; [|done].
    by destruct (new <=? getMaxDocId E _)%N.
  - by destruct (docId <=? getMaxDocId E _)%N.
Qed.

Lemma createUpdateDocId_idOnly scdDocId rType oldId newId w :
  idOnly w (createUpdateDocId_ E scdDocId rType oldId newId w).2.
Proof.
  unfold createUpdateDocId_. destruct rType.
  - destruct (getDocIdByDocName E (idManager_ w) scdDocId); apply idOnly_refl.
  - destruct (updateDocIdByDocName E (idManager_ w) scdDocId) as [[old new]|];
      apply idOnly_idCall.
Qed.

Lemma prepareDocId_idOnly doc fieldStr value st w :
  idOnly w (prepareDocId E doc fieldStr value st w).2.
Proof.
  unfold prepareDocId.
  set (scdDocId := md5ToUint128 E (convertString E value (encoding_ E))).
  destruct (ps_insert st).
  - pose proof (createInsertDocId_idOnly scdDocId w) as H.
    by destruct (createInsertDocId_ E scdDocId w) as [[id|] w'].
  - destruct (checkRtype_ E w doc (ps_rTypeFieldValue st) false) as [[rType fv] isUpdate].
    destruct (rType && negb isUpdate); [apply idOnly_refl|].
    pose proof (createUpdateDocId_idOnly scdDocId rType (ps_oldId st) (ps_docId st) w)
      as H.
    destruct (createUpdateDocId_ E scdDocId rType (ps_oldId st) (ps_docId st) w)
      as [ids w']. cbn [snd] in H.
    destruct (negb (ids_ok ids)); [|done].
    pose proof (createInsertDocId_idOnly scdDocId w') as H'.
    destruct (createInsertDocId_ E scdDocId w') as [[id|] w'']; cbn [snd] in *;
      by eapply idOnly_trans.
Qed.

Lemma prepareField_idOnly doc field st w : idOnly w (prepareField E doc field st w).2.
Proof.
  unfold prepareField.
  destruct (iequals field.1 DOCID && bool_decide (is_Some (findProperty E field.1))).
  { apply prepareDocId_idOnly. }
  destruct (iequals field.1 DATE); [apply idOnly_refl|].
  destruct (findProperty E field.1); apply idOnly_refl.
Qed.

Lemma prepareLoop_idOnly doc fields : ∀ st w,
  idOnly w (prepareLoop E doc fields st w).2.
Proof.
  induction fields as [|field fields IH]; intros st w; simpl; [apply idOnly_refl|].
  pose proof (prepareField_idOnly doc field st w) as H.
  destruct (prepareField E doc field st w) as [[st'|] w']; [|done].
  eapply idOnly_trans; [exact H|apply IH].
Qed.

Lemma finishDocument_world st w : (finishDocument E st w).2 = w.
Proof.
  unfold finishDocument. destruct (negb (ps_insert st) && negb (ps_rType st)); [|done].
  by destruct (completePartialDocument_ E _ _ w).
Qed.

Lemma prepareDocument_idOnly doc timestamp insert w :
  idOnly w (prepareDocument_ E doc timestamp insert w).2.
Proof.
  unfold prepareDocument_. destruct doc as [|field rest]; [apply idOnly_refl|].
  pose proof (prepareLoop_idOnly (field :: rest) (field :: rest)
                (initialState timestamp insert) w) as H.
  destruct (prepareLoop E _ _ _ w) as [[st|] w']; [|done].
  by rewrite finishDocument_world.
Qed.

(** *** Docids for inserts *)

(** A docid [createInsertDocId_] hands out lies above every docid the
    document store holds, and it is either the one the id manager has just
    created for a name it did not know, or the one it issued anew for a name
    whose document is deleted.  A name whose document is there is turned
    down.  Nothing but the id manager is touched. *)
Theorem insert_docid_is_fresh (scdDocId : uint128_t) (w : World) :
  let known := getDocIdByDocName_insert E (idManager_ w) scdDocId in
  match createInsertDocId_ E scdDocId w with
  | (Some id, w') =>
      (getMaxDocId E (documentManager_ w) < id)%N
      ∧ (known.1 = false ∧ id = known.2
         ∧ idManager_ w' = idManager_ w ++ [IdGetOrCreate scdDocId false id]
         ∨ ∃ old,
             known.1 = true
             ∧ isDeleted E (documentManager_ w) known.2 = true
             ∧ idManager_ w'
               = idManager_ w ++ [IdGetOrCreate scdDocId true known.2;
                                  IdUpdate scdDocId (Some (old, id))])
  | (None, w') => True
  end
  ∧ (known.1 = true → isDeleted E (documentManager_ w) known.2 = false →
     (createInsertDocId_ E scdDocId w).1 = None)
  ∧ idOnly w (createInsertDocId_ E scdDocId w).2.
Proof.
  intros known. split; [|split; [|apply createInsertDocId_idOnly]].
  - subst known. unfold createInsertDocId_.
    destruct (getDocIdByDocName_insert E (idManager_ w) scdDocId) as [found docId].
    cbn [fst snd]. destruct found.
    + cbn [documentManager_ idCall].
      destruct (isDeleted E (documentManager_ w) docId) eqn:Hdel; [|done].
      destruct (updateDocIdByDocName E _ scdDocId) as [[old new]|] eqn:Hupd; [|done].
      cbn [documentManager_ idCall].
      destruct (new <=? getMaxDocId E (documentManager_ w))%N eqn:Hmax; [done|].
      apply N.leb_gt in Hmax. split; [done|]. right. exists old.
      split; [done|]. split; [done|]. simpl. by rewrite <- app_assoc.
    + cbn [documentManager_ idCall].
      destruct (docId <=? getMaxDocId E (documentManager_ w))%N eqn:Hmax; [done|].
      apply N.leb_gt in Hmax. split; [done|]. by left.
  - subst known. unfold createInsertDocId_.
    destruct (getDocIdByDocName_insert E (idManager_ w) scdDocId) as [found docId].
    cbn [fst snd]. intros -> Hlive. cbn [documentManager_ idCall]. by rewrite Hlive.
Qed.

(** *** One document of an insert or update bundle *)

(** What one document makes the document store and the index receive, and
    by how much [numUpdatedDocs_] grows: nothing; an insert; for an update
    bundle also a partial update in place, or the removal of the old version
    followed by the insert of the new one.  The index is written only when
    the document store accepted the write. *)
Inductive Written (isInsert : bool) : list DmCall → list ImCall → N → Prop :=
| nothing_written : Written isInsert [] [] 0
| inserted d ok idoc :
    Written isInsert [DmInsert d ok] (if ok then [ImInsert idoc] else []) 0
| updated_in_place d ok oldIndexDocument idoc :
    isInsert = false →
    Written isInsert [DmUpdatePartial d ok]
      (if ok then [ImUpdateRtype oldIndexDocument idoc] else [])
      (if ok then 1 else 0)
| replaced removed d ok idoc :
    isInsert = false →
    Written isInsert [DmRemove (idoc_getId idoc) removed; DmInsert d ok]
      (if ok then [ImUpdate idoc] else [])
      (if ok then 1 else 0).

(** [w'] has received [dmNew] and [imNew] on top of [w], and counted
    [updated] updates. *)
Definition wrote (w w' : World) (dmNew : list DmCall) (imNew : list ImCall)
    (updated : N) : Prop :=
  documentManager_ w' = documentManager_ w ++ dmNew
  ∧ indexManager_ w' = indexManager_ w ++ imNew
  ∧ numUpdatedDocs_ w' = (numUpdatedDocs_ w + updated)%N
  ∧ numDeletedDocs_ w' = numDeletedDocs_ w.

Lemma wrote_nothing w w' :
  documentManager_ w' = documentManager_ w → indexManager_ w' = indexManager_ w →
  numUpdatedDocs_ w' = numUpdatedDocs_ w → numDeletedDocs_ w' = numDeletedDocs_ w →
  wrote w w' [] [] 0.
Proof.
  intros H1 H2 H3 H4. unfold wrote. by rewrite H1, H2, H3, H4, !app_nil_r, N.add_0_r.
Qed.

Lemma insertDoc_wrote isInsert d idoc timestamp w :
  ∃ dmNew imNew,
    Written isInsert dmNew imNew 0
    ∧ wrote w (insertDoc_ E d idoc timestamp w).2 dmNew imNew 0.
Proof.
  unfold insertDoc_.
  destruct (match hooker_ E with Some h => _ | None => true end).
  - destruct (insertDocument_answer E (documentManager_ w) d) eqn:Hok.
    + exists [DmInsert d true], [ImInsert idoc]. split; [apply (inserted _ d true)|].
      unfold wrote. simpl. by rewrite N.add_0_r.
    + exists [DmInsert d false], []. split; [apply (inserted _ d false idoc)|].
      unfold wrote. simpl. by rewrite N.add_0_r, app_nil_r.
  - exists [], []. split; [constructor|]. by apply wrote_nothing.
Qed.

Lemma updateDoc_wrote d idoc timestamp rType w :
  let r := updateDoc_ E d idoc timestamp rType w in
  ∃ dmNew imNew updated,
    Written false dmNew imNew updated
    ∧ wrote w (if r.1 then countUpdated r.2 else r.2) dmNew imNew updated.
Proof.
  unfold updateDoc_.
  destruct (match hooker_ E with Some h => _ | None => true end).
  2: { exists [], [], 0%N. split; [constructor|]. by apply wrote_nothing. }
  destruct rType.
  - destruct (preparePartialDocument_ E d w) as [old|].
    2: { exists [], [], 0%N. split; [constructor|]. by apply wrote_nothing. }
    destruct (updatePartialDocument_answer E (documentManager_ w) d) eqn:Hok.
    + exists [DmUpdatePartial d true], [ImUpdateRtype old idoc], 1%N.
      split; [by apply (updated_in_place _ d true)|]. done.
    + exists [DmUpdatePartial d false], [], 0%N.
      split; [by apply (updated_in_place _ d false old idoc)|].
      unfold wrote. simpl. by rewrite N.add_0_r, app_nil_r.
  - cbv zeta.
    set (removed := removeDocument_answer E (documentManager_ w) (idoc_getId idoc)).
    destruct (insertDocument_answer E _ d) eqn:Hok.
    + exists [DmRemove (idoc_getId idoc) removed; DmInsert d true], [ImUpdate idoc], 1%N.
      split; [by apply (replaced _ removed d true)|].
      unfold wrote. simpl. by rewrite <- app_assoc.
    + exists [DmRemove (idoc_getId idoc) removed; DmInsert d false], [], 0%N.
      split; [by apply (replaced _ removed d false idoc)|].
      unfold wrote. simpl. by rewrite <- app_assoc, N.add_0_r, app_nil_r.
Qed.

(** Whatever a document of an insert or update bundle holds, it makes the
    stores receive one of these four patterns, the last two in an update
    bundle only; [numDeletedDocs_] stays as it is, and the index never
    receives a removal. *)
Lemma processDocument_writes
    (isInsert : bool) (timestamp : Z) (doc : SCDDoc) (w : World) :
  ∃ dmNew imNew updated,
    Written isInsert dmNew imNew updated
    ∧ wrote w (processDocument E isInsert timestamp doc w) dmNew imNew updated.
Proof.
  unfold processDocument.
  pose proof (prepareDocument_idOnly doc timestamp isInsert w) as Hprep.
  destruct (prepareDocument_ E doc timestamp isInsert w) as [[p|] w'];
    cbn [snd] in Hprep; destruct Hprep as (_ & Hd & Hm & _ & Hu & Hdel).
  2: { exists [], [], 0%N. split; [constructor|]. by apply wrote_nothing. }
  set (w1 := if emptyString (p_source p) then w' else countSource (p_source p) w').
  assert (documentManager_ w1 = documentManager_ w ∧ indexManager_ w1 = indexManager_ w
          ∧ numUpdatedDocs_ w1 = numUpdatedDocs_ w
          ∧ numDeletedDocs_ w1 = numDeletedDocs_ w) as (Hd1 & Hm1 & Hu1 & Hdel1).
  { subst w1. by destruct (emptyString (p_source p)). }
  assert (∀ w2 dmNew imNew updated,
            wrote w1 w2 dmNew imNew updated → wrote w w2 dmNew imNew updated) as Hlift.
  { unfold wrote. intros w2 ? ? ? (-> & -> & -> & ->).
    by rewrite Hd1, Hm1, Hu1, Hdel1. }
  destruct (isInsert || (p_oldId p =? 0)%N) eqn:Hins.
  - destruct (insertDoc_wrote isInsert (p_document p)
                (prepareIndexDocument_ E (p_oldId p) (p_timestamp p) (p_document p) w').2
                (p_timestamp p) w1) as (dmNew & imNew & HW & Hw).
    exists dmNew, imNew, 0%N. split; [done|]. by apply Hlift.
  - apply orb_false_iff in Hins as [-> _].
    destruct (updateDoc_wrote (p_document p)
                (prepareIndexDocument_ E (p_oldId p) (p_timestamp p) (p_document p) w').2
                (p_timestamp p) (p_rType p) w1) as (dmNew & imNew & updated & HW & Hw).
    exists dmNew, imNew, updated. split; [done|]. apply Hlift.
    cbv zeta in Hw.
    by destruct (updateDoc_ E _ _ _ _ w1) as [[|] w2].
Qed.

(** The patterns once more, for the document [prepareDocument_] has
    prepared and the index document [prepareIndexDocument_] has left:
    nothing; for an insert bundle, and for a document that replaces none,
    [insertDocument]; for an R-type update [updatePartialDocument]; for any
    other update [removeDocument] of the docid the index document holds,
    followed by [insertDocument]. *)
Definition writtenFor (isInsert : bool) (p : Prepared) (idoc : IndexerDocument)
    (dmNew : list DmCall) (imNew : list ImCall) (updated : N) : Prop :=
  (dmNew = [] ∧ imNew = [] ∧ updated = 0%N)
  ∨ if isInsert || (p_oldId p =? 0)%N
    then ∃ ok,
           dmNew = [DmInsert (p_document p) ok]
           ∧ imNew = (if ok then [ImInsert idoc] else [])
           ∧ updated = 0%N
    else if p_rType p
    then ∃ ok oldIndexDocument,
           dmNew = [DmUpdatePartial (p_document p) ok]
           ∧ imNew = (if ok then [ImUpdateRtype oldIndexDocument idoc] else [])
           ∧ updated = (if ok then 1 else 0)%N
    else ∃ removed ok,
           dmNew = [DmRemove (idoc_getId idoc) removed; DmInsert (p_document p) ok]
           ∧ imNew = (if ok then [ImUpdate idoc] else [])
           ∧ updated = (if ok then 1 else 0)%N.

(** The document carries a DOCID property of the schema. *)
Definition carriesDocId (d : Document) : Prop :=
  ∃ name, iequals name DOCID = true ∧ is_Some (findProperty E name)
          ∧ is_Some (properties d !! name).

(** A document that [prepareDocument_] gives up writes nothing.  Any other
    one makes the stores receive one of the four patterns, for the prepared
    document and for the index document as [prepareIndexDocument_] has left
    it, whatever its result: an insert bundle, and an update that replaces
    no document, inserts; an R-type update is a partial update in place;
    any other update asks the document store to remove the docid the index
    document holds, and then inserts.  With no hook installed only an
    R-type update can write nothing.  The docid the index document holds is
    the old docid or the cleared one, 0; it is the old docid, and the index
    document carries the docid of the document, when every property is
    visited, the document carries a DOCID property of the schema, and
    [prepareIndexDocument_] returned [true]. *)
Theorem one_document_one_write
    (isInsert : bool) (timestamp : Z) (doc : SCDDoc) (w : World) :
  let after := processDocument E isInsert timestamp doc w in
  match prepareDocument_ E doc timestamp isInsert w with
  | (None, _) => wrote w after [] [] 0
  | (Some p, w') =>
      let prepared :=
        prepareIndexDocument_ E (p_oldId p) (p_timestamp p) (p_document p) w' in
      (∃ dmNew imNew updated,
         wrote w after dmNew imNew updated
         ∧ writtenFor isInsert p prepared.2 dmNew imNew updated
         ∧ (hooker_ E = None → dmNew = [] →
            isInsert = false ∧ p_oldId p ≠ 0%N ∧ p_rType p = true))
      ∧ (idoc_getId prepared.2 = p_oldId p ∨ idoc_getId prepared.2 = 0%N)
      ∧ (visitsEveryProperty E → carriesDocId (p_document p) →
         prepared.1 = true →
         idoc_getId prepared.2 = p_oldId p
         ∧ idoc_getDocId prepared.2 = getId (p_document p))
  end.
Proof.
  intros after. subst after. unfold processDocument.
  pose proof (prepareDocument_idOnly doc timestamp isInsert w) as Hprep.
  destruct (prepareDocument_ E doc timestamp isInsert w) as [[p|] w'];
    cbn [snd] in Hprep; destruct Hprep as (_ & Hd & Hm & _ & Hu & Hdel).
  2: { by apply wrote_nothing. }
  cbv zeta.
  set (prepared :=
         prepareIndexDocument_ E (p_oldId p) (p_timestamp p) (p_document p) w').
  set (w1 := if emptyString (p_source p) then w' else countSource (p_source p) w').
  assert (documentManager_ w1 = documentManager_ w ∧ indexManager_ w1 = indexManager_ w
          ∧ numUpdatedDocs_ w1 = numUpdatedDocs_ w
          ∧ numDeletedDocs_ w1 = numDeletedDocs_ w) as (Hd1 & Hm1 & Hu1 & Hdel1).
  { subst w1. by destruct (emptyString (p_source p)). }
  assert (wrote w w1 [] [] 0) as Hnone.
  { by apply wrote_nothing. }
  split; [|split].
  - unfold writtenFor.
    destruct (isInsert || (p_oldId p =? 0)%N) eqn:Hins.
    + unfold insertDoc_.
      destruct (hooker_ E) as [h|] eqn:Hh.
      * destruct (HookInsert h _ _ _).
        -- set (ok := insertDocument_answer E (documentManager_ w1) (p_document p)).
           exists [DmInsert (p_document p) ok], (if ok then [ImInsert prepared.2] else []),
                  0%N.
           split; [|split; [right; by exists ok|done]].
           unfold wrote. destruct ok; simpl; rewrite Hd1, Hm1, Hu1, Hdel1, N.add_0_r;
             [done|by rewrite app_nil_r].
        -- exists [], [], 0%N. split; [done|]. split; [by left|done].
      * set (ok := insertDocument_answer E (documentManager_ w1) (p_document p)).
        exists [DmInsert (p_document p) ok], (if ok then [ImInsert prepared.2] else []),
               0%N.
        split; [|split; [right; by exists ok|done]].
        unfold wrote. destruct ok; simpl; rewrite Hd1, Hm1, Hu1, Hdel1, N.add_0_r;
          [done|by rewrite app_nil_r].
    + apply orb_false_iff in Hins as [-> Hold]. apply N.eqb_neq in Hold.
      unfold updateDoc_.
      assert (∀ hooked : bool, (hooker_ E = None → hooked = true) →
        ∃ dmNew imNew updated,
          wrote w
            (let '(ok, w2) :=
               if hooked
               then
                 if p_rType p
                 then
                   match preparePartialDocument_ E (p_document p) w1 with
                   | None => (false, w1)
                   | Some oldIndexDocument =>
                       let ok := updatePartialDocument_answer E (documentManager_ w1)
                                   (p_document p) in
                       let w2 := dmCall (DmUpdatePartial (p_document p) ok) w1 in
                       if ok
                       then (true, imCall (ImUpdateRtype oldIndexDocument prepared.2) w2)
                       else (false, w2)
                   end
                 else
                   let oldId := idoc_getId prepared.2 in
                   let removed := removeDocument_answer E (documentManager_ w1) oldId in
                   let w2 := dmCall (DmRemove oldId removed) w1 in
                   let ok := insertDocument_answer E (documentManager_ w2)
                               (p_document p) in
                   let w3 := dmCall (DmInsert (p_document p) ok) w2 in
                   if ok then (true, imCall (ImUpdate prepared.2) w3) else (false, w3)
               else (false, w1) in
             if ok then countUpdated w2 else w2) dmNew imNew updated
          ∧ ((dmNew = [] ∧ imNew = [] ∧ updated = 0%N)
             ∨ (if p_rType p
                then ∃ ok oldIndexDocument,
                       dmNew = [DmUpdatePartial (p_document p) ok]
                       ∧ imNew = (if ok then [ImUpdateRtype oldIndexDocument prepared.2]
                                  else [])
                       ∧ updated = (if ok then 1 else 0)%N
                else ∃ removed ok,
                       dmNew = [DmRemove (idoc_getId prepared.2) removed;
                                DmInsert (p_document p) ok]
                       ∧ imNew = (if ok then [ImUpdate prepared.2] else [])
                       ∧ updated = (if ok then 1 else 0)%N))
          ∧ (hooker_ E = None → dmNew = [] →
             false = false ∧ p_oldId p ≠ 0%N ∧ p_rType p = true)) as Hgo.
      { intros hooked Hhooked. destruct hooked.
        2: { exists [], [], 0%N. split; [done|]. split; [by left|].
             intros Hh. by specialize (Hhooked Hh). }
        destruct (p_rType p).
        - destruct (preparePartialDocument_ E (p_document p) w1) as [old|].
          2: { exists [], [], 0%N. split; [done|]. split; [by left|done]. }
          cbv zeta.
          set (ok := updatePartialDocument_answer E (documentManager_ w1) (p_document p)).
          exists [DmUpdatePartial (p_document p) ok],
                 (if ok then [ImUpdateRtype old prepared.2] else []),
                 (if ok then 1 else 0)%N.
          split; [|split; [right; by exists ok, old|done]].
          unfold wrote. destruct ok; simpl; rewrite Hd1, Hm1, Hu1, Hdel1;
            [done|by rewrite app_nil_r, N.add_0_r].
        - cbv zeta.
          set (removed := removeDocument_answer E (documentManager_ w1)
                            (idoc_getId prepared.2)).
          set (ok := insertDocument_answer E _ (p_document p)).
          exists [DmRemove (idoc_getId prepared.2) removed; DmInsert (p_document p) ok],
                 (if ok then [ImUpdate prepared.2] else []),
                 (if ok then 1 else 0)%N.
          split; [|split; [right; by exists removed, ok|done]].
          unfold wrote. destruct ok; simpl; rewrite Hd1, Hm1, Hu1, Hdel1, <- app_assoc;
            [done|by rewrite app_nil_r, N.add_0_r]. }
      apply Hgo. intros Hh. by rewrite Hh.
  - subst prepared. unfold prepareIndexDocument_. cbn [fst snd idoc_getId].
    destruct (prepareIndexLoop_cases E (p_oldId p) (getId (p_document p)) w'
                (propertyOrder E (properties (p_document p))) (0%N, 0%N)) as [-> | ->];
      [by right|by left].
  - intros Hall (name & Hname & Hcfg & Hk) Hok.
    by apply (prepareIndexDocument_ids E _ _ _ _ name).
Qed.

(** *** A whole insert or update bundle *)

Definition storeAccepted (c : DmCall) : bool :=
  match c with
  | DmInsert _ ok | DmUpdatePartial _ ok => ok
  | DmRemove _ _ => false
  end.

Definition isIndexUpdate (c : ImCall) : bool :=
  match c with
  | ImUpdate _ | ImUpdateRtype _ _ => true
  | _ => false
  end.

Definition isDmInsert (c : DmCall) : Prop :=
  match c with DmInsert _ _ => True | _ => False end.
Definition isImInsert (c : ImCall) : Prop :=
  match c with ImInsert _ => True | _ => False end.

(** The properties of the patterns that add up over a bundle. *)
Definition indexFollowsStore (isInsert : bool)
    (dmNew : list DmCall) (imNew : list ImCall) (updated : N) : Prop :=
  length imNew = length (List.filter storeAccepted dmNew)
  ∧ updated = N.of_nat (length (List.filter isIndexUpdate imNew))
  ∧ Forall (λ c, ¬ isImRemove c) imNew
  ∧ (isInsert = true → Forall isDmInsert dmNew ∧ Forall isImInsert imNew).

Lemma Written_indexFollowsStore isInsert dmNew imNew updated :
  Written isInsert dmNew imNew updated → indexFollowsStore isInsert dmNew imNew updated.
Proof.
  intros H. inversion H as [|d ok idoc|d ok old idoc Hi|removed d ok idoc Hi]; subst.
  - repeat split; constructor.
  - destruct ok; repeat split; repeat constructor; by intros [].
  - destruct ok; repeat split; repeat constructor; (by intros []) || done.
  - destruct ok; repeat split; repeat constructor; (by intros []) || done.
Qed.

Lemma indexFollowsStore_app isInsert dm1 im1 u1 dm2 im2 u2 :
  indexFollowsStore isInsert dm1 im1 u1 → indexFollowsStore isInsert dm2 im2 u2 →
  indexFollowsStore isInsert (dm1 ++ dm2) (im1 ++ im2) (u1 + u2)%N.
Proof.
  intros (A1 & A2 & A3 & A4) (B1 & B2 & B3 & B4). split; [|split; [|split]].
  - rewrite !List.filter_app, !length_app. lia.
  - rewrite List.filter_app, length_app. lia.
  - by apply Forall_app.
  - intros Hi. destruct (A4 Hi), (B4 Hi). split; by apply Forall_app.
Qed.

Lemma wrote_trans w1 w2 w3 dm1 im1 u1 dm2 im2 u2 :
  wrote w1 w2 dm1 im1 u1 → wrote w2 w3 dm2 im2 u2 →
  wrote w1 w3 (dm1 ++ dm2) (im1 ++ im2) (u1 + u2)%N.
Proof.
  unfold wrote. intros (A1 & A2 & A3 & A4) (-> & -> & -> & ->).
  rewrite A1, A2, A3, A4, <- !app_assoc. repeat split; try done. lia.
Qed.

Lemma insertOrUpdateLoop_writes isInsert numdoc timestamp docs : ∀ n w,
  ∃ dmNew imNew updated,
    wrote w (insertOrUpdateLoop E isInsert numdoc timestamp docs n w).2
          dmNew imNew updated
    ∧ indexFollowsStore isInsert dmNew imNew updated.
Proof.
  induction docs as [|doc docs IH]; intros n w; simpl.
  - exists [], [], 0%N. split; [by apply wrote_nothing|]. repeat split; constructor.
  - destruct doc as [doc|].
    2: { exists [], [], 0%N. split; [by apply wrote_nothing|]. repeat split; constructor. }
    destruct ((0 <? numdoc)%N && (numdoc <=? n)%N).
    { exists [], [], 0%N. split; [by apply wrote_nothing|]. repeat split; constructor. }
    destruct (processDocument_writes isInsert timestamp doc w)
      as (dm1 & im1 & u1 & HW & Hw).
    destruct (IH (n + 1)%N (processDocument E isInsert timestamp doc w))
      as (dm2 & im2 & u2 & Hw2 & Hf2).
    exists (dm1 ++ dm2), (im1 ++ im2), (u1 + u2)%N. split.
    + by eapply wrote_trans.
    + apply indexFollowsStore_app; [by apply Written_indexFollowsStore|done].
Qed.

(** Over a whole insert or update bundle the index follows the document
    store: it is written once for every insert or partial update the
    document store accepted, and not otherwise; it never receives a removal;
    [numUpdatedDocs_] grows by the number of index updates and
    [numDeletedDocs_] not at all.  An insert bundle only inserts: the
    document store receives nothing but [insertDocument], the index nothing
    but [insertDocument], and [numUpdatedDocs_] stays. *)
Theorem index_follows_store
    (docs : list (option SCDDoc)) (isInsert : bool) (numdoc : N) (timestamp : Z)
    (w : World) :
  let w' := (insertOrUpdateSCD_ E docs isInsert numdoc timestamp w).2 in
  ∃ dmNew imNew,
    documentManager_ w' = documentManager_ w ++ dmNew
    ∧ indexManager_ w' = indexManager_ w ++ imNew
    ∧ length imNew = length (List.filter storeAccepted dmNew)
    ∧ Forall (λ c, ¬ isImRemove c) imNew
    ∧ numUpdatedDocs_ w'
      = (numUpdatedDocs_ w + N.of_nat (length (List.filter isIndexUpdate imNew)))%N
    ∧ numDeletedDocs_ w' = numDeletedDocs_ w
    ∧ (isInsert = true →
       Forall isDmInsert dmNew ∧ Forall isImInsert imNew
       ∧ numUpdatedDocs_ w' = numUpdatedDocs_ w).
Proof.
  intros w'. subst w'. unfold insertOrUpdateSCD_.
  destruct (insertOrUpdateLoop_writes isInsert numdoc timestamp docs 0%N w)
    as (dmNew & imNew & updated & (Hd & Hm & Hu & Hdel) & (F1 & F2 & F3 & F4)).
  exists dmNew, imNew. rewrite Hd, Hm, Hu, Hdel, F2. repeat split; try done.
  - by apply F4.
  - by apply F4.
  - destruct (F4 H) as [_ Him]. clear -Him.
    assert (List.filter isIndexUpdate imNew = []) as ->; [|simpl; lia].
    induction Him as [|c l Hc _ IH]; [done|]. destruct c; try done.
Qed.

(** *** The document limit and null documents *)

Lemma insertOrUpdateLoop_limit isInsert numdoc timestamp docs : ∀ k n w,
  (0 < numdoc)%N →
  N.to_nat numdoc = N.to_nat n + k →
  Forall is_Some (take (S k) docs) →
  insertOrUpdateLoop E isInsert numdoc timestamp docs n w
  = (true, foldl (λ w doc, processDocument E isInsert timestamp doc w) w
             (omap id (take k docs))).
Proof.
  induction docs as [|doc docs IH]; intros k n w Hpos Hk Hall.
  { by rewrite take_nil. }
  simpl in Hall. apply Forall_cons in Hall as [[d ->] Hall]. simpl.
  apply N.ltb_lt in Hpos as Hpos'. rewrite Hpos'. cbn [andb].
  destruct k as [|k].
  - assert ((numdoc <=? n)%N = true) as ->; [apply N.leb_le; lia|]. done.
  - assert ((numdoc <=? n)%N = false) as ->; [apply N.leb_gt; lia|].
    simpl. apply IH; [done|lia|done].
Qed.

Lemma insertOrUpdateLoop_null isInsert numdoc timestamp pre post : ∀ n w,
  Forall is_Some pre →
  (numdoc = 0%N ∨ N.to_nat n + length pre ≤ N.to_nat numdoc) →
  insertOrUpdateLoop E isInsert numdoc timestamp (pre ++ None :: post) n w
  = (false, foldl (λ w doc, processDocument E isInsert timestamp doc w) w
              (omap id pre)).
Proof.
  induction pre as [|doc pre IH]; intros n w Hall Hlim; [done|].
  apply Forall_cons in Hall as [[d ->] Hall]. simpl.
  assert ((0 <? numdoc)%N && (numdoc <=? n)%N = false) as ->.
  { destruct Hlim as [->|Hlim]; [done|]. apply andb_false_iff. right.
    apply N.leb_gt. simpl in Hlim. lia. }
  apply IH; [done|]. destruct Hlim as [?|Hlim]; [by left|right]. simpl in Hlim. lia.
Qed.

(** With a document limit [numdoc > 0], a bundle whose first [numdoc + 1]
    documents are there is processed up to its [numdoc]-th document and the
    pass returns [true].  A null document ends the pass with [false] after
    the documents before it have been processed; as the null check comes
    before the limit check, this is so even for a null document that stands
    right behind the limit. *)
Theorem bundle_stops_at_limit_or_null
    (isInsert : bool) (numdoc : N) (timestamp : Z) (w : World) :
  let process := foldl (λ w doc, processDocument E isInsert timestamp doc w) w in
  (∀ docs,
     (0 < numdoc)%N →
     Forall is_Some (take (S (N.to_nat numdoc)) docs) →
     insertOrUpdateSCD_ E docs isInsert numdoc timestamp w
     = (true, process (omap id (take (N.to_nat numdoc) docs))))
  ∧ (∀ pre post,
       Forall is_Some pre →
       numdoc = 0%N ∨ length pre ≤ N.to_nat numdoc →
       insertOrUpdateSCD_ E (pre ++ None :: post) isInsert numdoc timestamp w
       = (false, process (omap id pre))).
Proof.
  intros process. split.
  - intros docs Hpos Hall. unfold insertOrUpdateSCD_.
    by apply insertOrUpdateLoop_limit.
  - intros pre post Hall Hlim. unfold insertOrUpdateSCD_.
    apply insertOrUpdateLoop_null; [done|]. destruct Hlim; [by left|right]. simpl. lia.
Qed.

(** *** A delete bundle *)

Lemma deleteDoc_counts docId timestamp w :
  let w' := (deleteDoc_ E docId timestamp w).2 in
  ∃ imNew,
    indexManager_ w' = indexManager_ w ++ imNew
    ∧ numDeletedDocs_ w' = (numDeletedDocs_ w + N.of_nat (length imNew))%N
    ∧ numUpdatedDocs_ w' = numUpdatedDocs_ w
    ∧ idManager_ w' = idManager_ w.
Proof.
  unfold deleteDoc_.
  destruct (match hooker_ E with Some h => _ | None => true end).
  - destruct (removeDocument_answer E (documentManager_ w) docId).
    + exists [ImRemove (collectionId_ E) docId]. done.
    + exists []. simpl. by rewrite app_nil_r, N.add_0_r.
  - exists []. simpl. by rewrite app_nil_r, N.add_0_r.
Qed.

Lemma deleteLoop_counts timestamp docIdList : ∀ w,
  let w' := (deleteLoop E timestamp docIdList w).2 in
  ∃ imNew,
    indexManager_ w' = indexManager_ w ++ imNew
    ∧ numDeletedDocs_ w' = (numDeletedDocs_ w + N.of_nat (length imNew))%N
    ∧ numUpdatedDocs_ w' = numUpdatedDocs_ w
    ∧ idManager_ w' = idManager_ w.
Proof.
  induction docIdList as [|docId rest IH]; intros w.
  { exists []. simpl. by rewrite app_nil_r, N.add_0_r. }
  assert (∀ w0, indexManager_ w0 = indexManager_ w →
                numDeletedDocs_ w0 = numDeletedDocs_ w →
                numUpdatedDocs_ w0 = numUpdatedDocs_ w →
                idManager_ w0 = idManager_ w →
    let w' := (deleteLoop E timestamp rest (deleteDoc_ E docId timestamp w0).2).2 in
    ∃ imNew,
      indexManager_ w' = indexManager_ w ++ imNew
      ∧ numDeletedDocs_ w' = (numDeletedDocs_ w + N.of_nat (length imNew))%N
      ∧ numUpdatedDocs_ w' = numUpdatedDocs_ w
      ∧ idManager_ w' = idManager_ w) as Hgo.
  { intros w0 Hm0 Hd0 Hu0 Hi0.
    destruct (deleteDoc_counts docId timestamp w0) as (im1 & Hm1 & Hd1 & Hu1 & Hi1).
    destruct (IH (deleteDoc_ E docId timestamp w0).2) as (im2 & Hm2 & Hd2 & Hu2 & Hi2).
    exists (im1 ++ im2). cbv zeta.
    rewrite Hm2, Hd2, Hu2, Hi2, Hm1, Hd1, Hu1, Hi1, Hm0, Hd0, Hu0, Hi0.
    rewrite <- app_assoc, length_app. repeat split; try done. lia. }
  simpl deleteLoop.
  destruct (emptyString (productSourceField_ E)).
  { by apply Hgo. }
  destruct (getPropertyValue E (documentManager_ w) docId (productSourceField_ E))
    as [[text|offsets]|]; simpl.
  - by apply Hgo.
  - exists []. by rewrite app_nil_r, N.add_0_r.
  - by apply Hgo.
Qed.

(** A delete bundle counts what it deletes: [numDeletedDocs_] grows by the
    number of removals the index received; the id manager is asked but never
    written to, so the DOCIDs of deleted documents stay known to it;
    [numUpdatedDocs_] stays.  A bundle whose DOCID list cannot be read
    changes nothing and fails. *)
Theorem delete_bundle_counts_removals
    (rawDocIDList : option (list string)) (timestamp : Z) (w : World) :
  let r := deleteSCD_ E rawDocIDList timestamp w in
  (∃ imNew,
     indexManager_ r.2 = indexManager_ w ++ imNew
     ∧ numDeletedDocs_ r.2 = (numDeletedDocs_ w + N.of_nat (length imNew))%N)
  ∧ numUpdatedDocs_ r.2 = numUpdatedDocs_ w
  ∧ idManager_ r.2 = idManager_ w
  ∧ (rawDocIDList = None → r = (false, w)).
Proof.
  intros r. subst r. unfold deleteSCD_. destruct rawDocIDList as [raw|].
  - destruct (deleteLoop_counts timestamp (merge_sort N.le (resolveDocIds E w raw)) w)
      as (imNew & Hm & Hd & Hu & Hi).
    split; [by exists imNew|]. done.
  - split; [|done]. exists []. simpl. by rewrite app_nil_r, N.add_0_r.
Qed.

(** *** What the classifier records *)

(** Indexed, filterable and not analyzed: the properties whose new value
    [checkRtype_] records. *)
Definition recordable (cfg : PropertyConfig) : bool :=
  isIndex cfg && getIsFilter cfg && negb (isAnalyzed cfg).

(** The entry of [rTypeFieldValue] is the new value of a recordable
    property of the document. *)
Definition recordedFrom (doc : SCDDoc) (k : string) (e : PropertyDataType * string)
  : Prop :=
  ∃ field cfg,
    field ∈ doc ∧ findProperty E field.1 = Some cfg ∧ recordable cfg = true
    ∧ iequals field.1 DOCID = false
    ∧ k = propertyName_ cfg
    ∧ e = (propertyType_ cfg, newValueOf E field.1 field.2).

(** The property is known to the schema and, if it is a DOCID, the id
    manager knows the document. *)
Definition resolvable (w : World) (field : string * string) : Prop :=
  is_Some (findProperty E field.1)
  ∧ (iequals field.1 DOCID = true →
     is_Some (getDocIdByDocName E (idManager_ w)
                (md5ToUint128 E (convertString E field.2 UTF_8)))).

Lemma recordedFrom_weaken doc doc' k e :
  (∀ f, f ∈ doc → f ∈ doc') → recordedFrom doc k e → recordedFrom doc' k e.
Proof.
  intros Hsub (field & cfg & Hin & H). exists field, cfg. split; [by apply Hsub|done].
Qed.

Lemma checkRtype_field_records w st field st' :
  checkRtype_field E w st field = Next st' →
  resolvable w field
  ∧ (∀ k e, rs_fieldValue st' !! k = Some e →
            rs_fieldValue st !! k = Some e ∨ recordedFrom [field] k e)
  ∧ (rs_isUpdate st' = false →
     rs_isUpdate st = false ∧ rs_fieldValue st' = rs_fieldValue st)
  ∧ (rs_isUpdate st = true → rs_isUpdate st' = true).
Proof.
  unfold checkRtype_field, resolvable.
  destruct (findProperty E field.1) as [iter|] eqn:Hcfg; [|done].
  destruct (iequals field.1 DOCID) eqn:Hdocid.
  - destruct (getDocIdByDocName E _ _) as [id|]; [|done]. intros [= <-]. simpl.
    split; [by eauto|]. by auto.
  - destruct (getPropertyValue E _ _ _) as [value|]; [|done].
    destruct (getPropertyValue_ E value) as [oldValueStr|]; [|done].
    destruct (String.eqb _ oldValueStr).
    { intros [= <-]. split; [by eauto|]. by auto. }
    destruct (isIndex iter && getIsFilter iter && negb (isAnalyzed iter)) eqn:Hrec.
    { intros [= <-]. simpl. split; [by eauto|]. split; [|done].
      intros k e Hk. destruct (decide (propertyName_ iter = k)) as [<-|Hne].
      - rewrite lookup_insert_eq in Hk. injection Hk as <-. right.
        exists field, iter. split; [by apply list_elem_of_singleton|]. done.
      - rewrite lookup_insert_ne in Hk by done. by left. }
    destruct (negb (isIndex iter)); [|done].
    intros [= <-]. simpl. split; [by eauto|]. split; [by auto|done].
Qed.

Lemma checkRtype_loop_records w doc : ∀ st st',
  checkRtype_loop E w doc st = Next st' →
  Forall (resolvable w) doc
  ∧ (∀ k e, rs_fieldValue st' !! k = Some e →
            rs_fieldValue st !! k = Some e ∨ recordedFrom doc k e)
  ∧ (rs_isUpdate st' = false →
     rs_isUpdate st = false ∧ rs_fieldValue st' = rs_fieldValue st)
  ∧ (rs_isUpdate st = true → rs_isUpdate st' = true).
Proof.
  induction doc as [|field doc IH]; intros st st'; simpl.
  { intros [= <-]. split; [constructor|]. by auto. }
  destruct (checkRtype_field E w st field) as [st1| |] eqn:Hf; [|done..].
  intros Hloop.
  destruct (checkRtype_field_records _ _ _ _ Hf) as (A1 & A2 & A3 & A4).
  destruct (IH _ _ Hloop) as (B1 & B2 & B3 & B4).
  split; [by constructor|]. split; [|split].
  - intros k e Hk. destruct (B2 k e Hk) as [Hk1|Hrec].
    + destruct (A2 k e Hk1) as [?|Hrec]; [by left|right].
      eapply recordedFrom_weaken; [|exact Hrec].
      intros f Hin. apply list_elem_of_singleton in Hin as ->. by left.
    + right. eapply recordedFrom_weaken; [|exact Hrec]. intros f Hin. by right.
  - intros Hu. destruct (B3 Hu) as [Hu1 ->]. by apply A3.
  - intros Hu. by apply B4, A4.
Qed.

Lemma checkRtype_loop_isUpdate w doc : ∀ st,
  rs_isUpdate st = true →
  match checkRtype_loop E w doc st with
  | Next st' | Break st' | ReturnFalse st' => rs_isUpdate st' = true
  end.
Proof.
  induction doc as [|field doc IH]; intros st Hu; simpl; [done|].
  destruct (checkRtype_field E w st field) as [st1| |] eqn:Hf.
  - apply IH. by destruct (checkRtype_field_records _ _ _ _ Hf) as (_ & _ & _ & ->).
  - revert Hf. unfold checkRtype_field.
    repeat (match goal with
            | |- context [match ?x with _ => _ end] => destruct x
            end; try done); by intros [= <-].
  - revert Hf. unfold checkRtype_field.
    repeat (match goal with
            | |- context [match ?x with _ => _ end] => destruct x
            end; try done); by intros [= <-].
Qed.

(** When [checkRtype_] answers R-type, every property of the document is in
    the schema and every DOCID among them is known to the id manager; what
    it has added to [rTypeFieldValue] are new values of properties of the
    document that are indexed, filterable and not analyzed, under the name
    and with the type the schema gives; and if it reports no change it has
    added nothing.  A change flag that comes in set stays set. *)
Theorem classifier_records_changed_filter_values
    (w : World) (doc : SCDDoc)
    (rTypeFieldValue : gmap string (PropertyDataType * string)) (isUpdate : bool) :
  let r := checkRtype_ E w doc rTypeFieldValue isUpdate in
  (r.1.1 = true →
     Forall (resolvable w) doc
     ∧ (∀ k e, r.1.2 !! k = Some e →
               rTypeFieldValue !! k = Some e ∨ recordedFrom doc k e)
     ∧ (r.2 = false → r.1.2 = rTypeFieldValue))
  ∧ (isUpdate = true → r.2 = true).
Proof.
  intros r. subst r. unfold checkRtype_.
  set (st0 := {| rs_docId := 0%N; rs_fieldValue := rTypeFieldValue;
                 rs_isUpdate := isUpdate |}).
  split.
  - destruct (checkRtype_loop E w doc st0) as [st| |] eqn:Hloop; [|done..].
    intros _. destruct (checkRtype_loop_records _ _ _ _ Hloop) as (H1 & H2 & H3 & _).
    cbn [fst snd]. split; [done|]. split; [done|]. intros Hu. by apply H3.
  - intros Hu. pose proof (checkRtype_loop_isUpdate w doc st0 Hu) as H.
    by destruct (checkRtype_loop E w doc st0).
Qed.

(** *** The date of a prepared document *)

Definition isDateField (field : string * string) : bool := iequals field.1 DATE.

Definition dateName : string := propertyName_ (dateProperty_ E).

Lemma docid_is_no_date name : iequals name DOCID = true → iequals name DATE = false.
Proof.
  unfold iequals. intros H. apply String.eqb_eq in H. rewrite H. reflexivity.
Qed.

(** What a property leaves of the date bookkeeping of [prepareDocument_]. *)
Definition dateStep (field : string * string) (st st' : PrepState) : Prop :=
  ps_dateExistInSCD st' = ps_dateExistInSCD st || isDateField field
  ∧ (isDateField field = false → ps_timestamp st' = ps_timestamp st)
  ∧ (∀ k, is_Some (properties (ps_document st) !! k) →
          is_Some (properties (ps_document st') !! k))
  ∧ (isDateField field = true → is_Some (properties (ps_document st') !! dateName)).

Lemma prepareDocId_date doc fieldStr value st w st' w' :
  prepareDocId E doc fieldStr value st w = (Some st', w') →
  ps_dateExistInSCD st' = ps_dateExistInSCD st
  ∧ ps_timestamp st' = ps_timestamp st
  ∧ ∀ k, is_Some (properties (ps_document st) !! k) →
         is_Some (properties (ps_document st') !! k).
Proof.
  assert (∀ k name (v : PropertyValue), is_Some (properties (ps_document st) !! k) →
            is_Some (<[name := v]> (properties (ps_document st)) !! k))
    as Hkeep.
  { intros k name v Hk. apply lookup_insert_is_Some'. by right. }
  unfold prepareDocId.
  destruct (ps_insert st).
  - destruct (createInsertDocId_ E _ w) as [[id|] w1]; [|done].
    intros [= <- _]. simpl. split; [done|]. split; [done|]. intros k. apply Hkeep.
  - destruct (checkRtype_ E w doc (ps_rTypeFieldValue st) false) as [[rType fv] isUpdate].
    destruct (rType && negb isUpdate); [done|].
    destruct (createUpdateDocId_ E _ rType (ps_oldId st) (ps_docId st) w) as [ids w1].
    destruct (negb (ids_ok ids)).
    + destruct (createInsertDocId_ E _ w1) as [[id|] w2]; [|done].
      intros [= <- _]. simpl. split; [done|]. split; [done|]. intros k. apply Hkeep.
    + intros [= <- _]. simpl. split; [done|]. split; [done|]. intros k. apply Hkeep.
Qed.

Lemma prepareField_date doc field st w st' w' :
  prepareField E doc field st w = (Some st', w') → dateStep field st st'.
Proof.
  unfold prepareField, dateStep, isDateField.
  set (st0 := if negb (emptyString (productSourceField_ E))
                 && iequals field.1 (productSourceField_ E)
              then withSource (convertString E field.2 (encoding_ E)) st else st).
  assert (ps_dateExistInSCD st0 = ps_dateExistInSCD st
          ∧ ps_timestamp st0 = ps_timestamp st
          ∧ ps_document st0 = ps_document st) as (Hd0 & Ht0 & Hdoc0).
  { subst st0. by destruct (_ && _). }
  destruct (iequals field.1 DOCID && bool_decide (is_Some (findProperty E field.1)))
    eqn:Hdocid.
  - apply andb_true_iff in Hdocid as [Hdocid _].
    rewrite (docid_is_no_date _ Hdocid). intros H.
    destruct (prepareDocId_date _ _ _ _ _ _ _ H) as (H1 & H2 & H3).
    rewrite H1, H2, Hd0, Ht0, orb_false_r. rewrite Hdoc0 in H3. done.
  - destruct (iequals field.1 DATE) eqn:Hdate.
    + intros [= <- _]. simpl. rewrite orb_true_r. split; [done|]. split; [done|].
      rewrite Hdoc0. split.
      * intros k Hk. apply lookup_insert_is_Some'. by right.
      * intros _. unfold dateName. rewrite lookup_insert_eq. by eauto.
    + rewrite orb_false_r. destruct (findProperty E field.1) as [iter|].
      * intros [= <- _]. simpl. rewrite Hd0, Ht0, Hdoc0. split; [done|].
        split; [done|]. split; [|done].
        apply (IndexWorker.prepareIndexed_keeps E).
      * intros [= <- _]. by rewrite Hd0, Ht0, Hdoc0.
Qed.

Lemma prepareLoop_date doc fields : ∀ st w st' w',
  prepareLoop E doc fields st w = (Some st', w') →
  (ps_dateExistInSCD st = true → is_Some (properties (ps_document st) !! dateName)) →
  ps_dateExistInSCD st' = ps_dateExistInSCD st || existsb isDateField fields
  ∧ (existsb isDateField fields = false → ps_timestamp st' = ps_timestamp st)
  ∧ (ps_dateExistInSCD st' = true → is_Some (properties (ps_document st') !! dateName)).
Proof.
  induction fields as [|field fields IH]; intros st w st' w'; simpl.
  { intros [= <- _] Hinv. by rewrite orb_false_r. }
  destruct (prepareField E doc field st w) as [[st1|] w1] eqn:Hf; [|done].
  intros Hloop Hinv.
  destruct (prepareField_date _ _ _ _ _ _ Hf) as (A1 & A2 & A3 & A4).
  destruct (IH _ _ _ _ Hloop) as (B1 & B2 & B3).
  { rewrite A1. intros Hd. apply orb_true_iff in Hd as [Hd|Hd]; [|by apply A4].
    by apply A3, Hinv. }
  split; [|split; [|done]].
  - by rewrite B1, A1, orb_assoc.
  - intros Hno. apply orb_false_iff in Hno as [Hf1 Hrest].
    by rewrite (B2 Hrest), (A2 Hf1).
Qed.

(** A document [prepareDocument_] lets through always carries the date
    property.  If the bundle gives the document a DATE, the timestamp handed
    on is [-1]; if not, it is the timestamp that came in, and the date
    property holds the date made of that timestamp. *)
Theorem prepared_document_is_dated
    (doc : SCDDoc) (timestamp : Z) (insert : bool) (w : World) :
  match (prepareDocument_ E doc timestamp insert w).1 with
  | Some p =>
      is_Some (properties (p_document p) !! dateName)
      ∧ p_timestamp p = (if existsb isDateField doc then (-1)%Z else timestamp)
      ∧ (existsb isDateField doc = false →
         properties (p_document p) !! dateName
         = Some (PV_UString (isoDateOf E timestamp)))
  | None => True
  end.
Proof.
  unfold prepareDocument_. destruct doc as [|field rest]; [done|].
  destruct (prepareLoop E (field :: rest) (field :: rest)
              (initialState timestamp insert) w) as [[st|] w'] eqn:Hloop; [|done].
  destruct (prepareLoop_date _ _ _ _ _ _ Hloop) as (H1 & H2 & H3); [done|].
  cbn [ps_dateExistInSCD ps_timestamp initialState orb] in H1, H2.
  unfold finishDocument. rewrite H1.
  set (d := if existsb isDateField (field :: rest) then ps_document st
            else setProperty (propertyName_ (dateProperty_ E))
                   (PV_UString (isoDateOf E (ps_timestamp st))) (ps_document st)).
  assert (is_Some (properties d !! dateName)
          ∧ (existsb isDateField (field :: rest) = false →
             properties d !! dateName = Some (PV_UString (isoDateOf E timestamp))))
    as [Hd Hiso].
  { subst d. destruct (existsb isDateField (field :: rest)) eqn:Hex.
    - split; [|done]. apply H3. by rewrite H1.
    - rewrite (H2 eq_refl). simpl. unfold dateName. rewrite lookup_insert_eq.
      split; [by eauto|done]. }
  assert (p_timestamp_ok :
    (if existsb isDateField (field :: rest) then (-1)%Z else ps_timestamp st)
    = (if existsb isDateField (field :: rest) then (-1)%Z else timestamp)).
  { destruct (existsb isDateField (field :: rest)); [done|]. by apply H2. }
  destruct (negb (ps_insert st) && negb (ps_rType st)).
  - unfold completePartialDocument_.
    destruct (getDocument E (documentManager_ w') (ps_oldId st)) as [oldDoc|]; [|done].
    cbn [fst p_document p_timestamp properties]. split; [|split; [done|]].
    + apply lookup_union_is_Some. by left.
    + intros Hno. apply lookup_union_Some_l. by apply Hiso.
  - cbn [fst p_document p_timestamp]. done.
Qed.

(** *** Updates for documents the id manager does not know *)

Lemma processDocument_inserting isInsert timestamp doc w :
  match prepareDocument_ E doc timestamp isInsert w with
  | (Some p, _) => isInsert || (p_oldId p =? 0)%N = true
  | (None, _) => True
  end →
  ∃ dmNew imNew,
    Written true dmNew imNew 0
    ∧ wrote w (processDocument E isInsert timestamp doc w) dmNew imNew 0.
Proof.
  unfold processDocument.
  pose proof (prepareDocument_idOnly doc timestamp isInsert w) as Hprep.
  destruct (prepareDocument_ E doc timestamp isInsert w) as [[p|] w'];
    cbn [snd] in Hprep; destruct Hprep as (_ & Hd & Hm & _ & Hu & Hdel).
  2: { intros _. exists [], []. split; [constructor|]. by apply wrote_nothing. }
  intros ->.
  set (w1 := if emptyString (p_source p) then w' else countSource (p_source p) w').
  assert (documentManager_ w1 = documentManager_ w ∧ indexManager_ w1 = indexManager_ w
          ∧ numUpdatedDocs_ w1 = numUpdatedDocs_ w
          ∧ numDeletedDocs_ w1 = numDeletedDocs_ w) as (Hd1 & Hm1 & Hu1 & Hdel1).
  { subst w1. by destruct (emptyString (p_source p)). }
  destruct (insertDoc_wrote true (p_document p)
              (prepareIndexDocument_ E (p_oldId p) (p_timestamp p) (p_document p) w').2
              (p_timestamp p) w1) as (dmNew & imNew & HW & (H1 & H2 & H3 & H4)).
  exists dmNew, imNew. split; [done|]. unfold wrote.
  by rewrite H1, H2, H3, H4, Hd1, Hm1, Hu1, Hdel1.
Qed.

Lemma prepareLoop_oneDocId pre name value post timestamp w doc :
  oneDocId E pre name post →
  ∃ st0, ps_insert st0 = false ∧ ps_oldId st0 = 0%N
    ∧ match prepareDocId E doc name value st0 w with
      | (None, w1) =>
          prepareLoop E doc (pre ++ (name, value) :: post)
            (initialState timestamp false) w = (None, w1)
      | (Some st1, w1) =>
          ∃ st2, sameIds st1 st2
            ∧ prepareLoop E doc (pre ++ (name, value) :: post)
                (initialState timestamp false) w = (Some st2, w1)
      end.
Proof.
  intros (Hpre & Hname & Hcfg & Hpost). rewrite (prepareLoop_app E).
  destruct (prepareLoop_others E doc pre (initialState timestamp false) w Hpre)
    as (stp & -> & (_ & Hold & _ & Hins & _)).
  simpl prepareLoop.
  destruct (prepareField_docid E doc name value stp w Hname Hcfg)
    as (st0 & -> & (Hins0 & _ & Hold0 & _)).
  exists st0. split; [by rewrite Hins0, Hins|]. split; [by rewrite Hold0, Hold|].
  destruct (prepareDocId E doc name value st0 w) as [[st1|] w1]; [|done].
  destruct (prepareLoop_others E doc post st1 w1 Hpost) as (st2 & -> & H2).
  by exists st2.
Qed.

(** In an update bundle, a document whose DOCID the id manager can neither
    look up nor update is carried out as an insert: the document store
    receives at most an [insertDocument], never a removal or a partial
    update, the index at most an [insertDocument], and the document is not
    counted as updated. *)
Theorem update_of_unknown_document_is_an_insert
    (w : World) (pre : SCDDoc) (name value : string) (post : SCDDoc) (timestamp : Z) :
  oneDocId E pre name post →
  getDocIdByDocName E (idManager_ w)
    (md5ToUint128 E (convertString E value (encoding_ E))) = None →
  updateDocIdByDocName E (idManager_ w)
    (md5ToUint128 E (convertString E value (encoding_ E))) = None →
  let doc := pre ++ (name, value) :: post in
  ∃ dmNew imNew,
    Written true dmNew imNew 0
    ∧ wrote w (processDocument E false timestamp doc w) dmNew imNew 0.
Proof.
  intros Hone Hget Hupd doc. apply processDocument_inserting.
  destruct (prepareLoop_oneDocId pre name value post timestamp w doc Hone)
    as (st0 & Hins & Hold & Hprep).
  assert (prepareDocument_ E doc timestamp false w
          = match prepareLoop E doc doc (initialState timestamp false) w with
            | (None, w') => (None, w')
            | (Some st, w') => finishDocument E st w'
            end) as ->.
  { unfold prepareDocument_, doc. by destruct pre. }
  fold doc in Hprep. unfold prepareDocId in Hprep. rewrite Hins in Hprep.
  destruct (checkRtype_ E w doc (ps_rTypeFieldValue st0) false) as [[rType fv] isUpdate].
  destruct (rType && negb isUpdate).
  { by rewrite Hprep. }
  unfold createUpdateDocId_ in Hprep. rewrite Hget, Hupd in Hprep.
  destruct rType; cbn [ids_ok ids_old ids_new negb] in Hprep.
  - destruct (createInsertDocId_ E _ w) as [[id|] w1].
    + destruct Hprep as (st2 & (_ & H2 & _ & H4 & _) & ->). cbn in H2, H4.
      unfold finishDocument. rewrite H4, H2, Hold. by cbn.
    + by rewrite Hprep.
  - destruct (createInsertDocId_ E _ _) as [[id|] w1].
    + destruct Hprep as (st2 & (_ & H2 & _ & H4 & _) & ->). cbn in H2, H4.
      unfold finishDocument. rewrite H4, H2, Hold. by cbn.
    + by rewrite Hprep.
Qed.

(** *** Single documents through the API *)

(** A request value, as far as the worker looks at it: the bundle document
    [value2SCDDoc] makes of it, and [asString(documentValue["DOCID"])]. *)
Context {Value : Type}.
Variable value2SCDDoc : Value → SCDDoc.
Variable docIdOfValue : Value → string.

(** The worker with its [scd_writer_], which keeps the documents written
    to it, each with the type it was written under. *)
Record Service := {
  world : World;
  scd_writer_ : list (list (string * string) * Recommend.SCD_TYPE)
}.

(** [createDocument] (lines 1308-1359); [current] is the current index
    directory and [timestamp] the answer of [Utilities::createTimeStamp()]. *)
Definition createDocument
    (current : DirectoryBackup.Directory) (timestamp : Z) (documentValue : Value)
    (s : Service) : bool * Service :=
  if negb (Recommend.dirGuard current) then (false, s)
  else
    let scddoc := value2SCDDoc documentValue in
    let written := scd_writer_ s ++ [(scddoc, Recommend.INSERT_SCD)] in
    match prepareDocument_ E scddoc timestamp true (world s) with
    | (None, w) => (false, {| world := w; scd_writer_ := written |})
    | (Some p, w) =>
        let indexDocument :=
          (prepareIndexDocument_ E (p_oldId p) (p_timestamp p) (p_document p) w).2 in
        let r := insertDoc_ E (p_document p) indexDocument (p_timestamp p) w in
        (r.1, {| world := r.2; scd_writer_ := written |})
    end.

(** [updateDocument] (lines 1424-1477). *)
Definition updateDocument
    (current : DirectoryBackup.Directory) (timestamp : Z) (documentValue : Value)
    (s : Service) : bool * Service :=
  if negb (Recommend.dirGuard current) then (false, s)
  else
    let scddoc := value2SCDDoc documentValue in
    let written := scd_writer_ s ++ [(scddoc, Recommend.UPDATE_SCD)] in
    match prepareDocument_ E scddoc timestamp false (world s) with
    | (None, w) => (false, {| world := w; scd_writer_ := written |})
    | (Some p, w) =>
        let indexDocument :=
          (prepareIndexDocument_ E (p_oldId p) (p_timestamp p) (p_document p) w).2 in
        let r := updateDoc_ E (p_document p) indexDocument (p_timestamp p)
                   (p_rType p) w in
        (r.1, {| world := r.2; scd_writer_ := written |})
    end.

(** [destroyDocument] (lines 1479-1522). *)
Definition destroyDocument
    (current : DirectoryBackup.Directory) (timestamp : Z) (documentValue : Value)
    (s : Service) : bool * Service :=
  if negb (Recommend.dirGuard current) then (false, s)
  else
    let scddoc := value2SCDDoc documentValue in
    match getDocIdByDocName E (idManager_ (world s))
            (md5ToUint128 E (docIdOfValue documentValue)) with
    | None => (false, s)
    | Some docid =>
        let written := scd_writer_ s ++ [(scddoc, Recommend.DELETE_SCD)] in
        let r := deleteDoc_ E docid timestamp (world s) in
        (r.1, {| world := r.2; scd_writer_ := written |})
    end.

(** With a dirty index directory none of the three document calls does
    anything.  With a clean one, [createDocument] and [updateDocument] hand
    the document to the [scd_writer_] before they look at it, so it is
    written whether or not it is then let through; [destroyDocument] writes
    it only once the id manager has been found to know the DOCID, and
    otherwise returns [false] with nothing done. *)
Theorem document_calls_write_scd_first
    (current : DirectoryBackup.Directory) (timestamp : Z) (documentValue : Value)
    (s : Service) :
  let scddoc := value2SCDDoc documentValue in
  let known :=
    getDocIdByDocName E (idManager_ (world s))
      (md5ToUint128 E (docIdOfValue documentValue)) in
  (DirectoryBackup.valid current = false →
     createDocument current timestamp documentValue s = (false, s)
     ∧ updateDocument current timestamp documentValue s = (false, s)
     ∧ destroyDocument current timestamp documentValue s = (false, s))
  ∧ (DirectoryBackup.valid current = true →
       scd_writer_ (createDocument current timestamp documentValue s).2
       = scd_writer_ s ++ [(scddoc, Recommend.INSERT_SCD)]
       ∧ scd_writer_ (updateDocument current timestamp documentValue s).2
         = scd_writer_ s ++ [(scddoc, Recommend.UPDATE_SCD)]
       ∧ scd_writer_ (destroyDocument current timestamp documentValue s).2
         = scd_writer_ s
           ++ match known with
              | Some _ => [(scddoc, Recommend.DELETE_SCD)]
              | None => []
              end
       ∧ (known = None →
          destroyDocument current timestamp documentValue s = (false, s))).
Proof.
  intros scddoc known. subst scddoc known.
  unfold createDocument, updateDocument, destroyDocument, Recommend.dirGuard.
  split; intros ->; cbn [negb].
  - done.
  - split; [|split; [|split]].
    + by destruct (prepareDocument_ E _ timestamp true (world s)) as [[p|] w].
    + by destruct (prepareDocument_ E _ timestamp false (world s)) as [[p|] w].
    + destruct (getDocIdByDocName E _ _); [done|]. by rewrite app_nil_r.
    + by intros ->.
Qed.

Lemma insertDoc_index d idoc timestamp w :
  let r := insertDoc_ E d idoc timestamp w in
  indexManager_ r.2 = indexManager_ w ++ (if r.1 then [ImInsert idoc] else [])
  ∧ numUpdatedDocs_ r.2 = numUpdatedDocs_ w ∧ numDeletedDocs_ r.2 = numDeletedDocs_ w.
Proof.
  unfold insertDoc_.
  destruct (match hooker_ E with Some h => _ | None => true end).
  - destruct (insertDocument_answer E (documentManager_ w) d); simpl;
      by rewrite ?app_nil_r.
  - simpl. by rewrite app_nil_r.
Qed.

Lemma updateDoc_index d idoc timestamp rType w :
  let r := updateDoc_ E d idoc timestamp rType w in
  (∃ imNew, indexManager_ r.2 = indexManager_ w ++ imNew
            ∧ (if r.1
               then ∃ c, imNew = [c] ∧ isIndexUpdate c = true
               else imNew = []))
  ∧ numUpdatedDocs_ r.2 = numUpdatedDocs_ w ∧ numDeletedDocs_ r.2 = numDeletedDocs_ w.
Proof.
  unfold updateDoc_.
  destruct (match hooker_ E with Some h => _ | None => true end).
  2: { split; [|done]. exists []. simpl. by rewrite app_nil_r. }
  destruct rType.
  - destruct (preparePartialDocument_ E d w) as [old|].
    2: { split; [|done]. exists []. simpl. by rewrite app_nil_r. }
    destruct (updatePartialDocument_answer E (documentManager_ w) d); simpl.
    + split; [|done]. eexists. split; [done|]. by eexists.
    + split; [|done]. exists []. by rewrite app_nil_r.
  - cbv zeta. destruct (insertDocument_answer E _ d); simpl.
    + split; [|done]. eexists. split; [done|]. by eexists.
    + split; [|done]. exists []. by rewrite app_nil_r.
Qed.

Lemma deleteDoc_index docid timestamp w :
  let r := deleteDoc_ E docid timestamp w in
  indexManager_ r.2
  = indexManager_ w ++ (if r.1 then [ImRemove (collectionId_ E) docid] else [])
  ∧ numDeletedDocs_ r.2 = (numDeletedDocs_ w + (if r.1 then 1 else 0))%N
  ∧ numUpdatedDocs_ r.2 = numUpdatedDocs_ w.
Proof.
  unfold deleteDoc_.
  destruct (match hooker_ E with Some h => _ | None => true end).
  - destruct (removeDocument_answer E (documentManager_ w) docid); simpl;
      by rewrite ?app_nil_r, ?N.add_0_r.
  - simpl. by rewrite app_nil_r, N.add_0_r.
Qed.

(** A document call returns [true] exactly when it has written the index,
    and then it has written it once: [createDocument] an insert,
    [updateDocument] an update, [destroyDocument] a removal.  The calls on
    single documents do not count updates, as the bundle loop does; a
    removal is counted. *)
Theorem document_call_succeeds_when_index_written
    (current : DirectoryBackup.Directory) (timestamp : Z) (documentValue : Value)
    (s : Service) :
  let create := createDocument current timestamp documentValue s in
  let update := updateDocument current timestamp documentValue s in
  let destroy := destroyDocument current timestamp documentValue s in
  (∃ imNew, indexManager_ (world create.2) = indexManager_ (world s) ++ imNew
            ∧ (if create.1 then ∃ idoc, imNew = [ImInsert idoc] else imNew = []))
  ∧ (∃ imNew, indexManager_ (world update.2) = indexManager_ (world s) ++ imNew
              ∧ (if update.1
                 then ∃ c, imNew = [c] ∧ isIndexUpdate c = true
                 else imNew = []))
  ∧ (∃ imNew, indexManager_ (world destroy.2) = indexManager_ (world s) ++ imNew
              ∧ (if destroy.1 then ∃ id, imNew = [ImRemove (collectionId_ E) id]
                 else imNew = [])
              ∧ numDeletedDocs_ (world destroy.2)
                = (numDeletedDocs_ (world s) + N.of_nat (length imNew))%N)
  ∧ numUpdatedDocs_ (world create.2) = numUpdatedDocs_ (world s)
  ∧ numUpdatedDocs_ (world update.2) = numUpdatedDocs_ (world s).
Proof.
  intros create update destroy. subst create update destroy.
  unfold createDocument, updateDocument, destroyDocument.
  destruct (negb (Recommend.dirGuard current)).
  { cbn [fst snd]. repeat split; try done; exists []; by rewrite app_nil_r, ?N.add_0_r. }
  pose proof (prepareDocument_idOnly (value2SCDDoc documentValue) timestamp true
                (world s)) as (_ & _ & HmI & _ & HuI & _).
  pose proof (prepareDocument_idOnly (value2SCDDoc documentValue) timestamp false
                (world s)) as (_ & _ & HmU & _ & HuU & _).
  split; [|split; [|split; [|split]]].
  - destruct (prepareDocument_ E _ timestamp true (world s)) as [[p|] w]; cbn [fst snd world] in *.
    + destruct (insertDoc_index (p_document p)
                  (prepareIndexDocument_ E (p_oldId p) (p_timestamp p) (p_document p) w).2
                  (p_timestamp p) w) as (Hm & _).
      eexists. rewrite Hm, HmI. split; [done|].
      destruct (insertDoc_ E _ _ _ w).1; [by eexists|done].
    + exists []. by rewrite app_nil_r.
  - destruct (prepareDocument_ E _ timestamp false (world s)) as [[p|] w]; cbn [fst snd world] in *.
    + destruct (updateDoc_index (p_document p)
                  (prepareIndexDocument_ E (p_oldId p) (p_timestamp p) (p_document p) w).2
                  (p_timestamp p) (p_rType p) w) as ((imNew & Hm & Hres) & _).
      exists imNew. by rewrite Hm, HmU.
    + exists []. by rewrite app_nil_r.
  - destruct (getDocIdByDocName E _ _) as [docid|]; cbn [fst snd world].
    + destruct (deleteDoc_index docid timestamp (world s)) as (Hm & Hd & _).
      eexists. split; [exact Hm|]. rewrite Hd.
      destruct (deleteDoc_ E docid timestamp (world s)).1; [|done].
      split; [by eexists|done].
    + exists []. by rewrite app_nil_r, N.add_0_r.
  - destruct (prepareDocument_ E _ timestamp true (world s)) as [[p|] w]; cbn [fst snd world] in *;
      [|done].
    destruct (insertDoc_index (p_document p)
                (prepareIndexDocument_ E (p_oldId p) (p_timestamp p) (p_document p) w).2
                (p_timestamp p) w) as (_ & Hu & _).
    by rewrite Hu.
  - destruct (prepareDocument_ E _ timestamp false (world s)) as [[p|] w]; cbn [fst snd world] in *;
      [|done].
    destruct (updateDoc_index (p_document p)
                (prepareIndexDocument_ E (p_oldId p) (p_timestamp p) (p_document p) w).2
                (p_timestamp p) (p_rType p) w) as (_ & Hu & _).
    by rewrite Hu.
Qed.

(** *** Rebuilding from another document store *)

(** The document store [rebuildCollection] reads from.  [src_docIdText] is
    [document.getProperty("DOCID", docidValueU)]: the text of the DOCID
    property, if the document has one. *)
Record SourceStore := {
  src_getMaxDocId : docid_t;
  src_isDeleted : docid_t → bool;
  src_getDocument : docid_t → Document;
  src_docIdText : Document → option string
}.

(** The body of the loop of [rebuildCollection] (lines 1199-1244). *)
Definition rebuildDocument (src : SourceStore) (now : Z) (w : World) (curDocId : docid_t)
  : World :=
  if src_isDeleted src curDocId then w
  else
    let document := src_getDocument src curDocId in
    match src_docIdText src document with
    | None => w
    | Some docidValueU =>
        match createInsertDocId_ E
                (md5ToUint128 E (convertString E docidValueU UTF_8)) w with
        | (None, w') => w'
        | (Some newDocId, w') =>
            let document := setId newDocId document in
            let indexDocument := (prepareIndexDocument_ E 0 (-1) document w').2 in
            (insertDoc_ E document indexDocument now w').2
        end
    end.

(** The docids [minDocId .. maxDocId]. *)
Definition docIdsUpTo (maxDocId : docid_t) : list docid_t :=
  map N.of_nat (seq 1 (N.to_nat maxDocId)).

(** [rebuildCollection] (lines 1179-1275).  The outer [None] is a loop that
    does not end: [curDocId] is a 32-bit docid, and with [maxDocId] the
    largest of them [curDocId <= maxDocId] holds for ever.  [now] is the
    answer of [Utilities::createTimeStamp()]. *)
Definition rebuildCollection (documentManager : option SourceStore) (now : Z) (w : World)
  : option (bool * World) :=
  match documentManager with
  | None => Some (false, w)
  | Some src =>
      if (2 ^ 32 - 1 <=? src_getMaxDocId src)%N then None
      else Some (true, foldl (rebuildDocument src now) w
                         (docIdsUpTo (src_getMaxDocId src)))
  end.

Lemma rebuildDocument_writes src now w curDocId :
  ∃ dmNew imNew,
    Written true dmNew imNew 0
    ∧ wrote w (rebuildDocument src now w curDocId) dmNew imNew 0.
Proof.
  unfold rebuildDocument.
  assert (∃ dmNew imNew, Written true dmNew imNew 0 ∧ wrote w w dmNew imNew 0) as Hnone.
  { exists [], []. split; [constructor|]. by apply wrote_nothing. }
  destruct (src_isDeleted src curDocId); [done|].
  destruct (src_docIdText src (src_getDocument src curDocId)) as [text|]; [|done].
  pose proof (createInsertDocId_idOnly
                (md5ToUint128 E (convertString E text UTF_8)) w)
    as (_ & Hd & Hm & _ & Hu & Hdel).
  destruct (createInsertDocId_ E _ w) as [[newDocId|] w']; cbn [snd] in *.
  - destruct (insertDoc_wrote true (setId newDocId (src_getDocument src curDocId))
                (prepareIndexDocument_ E 0 (-1)
                   (setId newDocId (src_getDocument src curDocId)) w').2 now w')
      as (dmNew & imNew & HW & (H1 & H2 & H3 & H4)).
    exists dmNew, imNew. split; [done|]. unfold wrote.
    by rewrite H1, H2, H3, H4, Hd, Hm, Hu, Hdel.
  - exists [], []. split; [constructor|]. by apply wrote_nothing.
Qed.

Lemma rebuildLoop_writes src now docIds : ∀ w,
  ∃ dmNew imNew,
    wrote w (foldl (rebuildDocument src now) w docIds) dmNew imNew 0
    ∧ indexFollowsStore true dmNew imNew 0
    ∧ length dmNew ≤ length docIds.
Proof.
  induction docIds as [|docId docIds IH]; intros w; simpl.
  { exists [], []. split; [by apply wrote_nothing|]. split; [|done].
    repeat split; constructor. }
  destruct (rebuildDocument_writes src now w docId) as (dm1 & im1 & HW & Hw).
  destruct (IH (rebuildDocument src now w docId)) as (dm2 & im2 & Hw2 & Hf2 & Hlen).
  exists (dm1 ++ dm2), (im1 ++ im2). split; [|split].
  - apply (wrote_trans _ _ _ _ _ 0%N _ _ 0%N Hw Hw2).
  - apply (indexFollowsStore_app true dm1 im1 0%N dm2 im2 0%N);
      [by apply Written_indexFollowsStore|done].
  - rewrite length_app. assert (length dm1 ≤ 1); [|lia].
    inversion HW; subst; simpl; lia.
Qed.

(** A rebuild only inserts: walking the docids of the other store from 1
    to its highest, it makes the document store receive nothing but
    [insertDocument], at most one for every docid walked, and the index one
    [insertDocument] for every insert the document store accepted; no
    counter moves, and the result is [true] whatever was turned down on the
    way.  Without a store to read from it returns [false] with nothing
    done. *)
Theorem rebuild_only_inserts (src : SourceStore) (now : Z) (w : World) :
  (src_getMaxDocId src < 2 ^ 32 - 1)%N →
  rebuildCollection None now w = Some (false, w)
  ∧ ∃ w' dmNew imNew,
      rebuildCollection (Some src) now w = Some (true, w')
      ∧ documentManager_ w' = documentManager_ w ++ dmNew
      ∧ indexManager_ w' = indexManager_ w ++ imNew
      ∧ Forall isDmInsert dmNew ∧ Forall isImInsert imNew
      ∧ length imNew = length (List.filter storeAccepted dmNew)
      ∧ length dmNew ≤ N.to_nat (src_getMaxDocId src)
      ∧ numUpdatedDocs_ w' = numUpdatedDocs_ w
      ∧ numDeletedDocs_ w' = numDeletedDocs_ w.
Proof.
  intros Hmax. split; [done|]. unfold rebuildCollection.
  apply N.leb_gt in Hmax. rewrite Hmax.
  destruct (rebuildLoop_writes src now (docIdsUpTo (src_getMaxDocId src)) w)
    as (dmNew & imNew & (Hd & Hm & Hu & Hdel) & (F1 & _ & _ & F4) & Hlen).
  destruct (F4 eq_refl) as [Fd Fm].
  eexists _, dmNew, imNew. split; [done|]. rewrite Hd, Hm, Hu, Hdel, N.add_0_r.
  repeat split; try done.
  unfold docIdsUpTo in Hlen. by rewrite length_map, length_seq in Hlen.
Qed.

End Worker.

(** *** The concrete collection again *)

(** Three documents of which the second is null: the first is processed,
    the pass fails, and the third is not looked at. *)
Example null_document_ends_the_pass :
  let r := insertOrUpdateSCD_ demoEnv
             [Some [("DOCID", "NEW1"); ("Title", "t")]; None;
              Some [("DOCID", "NEW22"); ("Title", "u")]] true 0 0 world0 in
  r.1 = false
  ∧ dmSummary (documentManager_ r.2) = [("insert", 7%N, true)]
  ∧ length (indexManager_ r.2) = 1.
Proof. vm_compute. repeat split. Qed.

(** A store to rebuild from: docid 1 is deleted, docid 2 holds a document
    with a DOCID the id manager does not know, docid 3 one without DOCID. *)
Definition demoSource : SourceStore :=
  {| src_getMaxDocId := 3;
     src_isDeleted := λ id, (id =? 1)%N;
     src_getDocument := λ id,
       if (id =? 2)%N
       then {| getId := 2; properties := {[ "DOCID" := PV_UString "NEW1" ]} |}
       else emptyDocument;
     src_docIdText := λ d,
       match properties d !! "DOCID" with
       | Some (PV_UString text) => Some text
       | _ => None
       end |}.

Example rebuild_from_demoSource :
  ∃ w', rebuildCollection demoEnv (Some demoSource) 0 world0 = Some (true, w')
        ∧ dmSummary (documentManager_ w') = [("insert", 7%N, true)]
        ∧ idManager_ w' = [IdGetOrCreate 4 false 7].
Proof. eexists. split; [vm_compute; reflexivity|]. split; reflexivity. Qed.

Lemma update_of_unknown_document_is_an_insert_witness :
  oneDocId demoEnv [] "DOCID" [("Title", "t")]
  ∧ ∃ dmNew imNew,
      Written true dmNew imNew 0
      ∧ wrote world0
          (processDocument demoEnv false 0 [("DOCID", "NEW1"); ("Title", "t")] world0)
          dmNew imNew 0.
Proof.
  assert (oneDocId demoEnv [] "DOCID" [("Title", "t")]) as H1.
  { split; [reflexivity|]. split; [reflexivity|]. split; [|reflexivity].
    exists cfgDocId. reflexivity. }
  split; [exact H1|].
  exact (update_of_unknown_document_is_an_insert demoEnv world0 [] "DOCID" "NEW1"
           [("Title", "t")] 0%Z H1 eq_refl eq_refl).
Defined.

Example unknown_update_inserts :
  dmSummary (documentManager_
               (processDocument demoEnv false 0 [("DOCID", "NEW1"); ("Title", "t")]
                  world0))
  = [("insert", 7%N, true)].
Proof. vm_compute. reflexivity. Qed.

Lemma rebuild_only_inserts_witness :
  rebuildCollection demoEnv None 0 world0 = Some (false, world0).
Proof.
  refine (proj1 (rebuild_only_inserts demoEnv demoSource 0 world0 _)).
  reflexivity.
Defined.

End IndexWorkerFacts.

(* ===================================================================== *)
(** ** [IndexWorker::recoverSCD_] *)
(* ===================================================================== *)

Module IndexRecovery.
Import DirectoryBackup.

Section Recovery.

(** [bundleConfig_->indexSCDPath()], and which files [bfs::rename] refuses
    to move. *)
Variable indexSCDPath : string.
Variable renameThrows : string * string → bool.

Definition scdBkDir : string := Recommend.bkDirOf indexSCDPath.

(** [bfs::rename]: [None] is a thrown [filesystem_error]. *)
Definition rename (src dst : string * string) (f : Recommend.FS) : option Recommend.FS :=
  if renameThrows src || negb (bool_decide (src ∈ Recommend.regularFiles f))
  then None
  else Some {| Recommend.directories := Recommend.directories f;
               Recommend.regularFiles :=
                 {[dst]} ∪ (Recommend.regularFiles f ∖ {[src]}) |}.

(** The body of the loop over [backup/] (lines 2808-2824), for a regular
    file [p] of it. *)
Definition recoverFile (existingSCDs : list string) (f : Recommend.FS)
    (p : string * string) : Recommend.FS :=
  if bool_decide (p.2 ∈ existingSCDs) then f
  else default f (rename p (indexSCDPath, p.2) f).

(** [recoverSCD_] (lines 2768-2827).  [existingSCDs] are the words of the
    scd log of the current directory, none if the log cannot be read; the
    directory iterator is taken to visit the files that are in [backup/]
    when the loop starts. *)
Definition recoverSCD_ (existingSCDs : list string) (r : DirectoryRotator)
    (f : Recommend.FS) : bool * Recommend.FS :=
  match nextDirectory r with
  | Some next =>
      if negb (String.eqb (name (currentDirectory r)) (name next))
      then
        match existingSCDs with
        | [] => (false, f)
        | _ :: _ =>
            if Recommend.is_directory f scdBkDir
            then (true,
                  foldl (recoverFile existingSCDs) f
                    (elements (filter (λ p : string * string, p.1 = scdBkDir)
                                      (Recommend.regularFiles f))))
            else (false, f)
        end
      else (false, f)
  | None => (false, f)
  end.

Lemma recoverFile_directories existingSCDs f p :
  Recommend.directories (recoverFile existingSCDs f p) = Recommend.directories f.
Proof.
  unfold recoverFile, rename. destruct (bool_decide (p.2 ∈ existingSCDs)); [done|].
  by destruct (renameThrows p || negb (bool_decide (p ∈ Recommend.regularFiles f))).
Qed.

Lemma recoverFile_elem existingSCDs f p x :
  x ∈ Recommend.regularFiles (recoverFile existingSCDs f p) →
  x ∈ Recommend.regularFiles f
  ∨ (x = (indexSCDPath, p.2) ∧ (p.2 ∉ existingSCDs) ∧ p ∈ Recommend.regularFiles f).
Proof.
  unfold recoverFile, rename.
  destruct (bool_decide (p.2 ∈ existingSCDs)) eqn:Hseen; [by auto|].
  apply bool_decide_eq_false in Hseen.
  destruct (renameThrows p); [by auto|]. cbn [orb].
  destruct (bool_decide (p ∈ Recommend.regularFiles f)) eqn:Hp; [|by auto].
  apply bool_decide_eq_true in Hp. simpl.
  rewrite elem_of_union, elem_of_singleton, elem_of_difference.
  intros [->|[? _]]; auto.
Qed.

Lemma recoverFile_other existingSCDs f p x :
  x ≠ p → x ∈ Recommend.regularFiles f →
  x ∈ Recommend.regularFiles (recoverFile existingSCDs f p).
Proof.
  intros Hne Hx. unfold recoverFile, rename.
  destruct (bool_decide (p.2 ∈ existingSCDs)); [done|].
  destruct (renameThrows p || negb (bool_decide (p ∈ Recommend.regularFiles f)));
    simpl; [done|].
  apply elem_of_union. right. apply elem_of_difference. split; [done|].
  by rewrite elem_of_singleton.
Qed.

Lemma recoverFile_seen existingSCDs f p x :
  x.2 ∈ existingSCDs → x ∈ Recommend.regularFiles f →
  x ∈ Recommend.regularFiles (recoverFile existingSCDs f p).
Proof.
  intros Hseen Hx. destruct (decide (x = p)) as [->|Hne].
  - unfold recoverFile. by rewrite bool_decide_eq_true_2.
  - by apply recoverFile_other.
Qed.

Lemma recoverLoop_frame existingSCDs l : ∀ f,
  Recommend.directories (foldl (recoverFile existingSCDs) f l) = Recommend.directories f
  ∧ (∀ x, x ∈ Recommend.regularFiles (foldl (recoverFile existingSCDs) f l) →
          x ∈ Recommend.regularFiles f
          ∨ (x.1 = indexSCDPath ∧ (x.2 ∉ existingSCDs) ∧ ∃ p, p ∈ l ∧ p.2 = x.2))
  ∧ (∀ x, x.2 ∈ existingSCDs → x ∈ Recommend.regularFiles f →
          x ∈ Recommend.regularFiles (foldl (recoverFile existingSCDs) f l))
  ∧ (∀ x, x ∉ l → x ∈ Recommend.regularFiles f →
          x ∈ Recommend.regularFiles (foldl (recoverFile existingSCDs) f l)).
Proof.
  induction l as [|p l IH]; intros f; simpl.
  { repeat split; auto. }
  destruct (IH (recoverFile existingSCDs f p)) as (Hd & Hin & Hseen & Hout).
  split; [|split; [|split]].
  - by rewrite Hd, recoverFile_directories.
  - intros x Hx. destruct (Hin x Hx) as [H|(H1 & H2 & q & Hq & Hn)].
    + apply recoverFile_elem in H as [H|(-> & Hn & _)]; [by left|].
      right. split; [done|]. split; [done|]. exists p. split; [by left|done].
    + right. split; [done|]. split; [done|]. exists q. split; [by right|done].
  - intros x Hx Hf. apply Hseen; [done|]. by apply recoverFile_seen.
  - intros x Hx Hf. apply not_elem_of_cons in Hx as [Hne Hx].
    apply Hout; [done|]. by apply recoverFile_other.
Qed.

Lemma recoverLoop_gone existingSCDs l : ∀ f p,
  p.1 = scdBkDir → p ∉ Recommend.regularFiles f →
  p ∉ Recommend.regularFiles (foldl (recoverFile existingSCDs) f l).
Proof.
  intros f p Hdir Hp Hin.
  destruct (recoverLoop_frame existingSCDs l f) as (_ & Hfrom & _).
  destruct (Hfrom p Hin) as [?|(H1 & _)]; [done|].
  apply (Recommend.bkDirOf_ne indexSCDPath). unfold scdBkDir in Hdir. congruence.
Qed.

Lemma recoverLoop_moves existingSCDs l : ∀ f p,
  NoDup l →
  (∀ q, q ∈ l → q ∈ Recommend.regularFiles f ∧ q.1 = scdBkDir) →
  p ∈ l → p.2 ∉ existingSCDs → renameThrows p = false →
  (p ∉ Recommend.regularFiles (foldl (recoverFile existingSCDs) f l))
  ∧ (indexSCDPath, p.2) ∈ Recommend.regularFiles (foldl (recoverFile existingSCDs) f l).
Proof.
  induction l as [|q l IH]; intros f p Hnd Hall Hp Hnew Hthrow; simpl.
  { by apply elem_of_nil in Hp. }
  apply NoDup_cons in Hnd as [Hq Hnd].
  assert (∀ x, x ∈ l → x.1 = scdBkDir) as Hdirs.
  { intros x Hx. apply Hall. by right. }
  apply elem_of_cons in Hp as [->|Hp].
  - destruct (Hall q) as [Hin Hdir]; [by left|].
    assert (Recommend.regularFiles (recoverFile existingSCDs f q)
            = {[(indexSCDPath, q.2)]} ∪ (Recommend.regularFiles f ∖ {[q]})) as Hfs.
    { unfold recoverFile, rename. rewrite bool_decide_eq_false_2 by done.
      rewrite Hthrow. by rewrite bool_decide_eq_true_2. }
    split.
    + apply recoverLoop_gone; [done|]. rewrite Hfs.
      rewrite elem_of_union, elem_of_singleton, elem_of_difference, elem_of_singleton.
      intros [Heq|[_ ?]]; [|done].
      apply (f_equal fst) in Heq. simpl in Heq. rewrite Hdir in Heq.
      by apply (Recommend.bkDirOf_ne indexSCDPath).
    + destruct (recoverLoop_frame existingSCDs l (recoverFile existingSCDs f q))
        as (_ & _ & _ & Hout).
      apply Hout.
      * intros Hin'. apply (Recommend.bkDirOf_ne indexSCDPath).
        symmetry. by apply (Hdirs _ Hin').
      * rewrite Hfs. apply elem_of_union. left. by apply elem_of_singleton.
  - apply IH; [done| |done|done|done].
    intros x Hx. split; [|by apply Hdirs].
    apply recoverFile_other; [by intros ->|]. apply Hall. by right.
Qed.

(** The conditions under which [recoverSCD_] goes to work. *)
Definition recoverable (existingSCDs : list string) (r : DirectoryRotator)
    (f : Recommend.FS) : Prop :=
  (∃ next, nextDirectory r = Some next ∧ name (currentDirectory r) ≠ name next)
  ∧ existingSCDs ≠ []
  ∧ Recommend.is_directory f scdBkDir = true.

(** [recoverSCD_] gives the index back the bundle files it has not seen:
    with a next directory under another name, a scd log that names at least
    one file and a [backup/] directory in place, it returns [true]; a file of
    [backup/] that the log names stays there; one the log does not name is
    moved back to the bundle directory, unless its [rename] throws; no other
    file and no directory is touched.  If one of the conditions fails it
    returns [false] and leaves everything alone. *)
Theorem recovery_returns_unseen_bundle_files
    (existingSCDs : list string) (r : DirectoryRotator) (f : Recommend.FS) :
  let after := (recoverSCD_ existingSCDs r f).2 in
  (recoverable existingSCDs r f →
     (recoverSCD_ existingSCDs r f).1 = true
     ∧ Recommend.directories after = Recommend.directories f
     ∧ (∀ p, p ∈ Recommend.regularFiles f → p.1 = scdBkDir →
          (p.2 ∈ existingSCDs → p ∈ Recommend.regularFiles after)
          ∧ (p.2 ∉ existingSCDs → renameThrows p = false →
             (p ∉ Recommend.regularFiles after)
             ∧ (indexSCDPath, p.2) ∈ Recommend.regularFiles after))
     ∧ (∀ q, q ∈ Recommend.regularFiles f → q.1 ≠ scdBkDir →
          q ∈ Recommend.regularFiles after)
     ∧ (∀ q, q ∈ Recommend.regularFiles after →
          q ∈ Recommend.regularFiles f
          ∨ (q.1 = indexSCDPath ∧ (q.2 ∉ existingSCDs)
             ∧ (scdBkDir, q.2) ∈ Recommend.regularFiles f)))
  ∧ (¬ recoverable existingSCDs r f → recoverSCD_ existingSCDs r f = (false, f)).
Proof.
  intros after. subst after. split.
  - intros ((next & Hnext & Hne) & Hlog & Hdir). unfold recoverSCD_.
    rewrite Hnext. apply String.eqb_neq in Hne. rewrite Hne. cbn [negb].
    destruct existingSCDs as [|scd existing]; [done|]. rewrite Hdir. cbn [fst snd].
    set (seen := scd :: existing).
    set (l := elements (filter (λ p : string * string, p.1 = scdBkDir)
                               (Recommend.regularFiles f))).
    assert (∀ p, p ∈ l ↔ p ∈ Recommend.regularFiles f ∧ p.1 = scdBkDir) as Hl.
    { intros p. subst l. rewrite elem_of_elements, elem_of_filter. tauto. }
    assert (NoDup l) as Hnd by apply NoDup_elements.
    destruct (recoverLoop_frame seen l f) as (Hd & Hfrom & Hseen & Hout).
    split; [done|]. split; [done|]. split; [|split].
    + intros p Hp Hpdir. split.
      * intros Hin. by apply Hseen.
      * intros Hnew Hthrow. apply recoverLoop_moves; try done.
        -- intros q Hq. by apply Hl.
        -- by apply Hl.
    + intros q Hq Hqdir. apply Hout; [|done]. intros Hin. apply Hl in Hin as [_ ?].
      done.
    + intros q Hq. destruct (Hfrom q Hq) as [?|(H1 & H2 & p & Hp & Hn)]; [by left|].
      right. split; [done|]. split; [done|].
      apply Hl in Hp as [Hp Hpdir]. destruct p as [d n]. simpl in *. by subst.
  - intros Hnot. unfold recoverSCD_.
    destruct (nextDirectory r) as [next|] eqn:Hnext; [|done].
    destruct (String.eqb (name (currentDirectory r)) (name next)) eqn:Hname; [done|].
    cbn [negb]. destruct existingSCDs as [|scd existing]; [done|].
    destruct (Recommend.is_directory f scdBkDir) eqn:Hdir; [|done].
    exfalso. apply Hnot. split; [|done]. exists next. split; [done|].
    by apply String.eqb_neq.
Qed.

End Recovery.

(** The index has seen [B-1.SCD]; [B-2.SCD] was backed up but is not in the
    log of the current directory. *)
Definition backedUp : Recommend.FS :=
  {| Recommend.directories := {["scd/index"; "scd/index/backup"]};
     Recommend.regularFiles :=
       {[("scd/index/backup", "B-1.SCD"); ("scd/index/backup", "B-2.SCD")]} |}.

Example recover_unseen_bundle :
  let r := recoverSCD_ "scd/index" (λ _, false) ["B-1.SCD"] rotatorStale backedUp in
  r.1 = true
  ∧ Recommend.regularFiles r.2
    = {[("scd/index/backup", "B-1.SCD"); ("scd/index", "B-2.SCD")]}.
Proof. split; [reflexivity|]. apply (bool_decide_unpack _). vm_compute. exact I. Qed.

End IndexRecovery.

(* ===================================================================== *)
(** ** core/node-manager/DistributeFileSys.cpp *)
(* ===================================================================== *)

Module DistributeFileSys.

Record DistributeFileSys := {
  dfs_enabled_ : bool;
  dfs_mount_dir_ : string;
  dfs_local_node_root_ : string
}.

(** The constructor. *)
Definition created : DistributeFileSys :=
  {| dfs_enabled_ := false; dfs_mount_dir_ := ""; dfs_local_node_root_ := "" |}.

Definition empty (s : string) : bool := String.eqb s "".

Definition isEnabled (d : DistributeFileSys) : bool :=
  dfs_enabled_ d && negb (empty (dfs_mount_dir_ d)).

Definition enableDFS (mount_dir dfs_local_node_root : string) (d : DistributeFileSys)
  : DistributeFileSys :=
  {| dfs_enabled_ := true; dfs_mount_dir_ := mount_dir;
     dfs_local_node_root_ := dfs_local_node_root |}.

Definition getDFSPathForLocal (d : DistributeFileSys) (dfs_location : string) : string :=
  if negb (dfs_enabled_ d) || empty (dfs_mount_dir_ d) then ""
  else dfs_mount_dir_ d ++ "/" ++ dfs_location.

Definition getDFSPathForLocalNode (d : DistributeFileSys) (dfs_location : string)
  : string :=
  if negb (dfs_enabled_ d) || empty (dfs_local_node_root_ d) then ""
  else dfs_local_node_root_ d ++ "/" ++ dfs_location.

Definition dfs_copy_prefix : string := "/sf1r_global_data".

(** [getFixedCopyPath]; [clusterId] is
    [SuperNodeManager::get()->getClusterId()]. *)
Definition getFixedCopyPath (clusterId custom_prefix : string) : string :=
  dfs_copy_prefix ++ "/" ++ clusterId ++ "/" ++ custom_prefix.

Lemma app_slash_nonempty (a b : string) : a ≠ "" → (a ++ "/" ++ b)%string ≠ "".
Proof. by destruct a. Qed.

(** A path on the distributed file system is given out exactly when it is
    enabled: [getDFSPathForLocal] returns the empty path if [isEnabled] is
    false and the location under the mount directory if it is true.  Enabling
    with an empty mount directory leaves it disabled, and then
    [getDFSPathForLocalNode] still gives out paths under a node root that is
    not empty; a newly made object is disabled. *)
Theorem dfs_path_given_iff_enabled (d : DistributeFileSys) (dfs_location : string) :
  getDFSPathForLocal d dfs_location
  = (if isEnabled d then (dfs_mount_dir_ d ++ "/" ++ dfs_location)%string else "")
  ∧ (getDFSPathForLocal d dfs_location ≠ "" ↔ isEnabled d = true)
  ∧ (∀ mount_dir root, isEnabled (enableDFS mount_dir root d) = true ↔ mount_dir ≠ "")
  ∧ (∀ root, root ≠ "" →
       isEnabled (enableDFS "" root d) = false
       ∧ getDFSPathForLocalNode (enableDFS "" root d) dfs_location
         = (root ++ "/" ++ dfs_location)%string)
  ∧ isEnabled created = false.
Proof.
  unfold getDFSPathForLocal, getDFSPathForLocalNode, isEnabled, enableDFS, empty.
  split; [|split; [|split; [|split]]].
  - destruct (dfs_enabled_ d); [|done]. by destruct (String.eqb _ "").
  - destruct (dfs_enabled_ d); simpl; [|by split].
    destruct (String.eqb (dfs_mount_dir_ d) "") eqn:Hm; simpl; [by split|].
    split; [done|]. intros _. apply app_slash_nonempty. by apply String.eqb_neq.
  - intros m root. simpl. rewrite negb_true_iff. apply String.eqb_neq.
  - intros root Hroot. simpl. split; [done|].
    apply String.eqb_neq in Hroot. by rewrite Hroot.
  - done.
Qed.

End DistributeFileSys.
